(** * Electron_Tut: the document extraction and reading-order engine

    A shallow embedding of the extraction logic of
    [src/ui/components/EpubReader.tsx], [src/ui/components/PdfReader.tsx]
    and of the progress arithmetic of [src/ui/components/BookReader.tsx],
    with the properties the specification states about them; and of the
    navigation, the screens, the storage of the shelf and the handling of
    file names in these components, in [src/ui/components/FileImport.tsx]
    and in the application component, with properties of their own.

    JavaScript strings are modelled as lists of code units ([list ascii],
    the code units below 256); numbers that are page counts, indices or
    layout coordinates are integers. *)

Set Warnings "-abstract-large-number".

From Stdlib Require Import Ascii String.
From Stdlib Require Import List Bool Arith ZArith Lia.
From Stdlib Require Import Sorting.Permutation Sorting.Sorted.
From Stdlib Require Import Numbers.DecimalString Numbers.DecimalNat.
From Stdlib Require QArith Qround Qabs Qpower Lqa.
From Stdlib Require Import Floats.SpecFloat.
Import ListNotations.

#[local] Open Scope list_scope.
#[local] Open Scope nat_scope.

(** ** JavaScript strings *)

Module JS.

Definition jstring := list ascii.

(** String literals of the source are written as Rocq strings and read as
    lists of code units. *)
Definition lit (s : string) : jstring := list_ascii_of_string s.

(** The double quote, written by its code. *)
Definition dq : ascii := "034"%char.

Definition code (c : ascii) : nat := nat_of_ascii c.

(** [WhiteSpace] and [LineTerminator] code units below 256, as removed by
    [String.prototype.trim]: TAB, LF, VT, FF, CR, SP and NBSP. *)
Definition isWhiteSpace (c : ascii) : bool :=
  let n := code c in
  ((9 <=? n) && (n <=? 13)) || (n =? 32) || (n =? 160).

Fixpoint trimStart (s : jstring) : jstring :=
  match s with
  | c :: s' => if isWhiteSpace c then trimStart s' else s
  | [] => []
  end.

Definition trimEnd (s : jstring) : jstring := rev (trimStart (rev s)).

Definition trim (s : jstring) : jstring := trimEnd (trimStart s).

(** [s.substring(0, n)] for [0 <= n]. *)
Definition substring0 (n : nat) (s : jstring) : jstring := firstn n s.

Fixpoint startsWith (p s : jstring) : bool :=
  match p, s with
  | [], _ => true
  | _ :: _, [] => false
  | a :: p', b :: s' => Ascii.eqb a b && startsWith p' s'
  end.

(** [s.includes(p)] *)
Fixpoint includes (p s : jstring) : bool :=
  startsWith p s ||
  match s with
  | [] => false
  | _ :: s' => includes p s'
  end.

(** [s.endsWith(p)] *)
Definition endsWith (p s : jstring) : bool := startsWith (rev p) (rev s).

(** [s.lastIndexOf(c)] for a one-character needle: [None] stands for -1. *)
Fixpoint lastIndexOf (c : ascii) (s : jstring) : option nat :=
  match s with
  | [] => None
  | x :: s' =>
      match lastIndexOf c s' with
      | Some i => Some (S i)
      | None => if Ascii.eqb x c then Some 0 else None
      end
  end.

(** [s.split(sep)] for a one-character separator. *)
Fixpoint split (sep : ascii) (s : jstring) : list jstring :=
  match s with
  | [] => [[]]
  | c :: s' =>
      if Ascii.eqb c sep then [] :: split sep s'
      else match split sep s' with
           | l :: ls => (c :: l) :: ls
           | [] => [[c]]
           end
  end.

(** [a.join(sep)] *)
Fixpoint join (sep : jstring) (l : list jstring) : jstring :=
  match l with
  | [] => []
  | [x] => x
  | x :: l' => x ++ sep ++ join sep l'
  end.

(** Template-literal rendering of a non-negative integer. *)
Definition ofNat (n : nat) : jstring := lit (NilZero.string_of_uint (Nat.to_uint n)).

(** *** Regular expressions

    The fragment of the regular-expression language that the source uses:
    literal characters, character classes, sequence, alternation, greedy and
    lazy repetition of a character class, one capture group and the end
    anchor.  Matching is the backtracking search of the language: the first
    alternative is tried first, a greedy star tries the longest repetition
    first and a lazy star the shortest. *)

Inductive regex : Type :=
| Chr (c : ascii)
| Class (p : ascii -> bool)
| Seq (r1 r2 : regex)
| Alt (r1 r2 : regex)
| Star (p : ascii -> bool)
| StarLazy (p : ascii -> bool)
| Group (r : regex)
| EndAnchor.

Declare Scope regex_scope.
Delimit Scope regex_scope with re.
Bind Scope regex_scope with regex.
Infix ";;" := Seq (at level 61, right associativity) : regex_scope.
Infix "<|>" := Alt (at level 62, right associativity) : regex_scope.

(** A literal string inside a pattern. *)
Fixpoint chars (s : string) : regex :=
  match s with
  | EmptyString => Star (fun _ => false)
  | String c EmptyString => Chr c
  | String c s' => Seq (Chr c) (chars s')
  end.

(** [[^c]], [.] and [[\s\S]] *)
Definition notChar (c : ascii) : ascii -> bool := fun x => negb (Ascii.eqb x c).
Definition dot : ascii -> bool := fun x => negb ((code x =? 10) || (code x =? 13)).
Definition anyChar : ascii -> bool := fun _ => true.

(** Canonicalisation under the [i] flag: ASCII letters compare by their
    upper-case form. *)
Definition canonicalize (c : ascii) : ascii :=
  let n := code c in
  if (97 <=? n) && (n <=? 122) then ascii_of_nat (n - 32) else c.

Record flags : Type := { ignoreCase : bool }.

Definition chrMatches (f : flags) (c x : ascii) : bool :=
  if ignoreCase f then Ascii.eqb (canonicalize c) (canonicalize x)
  else Ascii.eqb c x.

(** The state of a match in progress: the text of capture group 1, if the
    group has been closed, and the input still to be read. *)
Definition cont (R : Type) : Type := option jstring -> jstring -> option R.

Fixpoint starGreedy {R} (p : ascii -> bool) (k : jstring -> option R) (s : jstring) : option R :=
  match s with
  | c :: s' =>
      if p c then
        match starGreedy p k s' with
        | Some r => Some r
        | None => k s
        end
      else k s
  | [] => k []
  end.

Fixpoint starLazy {R} (p : ascii -> bool) (k : jstring -> option R) (s : jstring) : option R :=
  match k s with
  | Some r => Some r
  | None =>
      match s with
      | c :: s' => if p c then starLazy p k s' else None
      | [] => None
      end
  end.

Fixpoint run {R} (f : flags) (r : regex) (cap : option jstring) (s : jstring) (k : cont R)
  : option R :=
  match r with
  | Chr c =>
      match s with
      | x :: s' => if chrMatches f c x then k cap s' else None
      | [] => None
      end
  | Class p =>
      match s with
      | x :: s' => if p x then k cap s' else None
      | [] => None
      end
  | Seq r1 r2 => run f r1 cap s (fun cap1 s1 => run f r2 cap1 s1 k)
  | Alt r1 r2 =>
      match run f r1 cap s k with
      | Some res => Some res
      | None => run f r2 cap s k
      end
  | Star p => starGreedy p (k cap) s
  | StarLazy p => starLazy p (k cap) s
  | Group r1 =>
      run f r1 cap s (fun _ s1 => k (Some (firstn (length s - length s1) s)) s1)
  | EndAnchor =>
      match s with
      | [] => k cap []
      | _ :: _ => None
      end
  end.

(** The result of matching at the start of [s]: the matched text, the text
    of group 1 (empty if the group did not take part) and the rest. *)
Record matched : Type := { whole : jstring; group1 : jstring; rest : jstring }.

Definition matchHere (f : flags) (r : regex) (s : jstring) : option matched :=
  run f r None s (fun cap s1 =>
    Some {| whole := firstn (length s - length s1) s;
            group1 := match cap with Some g => g | None => [] end;
            rest := s1 |}).

(** [s.match(r)] without the [g] flag: the leftmost match. *)
Fixpoint search (f : flags) (r : regex) (s : jstring) : option matched :=
  match matchHere f r s with
  | Some m => Some m
  | None =>
      match s with
      | [] => None
      | _ :: s' => search f r s'
      end
  end.

(** [s.match(r)] with the [g] flag: every match, scanning left to right and
    resuming after each match, together with the offset it starts at.  The
    counter [skip] is the number of code units still covered by the
    previous match; [null] is the empty list. *)
Fixpoint scan (f : flags) (r : regex) (s : jstring) (off skip : nat) : list (nat * matched) :=
  match s with
  | [] =>
      match skip with
      | O => match matchHere f r [] with
             | Some m => [(off, m)]
             | None => []
             end
      | S _ => []
      end
  | _ :: s' =>
      match skip with
      | S n => scan f r s' (S off) n
      | O =>
          match matchHere f r s with
          | Some m => (off, m) :: scan f r s' (S off) (length (whole m) - 1)
          | None => scan f r s' (S off) 0
          end
      end
  end.

Definition matchAll (f : flags) (r : regex) (s : jstring) : list jstring :=
  map (fun om => whole (snd om)) (scan f r s 0 0).

(** [s.replace(r, by)] with the [g] flag and a replacement text without
    [$] patterns. *)
Fixpoint replaceFrom (f : flags) (r : regex) (by_ : jstring) (s : jstring) (skip : nat) : jstring :=
  match s with
  | [] =>
      match skip with
      | O => match matchHere f r [] with
             | Some _ => by_
             | None => []
             end
      | S _ => []
      end
  | c :: s' =>
      match skip with
      | S n => replaceFrom f r by_ s' n
      | O =>
          match matchHere f r s with
          | Some m =>
              match length (whole m) with
              | O => by_ ++ c :: replaceFrom f r by_ s' 0
              | S n => by_ ++ replaceFrom f r by_ s' n
              end
          | None => c :: replaceFrom f r by_ s' 0
          end
      end
  end.

Definition replaceAll (f : flags) (r : regex) (by_ : jstring) (s : jstring) : jstring :=
  replaceFrom f r by_ s 0.

Definition g : flags := {| ignoreCase := false |}.
Definition gi : flags := {| ignoreCase := true |}.

End JS.

Import JS.
#[local] Open Scope regex_scope.


(** ** The archive pipeline ([EpubReader.tsx]) *)

Module Epub.

Record Chapter : Type := { id : jstring; title : jstring; content : jstring }.

(** The loaded archive, [zipFile.files]: the file entries in the enumeration
    order of [Object.keys], each with its text as [async('string')] decodes
    it.  Entry names are pairwise distinct.  Directory entries are left
    out: their names end in a slash, so that no pattern of the source
    selects them, and [file] does not return them. *)
Definition archive : Type := list (jstring * jstring).

Definition keys (zip : archive) : list jstring := map fst zip.

(** [zipFile.file(name)?.async('string')] *)
Fixpoint file (zip : archive) (name : jstring) : option jstring :=
  match zip with
  | [] => None
  | (n, text) :: zip' =>
      if list_eq_dec ascii_dec n name then Some text else file zip' name
  end.

(** A string in a condition: [undefined] and the empty string are falsy. *)
Definition truthy (o : option jstring) : option jstring :=
  match o with
  | Some ((_ :: _) as s) => Some s
  | _ => None
  end.

(** *** The patterns of the source *)

(** The pattern of [extractEpubContent] for the container descriptor, flag
    [i]: [<rootfile], any run of characters other than [>], [full-path=],
    a double-quoted run of characters other than the double quote captured
    as group 1, any run of characters other than [>], and [>]. *)
Definition rootfileRe : regex :=
  chars "<rootfile" ;; Star (notChar ">") ;; chars "full-path=" ;; Chr dq ;;
  Group (Star (notChar dq)) ;; Chr dq ;; Star (notChar ">") ;; Chr ">".

(** The [href] patterns of [extractHtmlFilesFromOpf], flag [i]: [href=] and
    a double-quoted reference captured as group 1, which is a run of
    characters other than the double quote followed by [.html] or [.xhtml]
    (by [.css] for style sheets). *)
Definition hrefHtmlRe : regex :=
  chars "href=" ;; Chr dq ;;
  Group (Star (notChar dq) ;; Chr "." ;; (chars "html" <|> chars "xhtml")) ;; Chr dq.

Definition hrefCssRe : regex :=
  chars "href=" ;; Chr dq ;; Group (Star (notChar dq) ;; chars ".css") ;; Chr dq.

(** The item patterns of [extractHtmlFilesFromOpf], flags [gi]: [<item],
    any run of characters other than [>], the [href] pattern, any run of
    characters other than [>], and [>]. *)
Definition itemHtmlRe : regex :=
  chars "<item" ;; Star (notChar ">") ;; hrefHtmlRe ;; Star (notChar ">") ;; Chr ">".

Definition itemCssRe : regex :=
  chars "<item" ;; Star (notChar ">") ;; hrefCssRe ;; Star (notChar ">") ;; Chr ">".

(** The suffix patterns of [extractHtmlFilesDirectly], flag [i]: a dot,
    [html] or [xhtml] (resp. [css]) and the end of the name. *)
Definition htmlSuffixRe : regex :=
  Chr "." ;; Group (chars "html" <|> chars "xhtml") ;; EndAnchor.

Definition cssSuffixRe : regex := chars ".css" ;; EndAnchor.

(** The title patterns, flag [i]: the opening tag of the element with any
    attributes, the shortest run of characters other than line terminators
    captured as group 1, and the closing tag. *)
Definition elementRe (tag : string) : regex :=
  chars ("<" ++ tag)%string ;; Star (notChar ">") ;; Chr ">" ;;
  Group (StarLazy dot) ;; chars ("</" ++ tag ++ ">")%string.

Definition titlePatterns : list regex :=
  [elementRe "title"; elementRe "h1"; elementRe "h2"; elementRe "h3"].

(** The body pattern, flag [i]: as a title pattern, the captured run being
    of any characters. *)
Definition bodyRe : regex :=
  chars "<body" ;; Star (notChar ">") ;; Chr ">" ;;
  Group (StarLazy anyChar) ;; chars "</body>".

(** The block patterns for [script] and [style], flags [gi]: the opening
    tag with any attributes, the shortest run of any characters, and the
    closing tag. *)
Definition blockRe (tag : string) : regex :=
  chars ("<" ++ tag)%string ;; Star (notChar ">") ;; Chr ">" ;;
  StarLazy anyChar ;; chars ("</" ++ tag ++ ">")%string.

(** The tag patterns for [meta] and [link], flags [gi], and the pattern for
    any tag, flag [g]. *)
Definition tagRe (tag : string) : regex :=
  chars ("<" ++ tag)%string ;; Star (notChar ">") ;; Chr ">".

Definition anyTagRe : regex := Chr "<" ;; Star (notChar ">") ;; Chr ">".

(** *** Sanitizers *)

Definition cleanHtmlContent (html : jstring) : jstring :=
  trim
    (replaceAll g (chars "&#39;") (lit "'")
    (replaceAll g (chars "&quot;") [dq]
    (replaceAll g (chars "&gt;") (lit ">")
    (replaceAll g (chars "&lt;") (lit "<")
    (replaceAll g (chars "&amp;") (lit "&")
    (replaceAll g (chars "&nbsp;") (lit " ")
    (replaceAll gi (tagRe "link") []
    (replaceAll gi (tagRe "meta") []
    (replaceAll gi (blockRe "style") []
    (replaceAll gi (blockRe "script") [] html)))))))))).

Definition CR : ascii := "013"%char.
Definition LF : ascii := "010"%char.

Definition cleanTextContent (text : jstring) : jstring :=
  substring0 20000
    (join [LF; LF]
      (filter (fun line => 0 <? length line)
        (map trim
          (split LF
            (replaceAll g (Chr CR) [LF]
            (replaceAll g (Chr CR ;; Chr LF) [LF]
            (replaceAll g anyTagRe [] text))))))).

Definition extractContentFromHtml (html : jstring) : jstring :=
  let content := cleanHtmlContent html in
  match search gi bodyRe content with
  | Some bodyMatch => group1 bodyMatch
  | None => content
  end.

(** The loop over [titlePatterns]: the first pattern that matches with a
    capture that is not blank decides. *)
Fixpoint firstTitle (patterns : list regex) (html : jstring) : option jstring :=
  match patterns with
  | [] => None
  | pattern :: more =>
      match search gi pattern html with
      | Some m =>
          if 0 <? length (trim (group1 m)) then Some (cleanTextContent (group1 m))
          else firstTitle more html
      | None => firstTitle more html
      end
  end.

Definition extractTitleFromHtml (html : jstring) : option jstring :=
  firstTitle titlePatterns html.

Definition createChapterFromHtml (zip : archive) (htmlPath : jstring) (chapterIndex : nat)
  : option Chapter :=
  match truthy (file zip htmlPath) with
  | None => None
  | Some htmlContent =>
      let title :=
        match truthy (extractTitleFromHtml htmlContent) with
        | Some t => t
        | None => lit "Chapter " ++ ofNat chapterIndex
        end in
      let content := extractContentFromHtml htmlContent in
      if 0 <? length (trim content) then
        Some {| id := lit "chapter-" ++ ofNat chapterIndex;
                title := title;
                content := content |}
      else None
  end.

(** *** Discovery of content files *)

(** The style sheets appended to [document.head], in order. *)
Definition head : Type := list jstring.

Definition extractCssStyles (zip : archive) (cssPath : jstring) (h : head) : head :=
  match truthy (file zip cssPath) with
  | Some cssContent => h ++ [cssContent]
  | None => h
  end.

(** [opfPath.substring(0, opfPath.lastIndexOf('/') + 1)] *)
Definition dirname (path : jstring) : jstring :=
  match lastIndexOf "/" path with
  | Some i => substring0 (i + 1) path
  | None => []
  end.

(** [basePath] of [extractHtmlFilesFromOpf]: the directory of the first
    entry whose name ends in [.opf]. *)
Definition basePathOf (zip : archive) : jstring :=
  match find (endsWith (lit ".opf")) (keys zip) with
  | Some opfPath => dirname opfPath
  | None => []
  end.

(** The [for (const match of ...)] loops over the item declarations. *)
Fixpoint hrefsOf (hrefRe : regex) (basePath : jstring) (matches : list jstring) : list jstring :=
  match matches with
  | [] => []
  | m :: more =>
      match search gi hrefRe m with
      | Some hrefMatch => (basePath ++ group1 hrefMatch) :: hrefsOf hrefRe basePath more
      | None => hrefsOf hrefRe basePath more
      end
  end.

(** The content paths declared in the manifest, and the style sheets it
    declares appended to the document. *)
Definition extractHtmlFilesFromOpf (zip : archive) (opfContent : jstring) (h : head)
  : list jstring * head :=
  let basePath := basePathOf zip in
  let htmlFiles := hrefsOf hrefHtmlRe basePath (matchAll gi itemHtmlRe opfContent) in
  let cssFiles := hrefsOf hrefCssRe basePath (matchAll gi itemCssRe opfContent) in
  (htmlFiles, fold_left (fun h' cssPath => extractCssStyles zip cssPath h') cssFiles h).

Definition isSome {A} (o : option A) : bool :=
  match o with Some _ => true | None => false end.

(** The loop of [extractHtmlFilesDirectly] over the entry names. *)
Fixpoint directLoop (zip : archive) (fileNames : list jstring) (htmlFiles : list jstring) (h : head)
  : list jstring * head :=
  match fileNames with
  | [] => (htmlFiles, h)
  | fileName :: more =>
      let htmlFiles' :=
        if isSome (search gi htmlSuffixRe fileName) && negb (includes (lit "META-INF") fileName)
        then htmlFiles ++ [fileName] else htmlFiles in
      let h' :=
        if isSome (search gi cssSuffixRe fileName) && negb (includes (lit "META-INF") fileName)
        then extractCssStyles zip fileName h else h in
      directLoop zip more htmlFiles' h'
  end.

Definition extractHtmlFilesDirectly (zip : archive) (h : head) : list jstring * head :=
  directLoop zip (keys zip) [] h.

(** *** Assembly *)

(** [for (let i = 0; i < htmlFiles.length; i++)] with [chapters.push]. *)
Fixpoint chapterLoop (zip : archive) (htmlFiles : list jstring) (i : nat)
  (chapters : list Chapter) : list Chapter :=
  match htmlFiles with
  | [] => chapters
  | htmlFile :: more =>
      match createChapterFromHtml zip htmlFile (i + 1) with
      | Some chapter => chapterLoop zip more (S i) (chapters ++ [chapter])
      | None => chapterLoop zip more (S i) chapters
      end
  end.

(** The first part of [extractEpubContent]: the chapters found through the
    container descriptor and the manifest. *)
Definition manifestChapters (zip : archive) (h : head) : list Chapter * head :=
  match truthy (file zip (lit "META-INF/container.xml")) with
  | None => ([], h)
  | Some containerXml =>
      match search gi rootfileRe containerXml with
      | None => ([], h)
      | Some opfMatch =>
          let opfPath := group1 opfMatch in
          match truthy (file zip opfPath) with
          | None => ([], h)
          | Some opfContent =>
              let '(htmlFiles, h1) := extractHtmlFilesFromOpf zip opfContent h in
              (chapterLoop zip htmlFiles 0 [], h1)
          end
      end
  end.

(** The body of [extractEpubContent] once the archive is loaded: the
    chapters of the manifest, or those of the direct scan when there are
    none. *)
Definition extractEpubContentIn (zip : archive) (h : head) : list Chapter * head :=
  let '(chapters, h1) := manifestChapters zip h in
  match chapters with
  | [] =>
      let '(htmlFiles, h2) := extractHtmlFilesDirectly zip h1 in
      (chapterLoop zip htmlFiles 0 chapters, h2)
  | _ :: _ => (chapters, h1)
  end.

(** [extractEpubContent]: [loaded] is the outcome of [zip.loadAsync(buffer)],
    [None] when it rejects; every failure is caught inside and the chapters
    collected so far are returned. *)
Definition extractEpubContent (loaded : option archive) : list Chapter :=
  match loaded with
  | Some zip => fst (extractEpubContentIn zip [])
  | None => []
  end.

(** What [processEpubContent] leaves in the component: the chapters, the
    chapter count notified to the parent and the error shown to the user,
    which is set only when [extractEpubContent] throws. *)
Record outcome : Type :=
  { chapters : list Chapter; totalPages : nat; error : option jstring }.

Definition processEpubContent (loaded : option archive) : outcome :=
  let extractedChapters := extractEpubContent loaded in
  {| chapters := extractedChapters;
     totalPages := length extractedChapters;
     error := None |}.

End Epub.


(** ** The page pipeline ([PdfReader.tsx]) *)

Module Pdf.

#[local] Open Scope Z_scope.

(** A text item of the page reader: [transform[4]] and [transform[5]] are
    the position of the run, in the bottom-up coordinates of the page.
    Coordinates are integers here, for which the arithmetic of the source
    is exact. *)
Record TextItem : Type := { str : jstring; transform : list Z }.

(** [page.view], whose fourth component is the top edge of the page. *)
Record PDFPageProxy : Type := { view : list Z }.

Definition at_ (l : list Z) (i : nat) : Z := nth i l 0.

(** The comparator handed to [items.sort]. *)
Definition compareItems (page : PDFPageProxy) (a b : TextItem) : Z :=
  let yA := at_ (view page) 3 - at_ (transform a) 5 in
  let yB := at_ (view page) 3 - at_ (transform b) 5 in
  if Z.abs (yA - yB) <? 10 then at_ (transform a) 4 - at_ (transform b) 4
  else yB - yA.

(** [Array.prototype.sort] as a stable insertion sort: each element goes in
    front of the first element it compares below.  Where the comparator
    orders the elements consistently, every sort that meets the language
    specification returns this list.  [compareItems] is not such an order
    on every input (three runs 6 units apart in a chain compare by [x],
    by [x] and by [y]); the language then leaves the result to the
    implementation, and this definition gives one of the results it may
    give.  The properties that go through the sort are stated for inputs on
    which the sorted order is forced, the others for the loop behind the
    sort. *)
Section Sort.
Context {A : Type} (compareFn : A -> A -> Z).

Fixpoint insert (x : A) (sorted : list A) : list A :=
  match sorted with
  | [] => [x]
  | y :: sorted' =>
      if compareFn x y <? 0 then x :: y :: sorted'
      else y :: insert x sorted'
  end.

Definition sort (l : list A) : list A :=
  fold_left (fun sorted x => insert x sorted) l [].
End Sort.

(** The variables of the loop over the sorted items. *)
Record lineState : Type := { html : jstring; currentY : Z; currentLine : jstring }.

Definition pdfLine (line : jstring) : jstring :=
  lit "<div class=" ++ [dq] ++ lit "pdf-line" ++ [dq] ++ lit ">" ++ line ++ lit "</div>".

Definition pdfText (text : jstring) : jstring :=
  lit "<span class=" ++ [dq] ++ lit "pdf-text" ++ [dq] ++ lit ">" ++ text ++ lit "</span>".

Definition nonBlank (s : jstring) : bool := (0 <? length (trim s))%nat.

Definition escape (s : jstring) : jstring :=
  replaceAll g (Chr ">") (lit "&gt;") (replaceAll g (Chr "<") (lit "&lt;") s).

(** One turn of the loop over the sorted items. *)
Definition step (page : PDFPageProxy) (st : lineState) (item : TextItem) : lineState :=
  let y := at_ (view page) 3 - at_ (transform item) 5 in
  let st1 :=
    if 10 <? Z.abs (y - currentY st) then
      {| html := if nonBlank (currentLine st) then html st ++ pdfLine (currentLine st)
                 else html st;
         currentY := y;
         currentLine := [] |}
    else st in
  {| html := html st1;
     currentY := currentY st1;
     currentLine := currentLine st1 ++ pdfText (escape (str item)) |}.

Definition sortedItems (page : PDFPageProxy) (items : list TextItem) : list TextItem :=
  sort (compareItems page) items.

Definition convertTextContentToHtml (items : list TextItem) (page : PDFPageProxy) : jstring :=
  let st0 := {| html := lit "<div class=" ++ [dq] ++ lit "pdf-page" ++ [dq] ++ lit ">";
                currentY := -1;
                currentLine := [] |} in
  let st := fold_left (step page) (sortedItems page items) st0 in
  let html1 := if nonBlank (currentLine st) then html st ++ pdfLine (currentLine st)
               else html st in
  html1 ++ lit "</div>".

End Pdf.


(** ** Reading progress ([BookReader.tsx]) *)

Module Progress.

Import QArith Qround Qabs.
#[local] Open Scope Q_scope.

(** The numbers a binary64 float represents exactly. *)
Definition representable (x : Q) : Prop :=
  exists m e : Z,
    (Z.abs m < 2 ^ 53)%Z /\ (-1074 <= e <= 971)%Z /\ x == inject_Z m * 2 ^ e.

(** [Math.round]: the nearest integer, a tie going up. *)
Definition Math_round (x : Q) : Z := Qfloor (x + (1 # 2)).

Record progress : Type :=
  { currentPage : Z; totalPages : Z; percentage : Z }.

(** A record of the bookshelf kept in [localStorage]. *)
Record book : Type := { filePath : jstring; stored : progress }.

Section Arithmetic.

(** The rounding of an exact result to the nearest binary64 float, which
    every arithmetic operation of the source ends with. *)
Variable fl : Q -> Q.

(** [Math.round((currentPage / totalPages) * 100)], for a total other
    than 0: the quotient by 0 is not a number of this model. *)
Definition percent (currentPage totalPages : Z) : Z :=
  Math_round (fl (fl (inject_Z currentPage / inject_Z totalPages) * 100)).

(** The progress record that the save effects build, under their guard
    [totalPages > 0]; [None] when the guard fails and nothing is built. *)
Definition progressOf (currentPage totalPages : Z) : option progress :=
  if (0 <? totalPages)%Z then
    Some {| currentPage := currentPage;
            totalPages := totalPages;
            percentage := percent currentPage totalPages |}
  else None.

(** [saveProgressToStorage]: the record of the open file is replaced. *)
Definition saveProgressToStorage (path : jstring) (p : progress) (books : list book)
  : list book :=
  map (fun b =>
         if list_eq_dec ascii_dec (filePath b) path
         then {| filePath := filePath b; stored := p |}
         else b) books.

(** The save on unmount and before unload. *)
Definition saveOnUnmount (path : jstring) (currentPage totalPages : Z)
  (books : list book) : list book :=
  match progressOf currentPage totalPages with
  | Some p => saveProgressToStorage path p books
  | None => books
  end.

End Arithmetic.

End Progress.


(** Binary64 arithmetic on closed inputs, evaluated with the Standard
    Library's specification of IEEE 754: the integer [n] as a float, and
    [Math.round((currentPage / totalPages) * 100)] with the division and
    the multiplication of floats. *)
Module Binary64.

Import QArith Qround.

Definition ofZ (n : Z) : spec_float := binary_normalize 53 1024 n 0 false.

Definition toQ (x : spec_float) : option Q :=
  match x with
  | S754_zero _ => Some 0%Q
  | S754_finite s m e =>
      Some ((if s then -1 else 1) * inject_Z (Zpos m) * 2 ^ e)%Q
  | _ => None
  end.

Definition percent (currentPage totalPages : Z) : option Z :=
  option_map Progress.Math_round
    (toQ (SFmul 53 1024 (SFdiv 53 1024 (ofZ currentPage) (ofZ totalPages)) (ofZ 100))).

#[local] Open Scope Q_scope.

(** Rounding to the nearest binary64 number, a tie going to the even one,
    for results below the overflow threshold, which the percentages stay
    far away from.  [ilog2 x] is the exponent of the power of two at or
    below a positive [x]; around [x] the binary64 numbers are the
    multiples of two to the [ilog2 x - 52], and of two to the -1074 among
    the subnormal numbers. *)
Definition ilog2 (x : Q) : Z :=
  let k := (Z.log2 (Qnum x) - Z.log2 (Zpos (Qden x)))%Z in
  if Qle_bool (2 ^ k) x then k else (k - 1)%Z.

Definition nearestEven (q : Q) : Z :=
  let f := Qfloor (q + (1 # 2)) in
  if Qeq_bool (inject_Z f) (q + (1 # 2)) && Z.odd f then (f - 1)%Z else f.

Definition roundPos (x : Q) : Q :=
  let e := Z.max (-1074) (ilog2 x - 52) in
  inject_Z (nearestEven (x / 2 ^ e)) * 2 ^ e.

Definition round (x : Q) : Q :=
  if Qle_bool 0 x then roundPos x else - roundPos (- x).

(** The evaluation with [round] and the evaluation with the Standard
    Library's floats give the same percentage. *)
Definition agree (currentPage totalPages : Z) : bool :=
  match percent currentPage totalPages with
  | Some p => Z.eqb p (Progress.percent round currentPage totalPages)
  | None => false
  end.

End Binary64.


(** ** Sample inputs and the reading of the specification's words *)

Import Epub.

(** A double-quoted attribute value. *)
Definition quoted (s : string) : jstring := [dq] ++ lit s ++ [dq].

Module Samples.

#[local] Open Scope Z_scope.

Definition run (x y : Z) (text : string) : Pdf.TextItem :=
  {| Pdf.str := lit text; Pdf.transform := [1; 0; 0; 1; x; y] |}.

Definition page (top : Z) : Pdf.PDFPageProxy := {| Pdf.view := [0; 0; 612; top] |}.

(** The run with the text [text] whose top-down coordinate on a page with
    the top edge [top] is [y]: its position is [top - y]. *)
Definition placed (top x y : Z) (text : string) : Pdf.TextItem :=
  run x (top - y) text.

(** The three runs of the line-grouping property, on a page with the top
    edge [top]. *)

Definition placedA (top : Z) : Pdf.TextItem := placed top 0 100 "A".
Definition placedB (top : Z) : Pdf.TextItem := placed top 20 104 "B".
Definition placedC (top : Z) : Pdf.TextItem := placed top 0 140 "C".

(** The markup of the line-grouping property, line AB then line C, and the
    markup with the two lines exchanged. *)
Definition lineAB : jstring :=
  lit "<div class=" ++ quoted "pdf-line" ++ lit "><span class=" ++ quoted "pdf-text" ++
  lit ">A</span><span class=" ++ quoted "pdf-text" ++ lit ">B</span></div>".

Definition lineC : jstring :=
  lit "<div class=" ++ quoted "pdf-line" ++ lit "><span class=" ++ quoted "pdf-text" ++
  lit ">C</span></div>".

Definition pageABthenC : jstring :=
  lit "<div class=" ++ quoted "pdf-page" ++ lit ">" ++ lineAB ++ lineC ++ lit "</div>".

Definition pageCthenAB : jstring :=
  lit "<div class=" ++ quoted "pdf-page" ++ lit ">" ++ lineC ++ lineAB ++ lit "</div>".

(** A heading 100 units below the top edge of a page 800 units high and a
    paragraph 140 units below it. *)
Definition heading : Pdf.TextItem := run 72 700 "Heading".
Definition paragraph : Pdf.TextItem := run 72 660 "Paragraph".

(** The input of the sanitization property and what is left of it. *)
Definition scriptExample : jstring :=
  lit "<script>evil()</script><p>Hello &amp; World</p>".

Definition helloWorld : jstring := lit "<p>Hello & World</p>".

(** A script block whose angle brackets are written as entities. *)
Definition encodedScript : jstring := lit "&lt;script&gt;alert(1)&lt;/script&gt;".

(** Three content files, the second one blank, and no container. *)
Definition gapArchive : archive :=
  [ (lit "one.html", lit "<p>one</p>");
    (lit "two.html", lit "   ");
    (lit "three.html", lit "<p>three</p>") ].

(** Three content files and a style sheet, and no container. *)
Definition looseArchive : archive :=
  [ (lit "text/part2.xhtml", lit "<html><body><p>second</p></body></html>");
    (lit "style/book.css", lit "p { margin: 0 }");
    (lit "text/part1.xhtml", lit "<html><body><p>first</p></body></html>");
    (lit "text/notes.HTML", lit "<p>notes</p>") ].

(** A content file outside the metadata directory whose name holds the
    text META-INF. *)
Definition metaNamedArchive : archive :=
  [ (lit "notes/META-INF.html", lit "<p>about the container</p>");
    (lit "text/part1.xhtml", lit "<p>first</p>") ].

(** The container descriptor and the item declarations of a manifest. *)
Definition container (opfPath : string) : jstring :=
  lit "<container><rootfiles><rootfile full-path=" ++ quoted opfPath ++
  lit " media-type=" ++ quoted "application/oebps-package+xml" ++
  lit "/></rootfiles></container>".

Definition item (itemId href : string) : jstring :=
  lit "<item id=" ++ quoted itemId ++ lit " href=" ++ quoted href ++ lit "/>".

Definition bookManifest : jstring :=
  lit "<package><manifest>" ++ item "c1" "chap1.xhtml" ++ item "css" "book.css" ++
  item "c2" "chap2.xhtml" ++ lit "</manifest><spine><itemref idref=" ++ quoted "c1" ++
  lit "/></spine></package>".

(** A book whose first chapter is stored after the second. *)
Definition book : archive :=
  [ (lit "mimetype", lit "application/epub+zip");
    (lit "META-INF/container.xml", container "OEBPS/content.opf");
    (lit "OEBPS/chap2.xhtml",
     lit "<html><head><title>Two</title></head><body><h1>Second</h1><p>two</p></body></html>");
    (lit "OEBPS/content.opf", bookManifest);
    (lit "OEBPS/chap1.xhtml", lit "<html><body><h1>First</h1><p>one</p></body></html>");
    (lit "OEBPS/book.css", lit "p { margin: 0 }") ].


(** A book that keeps an older manifest in another directory, stored in
    front of the one the container descriptor names. *)
Definition bookWithBackup : archive :=
  [ (lit "mimetype", lit "application/epub+zip");
    (lit "META-INF/container.xml", container "OEBPS/content.opf");
    (lit "backup/old.opf", lit "<package/>");
    (lit "OEBPS/content.opf", bookManifest);
    (lit "OEBPS/chap1.xhtml", lit "<html><body><h1>First</h1><p>one</p></body></html>");
    (lit "OEBPS/chap2.xhtml", lit "<html><body><h1>Second</h1><p>two</p></body></html>") ].

(** A chapter whose first heading holds only an image. *)
Definition imageHeading : jstring :=
  lit "<h1><img src=" ++ quoted "logo.png" ++ lit "/></h1><h2>Real title</h2><p>text</p>".

(** The bookshelf after a book has been opened: the first run of the save
    effect, with the initial page 1 of 1, has stored 100 percent. *)
Definition shelf : list Progress.book :=
  [ {| Progress.filePath := lit "novel.epub";
       Progress.stored := {| Progress.currentPage := 1;
                             Progress.totalPages := 1;
                             Progress.percentage := 100 |} |} ].

(** Exact arithmetic, a rounding that is monotone and leaves every float
    alone. *)
Definition exact (x : QArith_base.Q) : QArith_base.Q := x.

(** A chapter whose third-level heading comes before its second-level
    heading. *)
Definition headingsOutOfOrder : jstring :=
  lit "<h3>Section</h3><h2>Part</h2><p>text</p>".



End Samples.

(** The top-down coordinate of a run, [pageHeight - run.position.y]. *)
Definition topDownY (page : Pdf.PDFPageProxy) (item : Pdf.TextItem) : Z :=
  (Pdf.at_ (Pdf.view page) 3 - Pdf.at_ (Pdf.transform item) 5)%Z.

(** ** Notions used in the proofs *)

(** The first character a pattern insists on, if any. *)
Fixpoint firstChar (r : regex) : option ascii :=
  match r with
  | Chr c => Some c
  | Seq r1 _ => firstChar r1
  | Group r1 => firstChar r1
  | _ => None
  end.

(** [r] matches at no position of [s], the end included. *)
Definition nowhere (f : flags) (r : regex) (s : jstring) : Prop :=
  forall u v, s = u ++ v -> matchHere f r v = None.

(** Text without markup: no [<] and no [&]. *)
Definition plainText (s : jstring) : Prop :=
  Forall (fun c => c <> "<"%char /\ c <> "&"%char) s.

(** The two halves of [cleanHtmlContent]: the four removals and the six
    replacements of entities. *)
Definition stripTags (s : jstring) : jstring :=
  replaceAll gi (tagRe "link") []
    (replaceAll gi (tagRe "meta") []
    (replaceAll gi (blockRe "style") []
    (replaceAll gi (blockRe "script") [] s))).

Definition decodeEntities (s : jstring) : jstring :=
  replaceAll g (chars "&#39;") (lit "'")
    (replaceAll g (chars "&quot;") [dq]
    (replaceAll g (chars "&gt;") (lit ">")
    (replaceAll g (chars "&lt;") (lit "<")
    (replaceAll g (chars "&amp;") (lit "&")
    (replaceAll g (chars "&nbsp;") (lit " ") s))))).

(** A text that does not start with white space. *)
Definition headNotBlank (s : jstring) : Prop :=
  match s with c :: _ => isWhiteSpace c = false | [] => True end.

(** [Matches f r a t]: the pattern [r] can match the text [a] when the
    text [t] follows it. *)
Inductive Matches (f : flags) : regex -> jstring -> jstring -> Prop :=
| MatchesChr c x t : chrMatches f c x = true -> Matches f (Chr c) [x] t
| MatchesClass (p : ascii -> bool) x t : p x = true -> Matches f (Class p) [x] t
| MatchesSeq r1 r2 a b t :
    Matches f r1 a (b ++ t) -> Matches f r2 b t -> Matches f (Seq r1 r2) (a ++ b) t
| MatchesAltL r1 r2 a t : Matches f r1 a t -> Matches f (Alt r1 r2) a t
| MatchesAltR r1 r2 a t : Matches f r2 a t -> Matches f (Alt r1 r2) a t
| MatchesStar (p : ascii -> bool) a t :
    Forall (fun x => p x = true) a -> Matches f (Star p) a t
| MatchesStarLazy (p : ascii -> bool) a t :
    Forall (fun x => p x = true) a -> Matches f (StarLazy p) a t
| MatchesGroup r a t : Matches f r a t -> Matches f (Group r) a t
| MatchesEnd : Matches f EndAnchor [] [].


(** [chapter-k] *)
Definition chapterId (k : nat) : jstring := lit "chapter-" ++ ofNat k.

(** The ordinals, counted from 1 along [htmlFiles], of the files that yield a chapter. *)
Definition keptOrdinals (zip : archive) (htmlFiles : list jstring) : list nat :=
  filter (fun k => isSome (createChapterFromHtml zip (nth (k - 1) htmlFiles []) k))
         (seq 1 (length htmlFiles)).

(** The claim of the specification: the ids count the chapters from 1. *)
Definition contiguousIds (chapters : list Chapter) : Prop :=
  map id chapters = map chapterId (seq 1 (length chapters)).

(** Names compared without regard to case. *)
Definition upper (s : jstring) : jstring := map canonicalize s.

(** The name ends in [.html] or [.xhtml], in any case. *)
Definition hasContentSuffix (name : jstring) : bool :=
  endsWith (lit ".HTML") (upper name) || endsWith (lit ".XHTML") (upper name).

(** The words of the specification for the direct scan: an entry is left
    out when its path is under the reserved metadata directory. *)
Definition underMetaInf (name : jstring) : bool := startsWith (lit "META-INF/") name.

Definition directScanBySpec (zip : archive) : list jstring :=
  filter (fun name => hasContentSuffix name && negb (underMetaInf name)) (keys zip).

(** What the direct scan collects: the names that hold the text META-INF
    anywhere are left out. *)
Definition directScan (zip : archive) : list jstring :=
  filter (fun name => hasContentSuffix name && negb (includes (lit "META-INF") name)) (keys zip).

(** The pattern does not look at the end of the input. *)
Fixpoint anchorFree (r : regex) : bool :=
  match r with
  | Seq r1 r2 | Alt r1 r2 => anchorFree r1 && anchorFree r2
  | Group r1 => anchorFree r1
  | EndAnchor => false
  | _ => true
  end.

(** The reference of an item declaration, as the inner [match] extracts it. *)
Definition hrefOf (declaration : jstring) : jstring :=
  match search gi hrefHtmlRe declaration with
  | Some hrefMatch => group1 hrefMatch
  | None => []
  end.


(** The claim of the specification: every declared reference is resolved
    against the directory of the manifest that the container names. *)
Definition resolvedBySpec (opfPath : jstring) (declarations : list jstring) : list jstring :=
  map (fun d => dirname opfPath ++ hrefOf d) declarations.

(** [Chapter k] *)
Definition chapterWord (ordinal : nat) : jstring := lit "Chapter " ++ ofNat ordinal.

(** [s.length > 0] *)
Definition notEmpty (s : jstring) : bool := 0 <? length s.

(** The captured text of each title pattern that matches, in the order of
    the patterns. *)
Definition captures (html : jstring) : list jstring :=
  flat_map (fun pattern =>
              match search gi pattern html with
              | Some m => [group1 m]
              | None => []
              end) titlePatterns.

(** The words of the specification: the first match that is not empty after
    title-sanitization, else the synthesized title. *)
Definition titleBySpec (html : jstring) (ordinal : nat) : jstring :=
  match find notEmpty (map cleanTextContent (captures html)) with
  | Some t => t
  | None => chapterWord ordinal
  end.

(** What the source does: the first match that is not blank as captured
    decides, and the synthesized title also stands in when the
    sanitization of that match leaves nothing. *)
Definition titleByCode (html : jstring) (ordinal : nat) : jstring :=
  match find (fun raw => notEmpty (trim raw)) (captures html) with
  | Some raw => if notEmpty (cleanTextContent raw) then cleanTextContent raw
                else chapterWord ordinal
  | None => chapterWord ordinal
  end.

(** The text of the first element [tag] of a document. *)
Definition firstElement (tag : string) (html : jstring) : option jstring :=
  option_map group1 (search gi (elementRe tag) html).

(** The title rule with its order written out: the elements are asked in
    the order [title], [h1], [h2], [h3]; the first one whose text is not
    blank decides, and the synthesized title stands in when its
    sanitization leaves nothing or when no element has a text that is not
    blank. *)
Definition titleByOrder (html : jstring) (ordinal : nat) : jstring :=
  let decided raw :=
    if notEmpty (cleanTextContent raw) then cleanTextContent raw else chapterWord ordinal in
  let asked tag :=
    match firstElement tag html with
    | Some raw => if notEmpty (trim raw) then Some raw else None
    | None => None
    end in
  match asked "title"%string with
  | Some raw => decided raw
  | None =>
      match asked "h1"%string with
      | Some raw => decided raw
      | None =>
          match asked "h2"%string with
          | Some raw => decided raw
          | None =>
              match asked "h3"%string with
              | Some raw => decided raw
              | None => chapterWord ordinal
              end
          end
      end
  end.

(** A closing tag of the element [tag], in any case, starts the text. *)
Definition closesElement (tag : string) (s : jstring) : Prop :=
  exists closing more, s = closing ++ more /\ upper closing = upper (lit ("</" ++ tag ++ ">")).

(** ** The rest of the readers and of the application

    The markup of a page as lines of runs and the navigation of
    [PdfReader.tsx]; the navigation and the screens of [EpubReader.tsx];
    the file names, the bookmarks, the saving of progress and the scroll
    handler of [BookReader.tsx]; the check of the extension of
    [FileImport.tsx]; and the listener for opened files and
    [addBookToBookshelf] of the application component that mounts the
    reader. *)

Module PdfView.

Import Pdf.
#[local] Open Scope Z_scope.

(** The markup that opens the page, and the span of one text item. *)
Definition pageOpen : jstring := lit "<div class=" ++ [dq] ++ lit "pdf-page" ++ [dq] ++ lit ">".

Definition span (item : TextItem) : jstring := pdfText (escape (str item)).

(** The markup of a page whose lines are given. *)
Definition pageOf (lines : list (list TextItem)) : jstring :=
  pageOpen ++ flat_map (fun line => pdfLine (flat_map span line)) lines ++ lit "</div>".


(** The runs of [line] lie within 10 units of the line position [anchor]. *)
Definition lineAnchoredAt (page : PDFPageProxy) (anchor : Z) (line : list TextItem) : Prop :=
  Forall (fun item => Z.abs (topDownY page item - anchor) <= 10) line.

(** Lines that follow a line at position [anchor]: each one is opened by a
    run more than 10 units away from the position of the line before it,
    and takes that run's position. *)
Fixpoint brokenFrom (page : PDFPageProxy) (anchor : Z) (lines : list (list TextItem)) : Prop :=
  match lines with
  | [] => True
  | [] :: _ => False
  | (item :: _) as line :: more =>
      10 < Z.abs (topDownY page item - anchor) /\
      lineAnchoredAt page (topDownY page item) line /\
      brokenFrom page (topDownY page item) more
  end.

(** The part of [convertTextContentToHtml] behind the sort: the loop over
    [sortedItems], the flush of the last line and the closing tag. *)
Definition markupOf (page : PDFPageProxy) (sortedItems : list TextItem) : jstring :=
  let st0 := {| html := lit "<div class=" ++ [dq] ++ lit "pdf-page" ++ [dq] ++ lit ">";
                currentY := -1;
                currentLine := [] |} in
  let st := fold_left (step page) sortedItems st0 in
  let html1 := if nonBlank (currentLine st) then html st ++ pdfLine (currentLine st)
               else html st in
  html1 ++ lit "</div>".

End PdfView.

Module PdfNav.

#[local] Open Scope Z_scope.

(** The state of [PdfReader] that the navigation reads and writes, and the
    calls it makes: the page numbers handed to [renderPage] and to
    [onPageChange], oldest first.  The loaded document is known by its
    number of pages. *)
Record state : Type :=
  { pdfDoc : option Z;
    currentPage : Z;
    totalPages : Z;
    rendered : list Z;
    notified : list Z }.

(** The state of a reader that has just been mounted. *)
Definition initial : state :=
  {| pdfDoc := None; currentPage := 1; totalPages := 0; rendered := []; notified := [] |}.

(** [loadPdf], once the document is there: it shows page 1. *)
Definition loadPdf (numPages : Z) (st : state) : state :=
  {| pdfDoc := Some numPages;
     currentPage := 1;
     totalPages := numPages;
     rendered := rendered st ++ [1];
     notified := notified st |}.

(** The body that the three handlers share: the page is set, the parent is
    told and the page is rendered. *)
Definition show (newPage : Z) (st : state) : state :=
  {| pdfDoc := pdfDoc st;
     currentPage := newPage;
     totalPages := totalPages st;
     rendered := rendered st ++ [newPage];
     notified := notified st ++ [newPage] |}.

Definition nextPage (st : state) : state :=
  match pdfDoc st with
  | Some _ => if currentPage st <? totalPages st then show (currentPage st + 1) st else st
  | None => st
  end.

Definition prevPage (st : state) : state :=
  match pdfDoc st with
  | Some _ => if 1 <? currentPage st then show (currentPage st - 1) st else st
  | None => st
  end.

Definition goToPage (pageNumber : Z) (st : state) : state :=
  match pdfDoc st with
  | Some _ =>
      if (1 <=? pageNumber) && (pageNumber <=? totalPages st) then show pageNumber st else st
  | None => st
  end.

(** The page field: [typed] is [parseInt] of its text, [None] for [NaN],
    which no comparison accepts. *)
Definition pageField (typed : option Z) (st : state) : state :=
  match typed with
  | Some page => if (1 <=? page) && (page <=? totalPages st) then goToPage page st else st
  | None => st
  end.

(** What the user can do with the navigation bar. *)
Inductive action : Type :=
| Next
| Previous
| Field (typed : option Z).

Definition act (st : state) (a : action) : state :=
  match a with
  | Next => nextPage st
  | Previous => prevPage st
  | Field typed => pageField typed st
  end.

End PdfNav.

Module EpubNav.

#[local] Open Scope Z_scope.

(** The chapter shown, counted from 0, and the page numbers handed to
    [onPageChange], oldest first. *)
Record state : Type := { currentChapter : Z; notified : list Z }.

Definition initial : state := {| currentChapter := 0; notified := [] |}.

Definition show (newChapter : Z) (st : state) : state :=
  {| currentChapter := newChapter; notified := notified st ++ [newChapter + 1] |}.

Definition nextChapter (chapters : list Chapter) (st : state) : state :=
  if currentChapter st <? Z.of_nat (length chapters) - 1
  then show (currentChapter st + 1) st else st.

Definition prevChapter (st : state) : state :=
  if 0 <? currentChapter st then show (currentChapter st - 1) st else st.

Inductive action : Type := Next | Previous.

Definition act (chapters : list Chapter) (st : state) (a : action) : state :=
  match a with
  | Next => nextChapter chapters st
  | Previous => prevChapter st
  end.

(** [chapters[i]], which is [undefined] outside the array. *)
Definition at_ (chapters : list Chapter) (i : Z) : option Chapter :=
  if i <? 0 then None else nth_error chapters (Z.to_nat i).

(** What the component renders. *)
Inductive screen : Type :=
| ErrorScreen (message : jstring)
| LoadingScreen
| NoContentScreen
| ReaderScreen (shown : Z) (outOf : nat) (markup : jstring).

Definition placeholder : jstring := lit "<p>No content available</p>".

Definition render (error : option jstring) (isLoading : bool) (chapters : list Chapter)
  (st : state) : screen :=
  match error with
  | Some message => ErrorScreen message
  | None =>
      if isLoading then LoadingScreen
      else match chapters with
           | [] => NoContentScreen
           | _ :: _ =>
               ReaderScreen (currentChapter st + 1) (length chapters)
                 (match truthy (option_map content (at_ chapters (currentChapter st))) with
                  | Some markup => markup
                  | None => placeholder
                  end)
           end
  end.

(** The component once [processEpubContent] has run and the user has
    clicked through [actions]. *)
Definition view (loaded : option archive) (actions : list action) : screen :=
  let o := processEpubContent loaded in
  render (Epub.error o) false (Epub.chapters o)
    (fold_left (act (Epub.chapters o)) actions initial).

End EpubNav.

Module Files.

(** [String.prototype.toLowerCase] on code units below 256: the letters A
    to Z and the capital letters of Latin-1 (U+00C0 to U+00DE without the
    multiplication sign U+00D7) move 32 places up. *)
Definition toLower (c : ascii) : ascii :=
  let n := code c in
  if ((65 <=? n) && (n <=? 90)) || ((192 <=? n) && (n <=? 222) && negb (n =? 215))
  then ascii_of_nat (n + 32) else c.

Definition toLowerCase (s : jstring) : jstring := map toLower s.

(** The class of the pattern that [split] is given for paths: a backslash
    or a slash. *)
Definition backslash : ascii := "092"%char.

Definition isSeparator (c : ascii) : bool := Ascii.eqb c backslash || Ascii.eqb c "/".

(** [s.split(r)] for a pattern [r] that matches one character of a class. *)
Fixpoint splitAt (p : ascii -> bool) (s : jstring) : list jstring :=
  match s with
  | [] => [[]]
  | c :: s' =>
      if p c then [] :: splitAt p s'
      else match splitAt p s' with
           | l :: ls => (c :: l) :: ls
           | [] => [[c]]
           end
  end.

(** [a.pop()]: the last element, [undefined] for an empty array. *)
Fixpoint pop {A} (l : list A) : option A :=
  match l with
  | [] => None
  | [x] => Some x
  | _ :: l' => pop l'
  end.

(** [getFileName] of [BookReader.tsx]. *)
Definition getFileName (path : jstring) : jstring :=
  match truthy (pop (splitAt isSeparator path)) with
  | Some name => name
  | None => lit "Unknown File"
  end.

(** [filePath.toLowerCase().split('.').pop()] *)
Definition fileExtension (filePath : jstring) : option jstring :=
  pop (JS.split "." (toLowerCase filePath)).

Inductive fileType : Type := epub | pdf.

(** The extension as a file type, where it is one of the two. *)
Definition asFileType (extension : jstring) : option fileType :=
  if list_eq_dec ascii_dec extension (lit "epub") then Some epub
  else if list_eq_dec ascii_dec extension (lit "pdf") then Some pdf
  else None.

(** The listener that the application registers with [onFileOpened]: the
    book it opens, if it opens one. *)
Definition onFileOpened (filePath : jstring) : option (jstring * fileType) :=
  match fileExtension filePath with
  | Some extension =>
      match asFileType extension with
      | Some type => Some (filePath, type)
      | None => None
      end
  | None => None
  end.

(** What [openFileDialog] comes back with: a rejection, or a path, or
    [null] when the user has cancelled. *)
Inductive dialog : Type :=
| Rejected
| Resolved (filePath : option jstring).

(** What [handleFileImport] does with it. *)
Inductive imported : Type :=
| Cancelled
| Failed (message : jstring)
| Selected (filePath : jstring) (type : fileType).

Definition handleFileImport (d : dialog) : imported :=
  match d with
  | Rejected => Failed (lit "Failed to import file. Please try again.")
  | Resolved answer =>
      match truthy answer with
      | None => Cancelled
      | Some filePath =>
          match truthy (fileExtension filePath) with
          | None => Failed (lit "Please select a valid EPUB or PDF file.")
          | Some extension =>
              match asFileType extension with
              | Some type => Selected filePath type
              | None => Failed (lit "Please select a valid EPUB or PDF file.")
              end
          end
      end
  end.

(** [s.replace(r, by)] without the [g] flag, for a replacement text without
    [$] patterns: the leftmost match is replaced. *)
Fixpoint replaceFirst (f : flags) (r : regex) (by_ s : jstring) : jstring :=
  match matchHere f r s with
  | Some m => by_ ++ rest m
  | None =>
      match s with
      | [] => []
      | c :: s' => c :: replaceFirst f r by_ s'
      end
  end.

(** The pattern of [addBookToBookshelf] for the extension, flag [i]: a dot,
    [pdf] or [epub], and the end of the name. *)
Definition extensionRe : regex :=
  Chr "." ;; Group (chars "pdf" <|> chars "epub") ;; EndAnchor.

(** The name and the title that [addBookToBookshelf] derives from a path. *)
Definition fileNameOf (filePath : jstring) : jstring :=
  match truthy (pop (splitAt isSeparator filePath)) with
  | Some name => name
  | None => lit "Unknown Book"
  end.

Definition titleOf (filePath : jstring) : jstring :=
  replaceFirst gi extensionRe [] (fileNameOf filePath).

End Files.

(** The name ends in [.pdf] or [.epub], in any case. *)
Definition hasBookSuffix (name : jstring) : bool :=
  endsWith (lit ".PDF") (upper name) || endsWith (lit ".EPUB") (upper name).

Module Shelf.

Import Files.

(** An instant, as the number of milliseconds that [Date.now()] returns.
    Storage keeps a date as the text of [toISOString], which stands for the
    instant; the clock readings of one call are taken as one instant. *)
Definition instant : Type := nat.

Record Bookmark : Type :=
  { markId : jstring;
    page : Z;
    markTitle : jstring;
    description : option jstring;
    createdAt : instant }.

(** A book of the shelf.  [author] and [bookmarks] may be missing. *)
Record Book : Type :=
  { id : jstring;
    title : jstring;
    author : option jstring;
    filePath : jstring;
    type : fileType;
    lastOpened : instant;
    bookmarks : option (list Bookmark);
    progress : Progress.progress;
    addedDate : instant }.

(** The item [bookshelf_books] of [localStorage]: missing or empty, a text
    on which [JSON.parse] or the traversal of the books throws, or the
    JSON text of a list of books. *)
Inductive storage : Type :=
| Absent
| Unreadable
| Books (books : list Book).

(** [a === b] on strings. *)
Definition sameText (a b : jstring) : bool :=
  if list_eq_dec ascii_dec a b then true else false.

(** [addBookToBookshelf] of the application: the storage it leaves, and
    whether it has asked the shelf to reload. *)
Definition addBookToBookshelf (now : instant) (path : jstring) (fileType : fileType)
  (saved : storage) : storage * bool :=
  match saved with
  | Unreadable => (Unreadable, false)
  | _ =>
      let books := match saved with Books books => books | _ => [] end in
      match find (fun book => sameText (filePath book) path) books with
      | Some existingBook => (saved, false)
      | None =>
          let newBook :=
            {| id := ofNat now;
               title := titleOf path;
               author := None;
               filePath := path;
               type := fileType;
               lastOpened := now;
               bookmarks := Some [];
               progress := {| Progress.currentPage := 1;
                              Progress.totalPages := 1;
                              Progress.percentage := 0 |};
               addedDate := now |} in
          (Books (newBook :: books), true)
      end
  end.

(** [saveProgressToStorage] of the reader, with every field of a book. *)
Definition saveProgressToStorage (now : instant) (path : jstring) (p : Progress.progress)
  (saved : storage) : storage :=
  match saved with
  | Books books =>
      Books (map (fun book =>
                    if sameText (filePath book) path then
                      {| id := id book; title := title book; author := author book;
                         filePath := filePath book; type := type book;
                         lastOpened := now;
                         bookmarks := bookmarks book;
                         progress := p;
                         addedDate := addedDate book |}
                    else book) books)
  | _ => saved
  end.

(** What the bookmark form hands over: the page, the title and the
    description, if there is one. *)
Record draft : Type :=
  { draftPage : Z; draftTitle : jstring; draftDescription : option jstring }.

Definition addBookmarkToStorage (now : instant) (path : jstring) (bookmark : draft)
  (saved : storage) : storage :=
  match saved with
  | Books books =>
      Books (map (fun book =>
                    if sameText (filePath book) path then
                      let newBookmark :=
                        {| markId := ofNat now;
                           page := draftPage bookmark;
                           markTitle := draftTitle bookmark;
                           description := draftDescription bookmark;
                           createdAt := now |} in
                      {| id := id book; title := title book; author := author book;
                         filePath := filePath book; type := type book;
                         lastOpened := lastOpened book;
                         bookmarks :=
                           Some (match bookmarks book with Some l => l | None => [] end
                                 ++ [newBookmark]);
                         progress := progress book;
                         addedDate := addedDate book |}
                    else book) books)
  | _ => saved
  end.

(** [book'] is [book] with the bookmark [added] behind its bookmarks, if
    it is a book of the file [path], and [book] itself otherwise. *)
Definition gainsBookmark (path : jstring) (added : Bookmark) (book book' : Book) : Prop :=
  if sameText (filePath book) path then
    bookmarks book'
    = Some (match bookmarks book with Some l => l | None => [] end ++ [added]) /\
    (id book', title book', author book', filePath book', type book',
     lastOpened book', progress book', addedDate book')
    = (id book, title book, author book, filePath book, type book,
       lastOpened book, progress book, addedDate book)
  else book' = book.

(** The bookmark form of the reader. *)
Record form : Type :=
  { bookmarkTitle : jstring; bookmarkDescription : jstring; showBookmarkModal : bool }.

(** [handleAddBookmark]: the form and the storage it leaves, and the
    bookmark that [onBookmarkAdd] is told of. *)
Definition handleAddBookmark (now : instant) (path : jstring) (currentPage : Z)
  (fm : form) (saved : storage) : form * storage * option draft :=
  match trim (bookmarkTitle fm) with
  | [] => (fm, saved, None)
  | _ :: _ =>
      let bookmark :=
        {| draftPage := currentPage;
           draftTitle := trim (bookmarkTitle fm);
           draftDescription := truthy (Some (trim (bookmarkDescription fm))) |} in
      ({| bookmarkTitle := []; bookmarkDescription := []; showBookmarkModal := false |},
       addBookmarkToStorage now path bookmark saved,
       Some bookmark)
  end.

(** The page state of the reader and its switch for saving. *)
Record reader : Type :=
  { currentPage : Z; totalPages : Z; autoSaveEnabled : bool }.

(** The state a reader is mounted with. *)
Definition mounted : reader :=
  {| currentPage := 1; totalPages := 1; autoSaveEnabled := true |}.

Section Arithmetic.

Variable fl : QArith_base.Q -> QArith_base.Q.

(** The body of the effect that saves the progress when the page changes:
    the storage it leaves, and the progress it hands to
    [onProgressUpdate]; [listening] tells whether the parent has given that
    callback. *)
Definition autoSave (listening : bool) (now : instant) (path : jstring) (r : reader)
  (saved : storage) : storage * option Progress.progress :=
  if listening && (0 <? totalPages r)%Z && autoSaveEnabled r then
    let p := {| Progress.currentPage := currentPage r;
                Progress.totalPages := totalPages r;
                Progress.percentage := Progress.percent fl (currentPage r) (totalPages r) |} in
    (saveProgressToStorage now path p saved, Some p)
  else (saved, None).

End Arithmetic.

(** The part of a book that the first model of the shelf keeps. *)
Definition brief (book : Book) : Progress.book :=
  {| Progress.filePath := filePath book; Progress.stored := progress book |}.

(** A book without its progress and the date it was last opened. *)
Definition frame (book : Book)
  : jstring * jstring * option jstring * jstring * fileType * option (list Bookmark) * instant :=
  (id book, title book, author book, filePath book, type book, bookmarks book, addedDate book).

(** [book'] is [book] with the progress [p] and the date [now] of its last
    opening, if it is a book of the file [path], and [book] itself
    otherwise. *)
Definition gainsProgress (now : instant) (path : jstring) (p : Progress.progress)
  (book book' : Book) : Prop :=
  if sameText (filePath book) path then
    progress book' = p /\ lastOpened book' = now /\
    (id book', title book', author book', filePath book', type book',
     bookmarks book', addedDate book')
    = (id book, title book, author book, filePath book, type book,
       bookmarks book, addedDate book)
  else book' = book.

End Shelf.

Module Scroll.

#[local] Open Scope Z_scope.

(** The state that [handleScroll] of the reader reads and writes. *)
Record bar : Type := { isNavigationVisible : bool; lastScrollTop : Z }.

(** The state a reader is mounted with. *)
Definition initial : bar := {| isNavigationVisible := true; lastScrollTop := 0 |}.

(** [handleScroll] for a scroll event at the offset [scrollTop]. *)
Definition handleScroll (b : bar) (scrollTop : Z) : bar :=
  let scrollDelta := scrollTop - lastScrollTop b in
  {| isNavigationVisible :=
       if (10 <? scrollDelta) && (100 <? scrollTop) then false
       else if scrollDelta <? -10 then true
       else isNavigationVisible b;
     lastScrollTop := scrollTop |}.

(** Successive offsets that are at most 10 units apart, starting from
    the offset [from]. *)
Fixpoint slow (from : Z) (offsets : list Z) : Prop :=
  match offsets with
  | [] => True
  | scrollTop :: more => Z.abs (scrollTop - from) <= 10 /\ slow scrollTop more
  end.

End Scroll.

(** *** Notions used in the proofs that follow *)

(** The angle brackets of a text, in order. *)
Definition isAngle (c : ascii) : bool := Ascii.eqb c "<" || Ascii.eqb c ">".

Definition angles (s : jstring) : jstring := filter isAngle s.

(** No [<] of the text is followed, anywhere behind it, by a [>]. *)
Definition noTagIn (s : jstring) : Prop :=
  forall a c, s = a ++ "<"%char :: c -> ~ In ">"%char c.

(** The pattern has no capture group. *)
Fixpoint groupFree (r : regex) : bool :=
  match r with
  | Seq r1 r2 | Alt r1 r2 => groupFree r1 && groupFree r2
  | Group _ => false
  | _ => true
  end.


(** The style sheet that [extractCssStyles] appends for a path: the text of
    the entry, if there is one and it is not empty. *)
Definition sheetOf (zip : archive) (cssPath : jstring) : list jstring :=
  match truthy (file zip cssPath) with
  | Some cssContent => [cssContent]
  | None => []
  end.

(** The name ends in [.css], in any case. *)
Definition hasStyleSuffix (name : jstring) : bool := endsWith (lit ".CSS") (upper name).

(** ** Documents as the sanitizer reads them *)

Module Markup.






















End Markup.

(** Further sample inputs. *)
Module Cases.

Import Markup Files Shelf.


(** A shelf of two books, the first one read up to page 5 of 10. *)
Definition novel : Book :=
  {| id := lit "1"; title := lit "novel"; author := None;
     filePath := lit "novel.epub"; type := epub; lastOpened := 3;
     bookmarks := Some [];
     progress := {| Progress.currentPage := 5; Progress.totalPages := 10;
                    Progress.percentage := 50 |};
     addedDate := 1 |}.

Definition manual : Book :=
  {| id := lit "2"; title := lit "manual"; author := None;
     filePath := lit "manual.pdf"; type := pdf; lastOpened := 4;
     bookmarks := None;
     progress := {| Progress.currentPage := 2; Progress.totalPages := 8;
                    Progress.percentage := 25 |};
     addedDate := 2 |}.

Definition library : list Book := [novel; manual].

End Cases.

(** ** The page pipeline: reading order *)

Section PageOrder.

#[local] Open Scope Z_scope.
Import Pdf.

(** The comparator looks at the raw positions only: the flip by the page
    height cancels out. *)
Lemma compareItems_positions (page : PDFPageProxy) (a b : TextItem) :
  compareItems page a b =
  if Z.abs (at_ (transform a) 5 - at_ (transform b) 5) <? 10
  then at_ (transform a) 4 - at_ (transform b) 4
  else at_ (transform a) 5 - at_ (transform b) 5.
Proof.
  unfold compareItems.
  set (h := at_ (view page) 3).
  set (ya := at_ (transform a) 5). set (yb := at_ (transform b) 5).
  replace (h - ya - (h - yb)) with (- (ya - yb)) by lia.
  rewrite Z.abs_opp.
  destruct (Z.abs (ya - yb) <? 10); [reflexivity | lia].
Qed.

Lemma compareItems_topDown (page : PDFPageProxy) (a b : TextItem) :
  compareItems page a b =
  if Z.abs (topDownY page a - topDownY page b) <? 10
  then at_ (transform a) 4 - at_ (transform b) 4
  else topDownY page b - topDownY page a.
Proof. reflexivity. Qed.

(** C2. Each run's top-down coordinate is the page height minus the run's
    position, runs closer than 10 units are ordered by ascending x, but two
    runs at least 10 units apart come out of the sort with the LOWER one
    (the larger top-down coordinate) first, whatever their order on input:
    the sort is descending in the top-down coordinate, not ascending. *)
Theorem sort_puts_lower_run_first (page : PDFPageProxy) (upper lower : TextItem) :
  topDownY page upper + 10 <= topDownY page lower ->
  topDownY page upper = at_ (view page) 3 - at_ (transform upper) 5 /\
  sortedItems page [upper; lower] = [lower; upper] /\
  sortedItems page [lower; upper] = [lower; upper].
Proof.
  intros Hfar. split; [reflexivity|].
  unfold sortedItems, sort. cbn [fold_left insert].
  rewrite !compareItems_topDown.
  assert (H1 : (Z.abs (topDownY page lower - topDownY page upper) <? 10) = false)
    by (apply Z.ltb_ge; lia).
  assert (H2 : (Z.abs (topDownY page upper - topDownY page lower) <? 10) = false)
    by (apply Z.ltb_ge; lia).
  rewrite H1, H2.
  assert (H3 : (topDownY page upper - topDownY page lower <? 0) = true)
    by (apply Z.ltb_lt; lia).
  assert (H4 : (topDownY page lower - topDownY page upper <? 0) = false)
    by (apply Z.ltb_ge; lia).
  rewrite H3, H4. split; reflexivity.
Qed.

Lemma sort_puts_lower_run_first_witness :
  sortedItems (Samples.page 800) [Samples.heading; Samples.paragraph]
  = [Samples.paragraph; Samples.heading].
Proof.
  apply (sort_puts_lower_run_first (Samples.page 800) Samples.heading Samples.paragraph).
  vm_compute. discriminate.
Defined.

(** Runs on one line (closer than 10 units) are ordered by ascending x. *)
Lemma sort_same_line_by_x (page : PDFPageProxy) (a b : TextItem) :
  Z.abs (topDownY page a - topDownY page b) < 10 ->
  at_ (transform a) 4 < at_ (transform b) 4 ->
  sortedItems page [a; b] = [a; b] /\ sortedItems page [b; a] = [a; b].
Proof.
  intros Hnear Hx.
  unfold sortedItems, sort. cbn [fold_left insert].
  rewrite !compareItems_topDown.
  assert (H1 : (Z.abs (topDownY page a - topDownY page b) <? 10) = true)
    by (apply Z.ltb_lt; lia).
  assert (H2 : (Z.abs (topDownY page b - topDownY page a) <? 10) = true)
    by (apply Z.ltb_lt; lia).
  rewrite H1, H2.
  assert (H3 : (at_ (transform a) 4 - at_ (transform b) 4 <? 0) = true)
    by (apply Z.ltb_lt; lia).
  assert (H4 : (at_ (transform b) 4 - at_ (transform a) 4 <? 0) = false)
    by (apply Z.ltb_ge; lia).
  rewrite H3, H4. split; reflexivity.
Qed.

Lemma permutations_of_three {A} (a b c : A) (l : list A) :
  Permutation [a; b; c] l ->
  l = [a; b; c] \/ l = [a; c; b] \/ l = [b; a; c] \/
  l = [b; c; a] \/ l = [c; a; b] \/ l = [c; b; a].
Proof.
  intros HP.
  destruct (Permutation_vs_cons_inv (Permutation_sym HP)) as (l1 & l2 & ->).
  apply Permutation_cons_app_inv in HP.
  apply Permutation_length_2_inv in HP.
  destruct l1 as [|x [|y [|z l1]]]; cbn in HP; destruct HP as [HP|HP];
    inversion HP; subst; cbn; auto 7.
Qed.

Lemma step_new_line (page : PDFPageProxy) (st : lineState) (item : TextItem) :
  10 < Z.abs (topDownY page item - currentY st) ->
  step page st item =
  {| html := if nonBlank (currentLine st) then html st ++ pdfLine (currentLine st)
             else html st;
     currentY := topDownY page item;
     currentLine := pdfText (escape (str item)) |}.
Proof.
  intros H. apply Z.ltb_lt in H. unfold step. fold (topDownY page item).
  rewrite H. reflexivity.
Qed.

Lemma step_same_line (page : PDFPageProxy) (st : lineState) (item : TextItem) :
  Z.abs (topDownY page item - currentY st) <= 10 ->
  step page st item =
  {| html := html st;
     currentY := currentY st;
     currentLine := currentLine st ++ pdfText (escape (str item)) |}.
Proof.
  intros H. apply Z.ltb_ge in H. unfold step. fold (topDownY page item).
  rewrite H. reflexivity.
Qed.

Lemma topDownY_placed (top x y : Z) (text : string) :
  topDownY (Samples.page top) (Samples.placed top x y text) = y.
Proof.
  unfold topDownY, Samples.placed, Samples.run, Samples.page, at_.
  cbn [view transform nth]. lia.
Qed.

Lemma compare_placed (top xa ya xb yb : Z) (ta tb : string) :
  compareItems (Samples.page top) (Samples.placed top xa ya ta) (Samples.placed top xb yb tb)
  = if Z.abs (ya - yb) <? 10 then xa - xb else yb - ya.
Proof.
  rewrite compareItems_topDown, !topDownY_placed. reflexivity.
Qed.

Lemma placed_runs_compared (top : Z) :
  let below a b := compareItems (Samples.page top) a b <? 0 in
  below (Samples.placedA top) (Samples.placedB top) = true /\
  below (Samples.placedB top) (Samples.placedA top) = false /\
  below (Samples.placedA top) (Samples.placedC top) = false /\
  below (Samples.placedC top) (Samples.placedA top) = true /\
  below (Samples.placedB top) (Samples.placedC top) = false /\
  below (Samples.placedC top) (Samples.placedB top) = true.
Proof.
  cbv zeta. unfold Samples.placedA, Samples.placedB, Samples.placedC. rewrite !compare_placed.
  repeat split; reflexivity.
Qed.

Lemma placed_runs_sorted (top : Z) (items : list TextItem) :
  Permutation [Samples.placedA top; Samples.placedB top; Samples.placedC top] items ->
  sortedItems (Samples.page top) items
  = [Samples.placedC top; Samples.placedA top; Samples.placedB top].
Proof.
  intros HP. apply permutations_of_three in HP.
  destruct (placed_runs_compared top) as (AB & BA & AC & CA & BC & CB).
  unfold sortedItems, sort.
  destruct HP as [->|[->|[->|[->|[->| ->]]]]]; cbn [fold_left insert];
    rewrite ?AB, ?BA, ?AC, ?CA, ?BC, ?CB; cbn [insert];
    rewrite ?AB, ?BA, ?AC, ?CA, ?BC, ?CB; reflexivity.
Qed.

(** Any arrangement of the three runs that the comparator accepts as sorted
    is this one: the outcome does not depend on the sorting method. *)
Lemma placed_runs_order_is_forced (top : Z) (sorted : list TextItem) :
  Permutation [Samples.placedA top; Samples.placedB top; Samples.placedC top] sorted ->
  StronglySorted (fun a b => compareItems (Samples.page top) a b <= 0) sorted ->
  sorted = [Samples.placedC top; Samples.placedA top; Samples.placedB top].
Proof.
  intros HP HS. apply permutations_of_three in HP.
  destruct (placed_runs_compared top) as (AB & BA & AC & CA & BC & CB).
  apply Z.ltb_ge in BA, AC, BC.
  assert (BA' : compareItems (Samples.page top) (Samples.placedB top) (Samples.placedA top) <> 0)
    by (unfold Samples.placedA, Samples.placedB; rewrite compare_placed; discriminate).
  assert (AC' : compareItems (Samples.page top) (Samples.placedA top) (Samples.placedC top) <> 0)
    by (unfold Samples.placedA, Samples.placedC; rewrite compare_placed; discriminate).
  assert (BC' : compareItems (Samples.page top) (Samples.placedB top) (Samples.placedC top) <> 0)
    by (unfold Samples.placedB, Samples.placedC; rewrite compare_placed; discriminate).
  destruct HP as [->|[->|[->|[->|[->| ->]]]]]; try reflexivity; exfalso;
    repeat match goal with
    | H : StronglySorted _ (_ :: _) |- _ => inversion H; subst; clear H
    | H : Forall _ (_ :: _) |- _ => inversion H; subst; clear H
    end; lia.
Qed.

Lemma placed_runs_markup (top : Z) :
  (let st0 := {| html := lit "<div class=" ++ [dq] ++ lit "pdf-page" ++ [dq] ++ lit ">";
                 currentY := -1;
                 currentLine := [] |} in
   let st := fold_left (step (Samples.page top))
               [Samples.placedC top; Samples.placedA top; Samples.placedB top] st0 in
   let html1 := if nonBlank (currentLine st) then html st ++ pdfLine (currentLine st)
                else html st in
   html1 ++ lit "</div>") = Samples.pageCthenAB.
Proof.
  cbv zeta. cbn [fold_left].
  rewrite (step_new_line _ _ (Samples.placedC top))
    by (unfold Samples.placedC; rewrite topDownY_placed; cbn [currentY]; lia).
  rewrite (step_new_line _ _ (Samples.placedA top)).
  2:{ unfold Samples.placedA, Samples.placedC. rewrite !topDownY_placed. cbn [currentY]. lia. }
  rewrite (step_same_line _ _ (Samples.placedB top)).
  2:{ unfold Samples.placedB, Samples.placedA. rewrite !topDownY_placed. cbn [currentY]. lia. }
  cbn [html currentLine currentY].
  unfold Samples.placedA, Samples.placedB, Samples.placedC, Samples.placed, Samples.run. cbn [str].
  vm_compute. reflexivity.
Qed.

(** C7. On a page with the top edge [top], the runs A, B and C whose
    top-down coordinates are 100, 104 and 140 (A and B at [x] 0 and 20),
    given in any order, are sorted as C, A, B, by this and by every sort
    that the comparator accepts, and come out as two lines of which the
    first holds C and the second holds A then B: the line of the lowest
    run comes first, not the line AB of the line-grouping property. *)
Theorem three_runs_come_out_lowest_line_first (top : Z) (items : list TextItem) :
  Permutation [Samples.placedA top; Samples.placedB top; Samples.placedC top] items ->
  map (topDownY (Samples.page top))
      [Samples.placedA top; Samples.placedB top; Samples.placedC top]
  = [100; 104; 140] /\
  (forall sorted,
     Permutation items sorted ->
     StronglySorted (fun a b => compareItems (Samples.page top) a b <= 0) sorted ->
     sorted = [Samples.placedC top; Samples.placedA top; Samples.placedB top]) /\
  convertTextContentToHtml items (Samples.page top) = Samples.pageCthenAB /\
  convertTextContentToHtml items (Samples.page top) <> Samples.pageABthenC.
Proof.
  intros HP.
  assert (M : convertTextContentToHtml items (Samples.page top) = Samples.pageCthenAB).
  { unfold convertTextContentToHtml. rewrite (placed_runs_sorted top items HP).
    apply placed_runs_markup. }
  split; [|split; [|split]].
  - unfold Samples.placedA, Samples.placedB, Samples.placedC. cbn [map].
    rewrite !topDownY_placed. reflexivity.
  - intros sorted P S. apply placed_runs_order_is_forced; [|exact S].
    apply (Permutation_trans HP P).
  - exact M.
  - rewrite M. vm_compute. discriminate.
Qed.

Lemma three_runs_come_out_lowest_line_first_witness :
  map (topDownY (Samples.page 800))
      [Samples.placedA 800; Samples.placedB 800; Samples.placedC 800]
  = [100; 104; 140] /\
  (forall sorted,
     Permutation [Samples.placedA 800; Samples.placedB 800; Samples.placedC 800] sorted ->
     StronglySorted (fun a b => compareItems (Samples.page 800) a b <= 0) sorted ->
     sorted = [Samples.placedC 800; Samples.placedA 800; Samples.placedB 800]) /\
  convertTextContentToHtml [Samples.placedA 800; Samples.placedB 800; Samples.placedC 800]
    (Samples.page 800)
  = Samples.pageCthenAB /\
  convertTextContentToHtml [Samples.placedA 800; Samples.placedB 800; Samples.placedC 800]
    (Samples.page 800)
  <> Samples.pageABthenC.
Proof.
  apply (three_runs_come_out_lowest_line_first 800
           [Samples.placedA 800; Samples.placedB 800; Samples.placedC 800]).
  apply Permutation_refl.
Defined.

End PageOrder.

(** ** Rounding to binary64 *)

Section RoundingFacts.

Import QArith Qround Qabs Qpower Lqa.
Import Binary64.
#[local] Open Scope Q_scope.

Lemma two_pos (e : Z) : 0 < 2 ^ e.
Proof. apply Qpower_0_lt. reflexivity. Qed.

Lemma two_plus (a b : Z) : 2 ^ (a + b) == 2 ^ a * 2 ^ b.
Proof. apply Qpower_plus. discriminate. Qed.

Lemma two_le (a b : Z) : (a <= b)%Z -> 2 ^ a <= 2 ^ b.
Proof. intros H. apply Qpower_le_compat_l; [exact H | discriminate]. Qed.

Lemma two_lt_inv (a b : Z) : 2 ^ a < 2 ^ b -> (a < b)%Z.
Proof. intros H. apply (Qpower_lt_compat_l_inv 2); [exact H | reflexivity]. Qed.

Lemma two_Z (n : Z) : (0 <= n)%Z -> inject_Z (2 ^ n) == 2 ^ n.
Proof. intros H. apply (Zpower_Qpower 2 n H). Qed.

Lemma Qfloor_unique (x : Q) (f : Z) :
  inject_Z f <= x -> x < inject_Z (f + 1) -> Qfloor x = f.
Proof.
  intros Lo Hi.
  assert (A : (f <= Qfloor x)%Z).
  { rewrite <- (Qfloor_Z f). apply Qfloor_resp_le, Lo. }
  assert (B : (Qfloor x < f + 1)%Z).
  { rewrite Zlt_Qlt. apply Qle_lt_trans with x; [apply Qfloor_le | exact Hi]. }
  lia.
Qed.

Lemma nearestEven_comp (q q' : Q) : q == q' -> nearestEven q = nearestEven q'.
Proof.
  intros E. unfold nearestEven.
  assert (F : Qfloor (q + (1 # 2)) = Qfloor (q' + (1 # 2))) by (rewrite E; reflexivity).
  rewrite F.
  assert (T : Qeq_bool (inject_Z (Qfloor (q' + (1 # 2)))) (q + (1 # 2))
              = Qeq_bool (inject_Z (Qfloor (q' + (1 # 2)))) (q' + (1 # 2))).
  { apply eq_true_iff_eq. rewrite !Qeq_bool_iff, E. reflexivity. }
  rewrite T. reflexivity.
Qed.

Lemma nearestEven_Z (n : Z) : nearestEven (inject_Z n) = n.
Proof.
  unfold nearestEven.
  assert (F : Qfloor (inject_Z n + (1 # 2)) = n).
  { apply Qfloor_unique; [lra | rewrite inject_Z_plus; change (inject_Z 1) with 1; lra]. }
  rewrite F.
  assert (T : Qeq_bool (inject_Z n) (inject_Z n + (1 # 2)) = false).
  { apply not_true_is_false. intros H. apply Qeq_bool_iff in H. lra. }
  rewrite T. reflexivity.
Qed.

Lemma nearestEven_bounds (q : Q) :
  (Qfloor (q + (1 # 2)) - 1 <= nearestEven q <= Qfloor (q + (1 # 2)))%Z.
Proof. unfold nearestEven. destruct (_ && _); lia. Qed.

Lemma nearestEven_monotone (q q' : Q) : q <= q' -> (nearestEven q <= nearestEven q')%Z.
Proof.
  intros H.
  assert (F : (Qfloor (q + (1 # 2)) <= Qfloor (q' + (1 # 2)))%Z)
    by (apply Qfloor_resp_le; lra).
  pose proof (nearestEven_bounds q) as B. pose proof (nearestEven_bounds q') as B'.
  destruct (Z.eq_dec (Qfloor (q + (1 # 2))) (Qfloor (q' + (1 # 2)))) as [E|N]; [|lia].
  unfold nearestEven in *. rewrite <- E in *.
  set (f := Qfloor (q + (1 # 2))) in *.
  destruct (Qeq_bool (inject_Z f) (q' + (1 # 2))) eqn:T'; cbn [andb]; [|destruct (_ && _); lia].
  apply Qeq_bool_iff in T'.
  assert (T : Qeq_bool (inject_Z f) (q + (1 # 2)) = true).
  { apply Qeq_bool_iff. pose proof (Qfloor_le (q + (1 # 2))) as L. fold f in L. lra. }
  rewrite T. cbn [andb]. lia.
Qed.

(** Rounding on the grid of the multiples of [2 ^ e]. *)
Lemma grid_below (e n : Z) (x : Q) :
  x <= inject_Z n * 2 ^ e -> inject_Z (nearestEven (x / 2 ^ e)) * 2 ^ e <= inject_Z n * 2 ^ e.
Proof.
  intros H. pose proof (two_pos e) as P.
  apply Qmult_le_compat_r; [|lra].
  rewrite <- Zle_Qle. rewrite <- (nearestEven_Z n). apply nearestEven_monotone.
  apply Qle_shift_div_r; [exact P | exact H].
Qed.

Lemma grid_above (e n : Z) (x : Q) :
  inject_Z n * 2 ^ e <= x -> inject_Z n * 2 ^ e <= inject_Z (nearestEven (x / 2 ^ e)) * 2 ^ e.
Proof.
  intros H. pose proof (two_pos e) as P.
  apply Qmult_le_compat_r; [|lra].
  rewrite <- Zle_Qle. rewrite <- (nearestEven_Z n) at 1. apply nearestEven_monotone.
  apply Qle_shift_div_l; [exact P | exact H].
Qed.

Lemma grid_monotone (e : Z) (x y : Q) :
  x <= y -> inject_Z (nearestEven (x / 2 ^ e)) * 2 ^ e <= inject_Z (nearestEven (y / 2 ^ e)) * 2 ^ e.
Proof.
  intros H. pose proof (two_pos e) as P.
  apply Qmult_le_compat_r; [|lra].
  rewrite <- Zle_Qle. apply nearestEven_monotone.
  apply Qmult_le_compat_r; [exact H|]. apply Qlt_le_weak, Qinv_lt_0_compat, P.
Qed.

(** A power of two on a finer grid. *)
Lemma two_on_grid (k e : Z) : (e <= k)%Z -> 2 ^ k == inject_Z (2 ^ (k - e)) * 2 ^ e.
Proof.
  intros H. rewrite two_Z by lia. rewrite <- two_plus. replace (k - e + e)%Z with k by lia.
  reflexivity.
Qed.

Lemma ilog2_spec (x : Q) : 0 < x -> 2 ^ ilog2 x <= x /\ x < 2 ^ (ilog2 x + 1).
Proof.
  intros Hx. destruct x as [n d].
  assert (Hn : (0 < n)%Z) by (unfold Qlt in Hx; cbn in Hx; lia).
  set (a := Z.log2 n). set (b := Z.log2 (Zpos d)).
  assert (Ha : (0 <= a)%Z) by apply Z.log2_nonneg.
  assert (Hb : (0 <= b)%Z) by apply Z.log2_nonneg.
  destruct (Z.log2_spec n Hn) as [A1 A2]. fold a in A1, A2.
  destruct (Z.log2_spec (Zpos d) ltac:(lia)) as [B1 B2]. fold b in B1, B2.
  rewrite Zle_Qle, two_Z in A1, B1 by lia.
  rewrite Zlt_Qlt, two_Z in A2, B2 by lia.
  assert (E : n # d == inject_Z n / inject_Z (Zpos d)) by apply Qmake_Qdiv.
  assert (D0 : 0 < inject_Z (Zpos d)) by reflexivity.
  assert (Lo : 2 ^ (a - b - 1) <= n # d).
  { rewrite E. apply Qle_shift_div_l; [exact D0|].
    apply Qle_trans with (2 ^ (a - b - 1) * 2 ^ Z.succ b).
    - apply Qmult_le_l; [apply two_pos | apply Qlt_le_weak, B2].
    - rewrite <- two_plus. replace (a - b - 1 + Z.succ b)%Z with a by lia. exact A1. }
  assert (Hi : n # d < 2 ^ (a - b + 1)).
  { rewrite E. apply Qlt_shift_div_r; [exact D0|].
    apply Qlt_le_trans with (2 ^ (a - b + 1) * 2 ^ b).
    - rewrite <- two_plus. replace (a - b + 1 + b)%Z with (Z.succ a) by lia. exact A2.
    - apply Qmult_le_l; [apply two_pos | exact B1]. }
  unfold ilog2. cbn [Qnum Qden]. fold a b.
  destruct (Qle_bool (2 ^ (a - b)) (n # d)) eqn:T.
  - apply Qle_bool_iff in T. auto.
  - assert (T' : n # d < 2 ^ (a - b)).
    { apply Qnot_le_lt. intros H. apply Qle_bool_iff in H. congruence. }
    replace (a - b - 1 + 1)%Z with (a - b)%Z by lia. auto.
Qed.

Lemma ilog2_monotone (x y : Q) : 0 < x -> x <= y -> (ilog2 x <= ilog2 y)%Z.
Proof.
  intros Hx H. destruct (ilog2_spec x Hx) as [X1 _].
  destruct (ilog2_spec y ltac:(lra)) as [_ Y2].
  assert (L : 2 ^ ilog2 x < 2 ^ (ilog2 y + 1)) by lra.
  apply two_lt_inv in L. lia.
Qed.

Lemma roundPos_zero (x : Q) : x == 0 -> roundPos x == 0.
Proof.
  intros E. unfold roundPos. generalize (Z.max (-1074) (ilog2 x - 52)). intros e.
  rewrite (nearestEven_comp _ (inject_Z 0)), nearestEven_Z; [apply Qmult_0_l|].
  rewrite E. unfold Qdiv. apply Qmult_0_l.
Qed.

Lemma roundPos_nonneg (x : Q) : 0 <= x -> 0 <= roundPos x.
Proof.
  intros H. unfold roundPos.
  set (e := Z.max (-1074) (ilog2 x - 52)).
  pose proof (grid_above e 0 x) as G. rewrite Qmult_0_l in G. apply G, H.
Qed.

Lemma roundPos_monotone (x y : Q) : 0 <= x -> x <= y -> roundPos x <= roundPos y.
Proof.
  intros Hx H.
  destruct (Qlt_le_dec 0 x) as [Px|Zx].
  2:{ rewrite (roundPos_zero x) by lra. apply roundPos_nonneg. lra. }
  pose proof (ilog2_monotone x y Px H) as K.
  unfold roundPos.
  set (ex := Z.max (-1074) (ilog2 x - 52)). set (ey := Z.max (-1074) (ilog2 y - 52)).
  destruct (Z.eq_dec ex ey) as [E|N].
  - rewrite E. apply grid_monotone, H.
  - assert (L : (ilog2 x < ilog2 y)%Z) by lia.
    assert (Ey : ey = (ilog2 y - 52)%Z) by lia.
    destruct (ilog2_spec x Px) as [_ X2]. destruct (ilog2_spec y ltac:(lra)) as [Y1 _].
    assert (M : 2 ^ (ilog2 x + 1) <= 2 ^ ilog2 y) by (apply two_le; lia).
    apply Qle_trans with (2 ^ ilog2 y).
    + rewrite (two_on_grid (ilog2 y) ex) by lia. apply grid_below.
      rewrite <- (two_on_grid (ilog2 y) ex) by lia. lra.
    + rewrite (two_on_grid (ilog2 y) ey) at 1 by lia. apply grid_above.
      rewrite <- (two_on_grid (ilog2 y) ey) by lia. exact Y1.
Qed.

Lemma round_monotone (x y : Q) : x <= y -> round x <= round y.
Proof.
  intros H. unfold round.
  destruct (Qle_bool 0 x) eqn:X; destruct (Qle_bool 0 y) eqn:Y.
  - apply Qle_bool_iff in X. apply roundPos_monotone; assumption.
  - apply Qle_bool_iff in X.
    assert (0 <= y) as Y' by lra. apply Qle_bool_iff in Y'. congruence.
  - apply Qle_bool_iff in Y.
    assert (X' : x < 0) by (apply Qnot_le_lt; intros C; apply Qle_bool_iff in C; congruence).
    pose proof (roundPos_nonneg (- x) ltac:(lra)). pose proof (roundPos_nonneg y Y). lra.
  - assert (X' : x < 0) by (apply Qnot_le_lt; intros C; apply Qle_bool_iff in C; congruence).
    assert (Y' : y < 0) by (apply Qnot_le_lt; intros C; apply Qle_bool_iff in C; congruence).
    pose proof (roundPos_monotone (- y) (- x) ltac:(lra) ltac:(lra)). lra.
Qed.

Lemma roundPos_exact (m e : Z) :
  (0 <= m < 2 ^ 53)%Z -> (-1074 <= e)%Z ->
  forall x, x == inject_Z m * 2 ^ e -> roundPos x == x.
Proof.
  intros Hm He x E.
  destruct (Z.eq_dec m 0) as [->|N].
  { rewrite Qmult_0_l in E. rewrite roundPos_zero, E; [reflexivity | exact E]. }
  assert (Px : 0 < x).
  { rewrite E. apply Qmult_lt_0_compat; [|apply two_pos]. rewrite <- (Zlt_Qlt 0). lia. }
  destruct (ilog2_spec x Px) as [X1 _].
  assert (U : x < 2 ^ (53 + e)).
  { rewrite E, two_plus. apply Qmult_lt_compat_r; [apply two_pos|].
    rewrite <- two_Z by lia. rewrite <- Zlt_Qlt. lia. }
  assert (K : (ilog2 x < 53 + e)%Z) by (apply two_lt_inv; lra).
  unfold roundPos. set (ex := Z.max (-1074) (ilog2 x - 52)).
  assert (Le : (ex <= e)%Z) by lia.
  assert (G : x / 2 ^ ex == inject_Z (m * 2 ^ (e - ex))).
  { rewrite E, inject_Z_mult, two_Z by lia.
    unfold Qdiv. rewrite <- Qmult_assoc. apply Qmult_comp; [reflexivity|].
    rewrite <- Qpower_opp, <- two_plus. replace (e + - ex)%Z with (e - ex)%Z by lia. reflexivity. }
  rewrite (nearestEven_comp _ _ G), nearestEven_Z.
  rewrite inject_Z_mult, two_Z by lia. rewrite <- Qmult_assoc, <- two_plus.
  replace (e - ex + ex)%Z with e by lia. symmetry. exact E.
Qed.

Lemma round_exact (x : Q) : Progress.representable x -> round x == x.
Proof.
  intros (m & e & Hm & He & E). unfold round.
  destruct (Qle_bool 0 x) eqn:X.
  - apply Qle_bool_iff in X.
    apply (roundPos_exact m e); [|lia | exact E]. split; [|lia].
    destruct (Z_lt_le_dec m 0) as [Neg|]; [|assumption]. exfalso.
    assert (x < 0); [|lra]. rewrite E.
    setoid_replace (inject_Z m * 2 ^ e) with (- (inject_Z (- m) * 2 ^ e))
      by (rewrite inject_Z_opp; ring).
    assert (0 < inject_Z (- m) * 2 ^ e); [|lra].
    apply Qmult_lt_0_compat; [|apply two_pos]. rewrite <- (Zlt_Qlt 0). lia.
  - assert (X' : x < 0) by (apply Qnot_le_lt; intros C; apply Qle_bool_iff in C; congruence).
    assert (Neg : (m < 0)%Z).
    { destruct (Z_lt_le_dec m 0) as [|Pos]; [assumption|]. exfalso.
      assert (0 <= x); [|lra]. rewrite E.
      apply Qmult_le_0_compat; [|apply Qlt_le_weak, two_pos]. rewrite <- (Zle_Qle 0). exact Pos. }
    rewrite (roundPos_exact (- m) e); [ring | lia | lia |].
    rewrite E, inject_Z_opp. ring.
Qed.

End RoundingFacts.

(** ** Reading progress *)

Section ProgressFacts.

Import QArith Qround Qabs Qpower Lqa.
Import Progress.
#[local] Open Scope Q_scope.

Lemma representable_Z (n : Z) :
  (Z.abs n < 2 ^ 53)%Z -> Progress.representable (inject_Z n).
Proof.
  intros H. exists n, 0%Z. repeat split; try lia.
  cbn. rewrite Qmult_1_r. reflexivity.
Qed.

Lemma Math_round_eq (x y : Q) : x == y -> Math_round x = Math_round y.
Proof. intros E. unfold Math_round. rewrite E. reflexivity. Qed.

Lemma Math_round_bounds (x : Q) (lo hi : Z) :
  inject_Z lo <= x -> x <= inject_Z hi -> (lo <= Math_round x <= hi)%Z.
Proof.
  intros Hlo Hhi. unfold Math_round. split.
  - rewrite <- (Qfloor_Z lo). apply Qfloor_resp_le.
    apply Qle_trans with x; [exact Hlo|].
    rewrite <- (Qplus_0_r x) at 1. apply Qplus_le_r. discriminate.
  - assert (H : (Qfloor (x + (1 # 2)) <= Qfloor (inject_Z hi + (1 # 2)))%Z)
      by (apply Qfloor_resp_le, Qplus_le_l, Hhi).
    apply Z.le_trans with (1 := H).
    apply Z.lt_succ_r.
    assert (L := Qfloor_le (inject_Z hi + (1 # 2))).
    assert (L' : inject_Z (Qfloor (inject_Z hi + (1 # 2))) < inject_Z (Z.succ hi)).
    { apply Qle_lt_trans with (1 := L).
      unfold Z.succ. rewrite inject_Z_plus. apply Qplus_lt_r. reflexivity. }
    rewrite <- Zlt_Qlt in L'. exact L'.
Qed.

Variable fl : Q -> Q.
Hypothesis fl_monotone : forall x y, x <= y -> fl x <= fl y.
Hypothesis fl_exact : forall x, representable x -> fl x == x.

Lemma fl_value (x v : Q) : x == v -> representable v -> fl x == v.
Proof.
  intros E R. rewrite <- (fl_exact v R).
  apply Qle_antisym; apply fl_monotone; rewrite E; apply Qle_refl.
Qed.

Lemma fl_between (x : Q) (lo hi : Z) :
  (Z.abs lo < 2 ^ 53)%Z -> (Z.abs hi < 2 ^ 53)%Z ->
  inject_Z lo <= x -> x <= inject_Z hi ->
  inject_Z lo <= fl x /\ fl x <= inject_Z hi.
Proof.
  intros Rlo Rhi Hlo Hhi. split.
  - rewrite <- (fl_exact _ (representable_Z lo Rlo)). apply fl_monotone, Hlo.
  - rewrite <- (fl_exact _ (representable_Z hi Rhi)). apply fl_monotone, Hhi.
Qed.

Lemma quarter_representable : representable (1 # 4).
Proof. exists 1%Z, (-2)%Z. repeat split; try lia. Qed.

Lemma percent_1_4 : percent fl 1 4 = 25%Z.
Proof.
  unfold percent.
  assert (E1 : fl (inject_Z 1 / inject_Z 4) == 1 # 4)
    by (apply fl_value; [reflexivity | exact quarter_representable]).
  assert (E2 : fl (fl (inject_Z 1 / inject_Z 4) * 100) == inject_Z 25).
  { apply fl_value; [rewrite E1; reflexivity | apply representable_Z; reflexivity]. }
  rewrite (Math_round_eq _ _ E2). reflexivity.
Qed.

Lemma percent_4_4 : percent fl 4 4 = 100%Z.
Proof.
  unfold percent.
  assert (E1 : fl (inject_Z 4 / inject_Z 4) == inject_Z 1)
    by (apply fl_value; [reflexivity | apply representable_Z; reflexivity]).
  assert (E2 : fl (fl (inject_Z 4 / inject_Z 4) * 100) == inject_Z 100).
  { apply fl_value; [rewrite E1; reflexivity | apply representable_Z; reflexivity]. }
  rewrite (Math_round_eq _ _ E2). reflexivity.
Qed.

Lemma percent_in_range (current total : Z) :
  (1 <= current <= total)%Z -> (0 <= percent fl current total <= 100)%Z.
Proof.
  intros [H1 H2]. unfold percent.
  assert (Ht : 0 < inject_Z total) by (rewrite <- (Zlt_Qlt 0); lia).
  assert (Q0 : inject_Z 0 <= inject_Z current / inject_Z total).
  { apply Qle_shift_div_l; [exact Ht|]. rewrite Qmult_0_l.
    rewrite <- (Zle_Qle 0). lia. }
  assert (Q1 : inject_Z current / inject_Z total <= inject_Z 1).
  { apply Qle_shift_div_r; [exact Ht|]. rewrite Qmult_1_l.
    rewrite <- Zle_Qle. exact H2. }
  destruct (fl_between _ 0 1 ltac:(reflexivity) ltac:(reflexivity) Q0 Q1) as [F0 F1].
  set (q := fl (inject_Z current / inject_Z total)) in *.
  assert (P0 : inject_Z 0 <= q * 100).
  { apply Qmult_le_0_compat; [exact F0 | discriminate]. }
  assert (P1 : q * 100 <= inject_Z 100).
  { change (inject_Z 100) with (1 * 100).
    apply Qmult_le_compat_r; [exact F1 | discriminate]. }
  destruct (fl_between _ 0 100 ltac:(reflexivity) ltac:(reflexivity) P0 P1) as [G0 G1].
  apply Math_round_bounds; assumption.
Qed.

Lemma Math_round_nearest (x : Q) :
  inject_Z (Math_round x) <= x + (1 # 2) /\ x + (1 # 2) < inject_Z (Math_round x) + 1.
Proof.
  unfold Math_round. split; [apply Qfloor_le|].
  pose proof (Qlt_floor (x + (1 # 2))) as H. rewrite inject_Z_plus in H. exact H.
Qed.

Lemma Math_round_monotone (x y : Q) : x <= y -> (Math_round x <= Math_round y)%Z.
Proof. intros H. unfold Math_round. apply Qfloor_resp_le. lra. Qed.

Lemma fl_within (x lo hi : Q) :
  representable lo -> representable hi -> lo <= x -> x <= hi -> lo <= fl x /\ fl x <= hi.
Proof.
  intros Rlo Rhi Hlo Hhi. split.
  - rewrite <- (fl_exact lo Rlo). apply fl_monotone, Hlo.
  - rewrite <- (fl_exact hi Rhi). apply fl_monotone, Hhi.
Qed.

(** The percentage is settled by binary64 numbers around the quotient and
    around its product by 100. *)
Lemma percent_within (current total p : Z) (lo hi lo' hi' : Q) :
  representable lo -> representable hi -> representable lo' -> representable hi' ->
  lo <= inject_Z current / inject_Z total -> inject_Z current / inject_Z total <= hi ->
  lo' <= lo * 100 -> hi * 100 <= hi' ->
  Math_round lo' = p -> Math_round hi' = p ->
  percent fl current total = p.
Proof.
  intros Rlo Rhi Rlo' Rhi' Hlo Hhi Hlo' Hhi' Plo Phi. unfold percent.
  destruct (fl_within _ lo hi Rlo Rhi Hlo Hhi) as [A B].
  destruct (fl_within (fl (inject_Z current / inject_Z total) * 100) lo' hi' Rlo' Rhi')
    as [C D]; [lra | lra |].
  pose proof (Math_round_monotone _ _ C). pose proof (Math_round_monotone _ _ D). lia.
Qed.

Ltac dyadic m e := exists m, e; repeat split; lia.
Ltac qcalc := first [reflexivity | discriminate].

Lemma percent_1_8 : percent fl 1 8 = 13%Z.
Proof.
  apply (percent_within 1 8 13 (1 # 8) (1 # 8) (25 # 2) (25 # 2));
    [dyadic 1%Z (-3)%Z | dyadic 1%Z (-3)%Z | dyadic 25%Z (-1)%Z | dyadic 25%Z (-1)%Z | qcalc..].
Qed.

Lemma percent_2_3 : percent fl 2 3 = 67%Z.
Proof.
  apply (percent_within 2 3 67 (5461 # 8192) (5462 # 8192) (133 # 2) 67);
    [dyadic 5461%Z (-13)%Z | dyadic 5462%Z (-13)%Z | dyadic 133%Z (-1)%Z | dyadic 67%Z 0%Z | qcalc..].
Qed.

Lemma percent_1_3 : percent fl 1 3 = 33%Z.
Proof.
  apply (percent_within 1 3 33 (2730 # 8192) (2731 # 8192) 33 (267 # 8));
    [dyadic 2730%Z (-13)%Z | dyadic 2731%Z (-13)%Z | dyadic 33%Z 0%Z | dyadic 267%Z (-3)%Z | qcalc..].
Qed.

(** C9. Under the guard [totalPages > 0] the save effects build the
    percentage [Math.round((currentPage / totalPages) * 100)]: with [v] the
    float product by 100 of the float quotient, it is the integer [p] with
    [p <= v + 1/2 < p + 1], the nearest integer with a tie going up.  When
    the total is 0 they build no percentage and leave the stored record as
    it is.  The percentage of page 1 of 4 is 25, of page 4 of 4 is 100, of
    page 1 of 8 is 13 (the tie 12.5 goes up), of page 2 of 3 is 67 and of
    page 1 of 3 is 33, and for [1 <= currentPage <= totalPages] it lies
    between 0 and 100. *)
Theorem progress_percentage :
  (forall current total, (0 < total)%Z ->
     exists p,
       progressOf fl current total =
       Some {| currentPage := current; totalPages := total; percentage := p |} /\
       inject_Z p <= fl (fl (inject_Z current / inject_Z total) * 100) + (1 # 2) /\
       fl (fl (inject_Z current / inject_Z total) * 100) + (1 # 2) < inject_Z p + 1) /\
  (forall current total path books, (total <= 0)%Z ->
     progressOf fl current total = None /\
     saveOnUnmount fl path current total books = books) /\
  percent fl 1 4 = 25%Z /\
  percent fl 4 4 = 100%Z /\
  percent fl 1 8 = 13%Z /\
  percent fl 2 3 = 67%Z /\
  percent fl 1 3 = 33%Z /\
  (forall current total, (1 <= current <= total)%Z ->
     (0 <= percent fl current total <= 100)%Z).
Proof.
  split; [|split; [|split; [|split; [|split; [|split; [|split]]]]]].
  - intros current total H. unfold progressOf.
    apply Z.ltb_lt in H. rewrite H. eexists. split; [reflexivity|].
    apply Math_round_nearest.
  - intros current total path books H.
    assert (E : progressOf fl current total = None).
    { unfold progressOf. apply Z.ltb_ge in H. rewrite H. reflexivity. }
    split; [exact E|]. unfold saveOnUnmount. rewrite E. reflexivity.
  - exact percent_1_4.
  - exact percent_4_4.
  - exact percent_1_8.
  - exact percent_2_3.
  - exact percent_1_3.
  - exact percent_in_range.
Qed.

End ProgressFacts.

Section ProgressSamples.

Import QArith.
#[local] Open Scope Q_scope.

Lemma progress_percentage_witness :
  (0 <= Progress.percent Binary64.round 3 7 <= 100)%Z /\
  Progress.percent Binary64.round 1 8 = 13%Z /\
  exists p,
    Progress.progressOf Binary64.round 29 200 =
    Some {| Progress.currentPage := 29; Progress.totalPages := 200; Progress.percentage := p |} /\
    inject_Z p <= Binary64.round (Binary64.round (inject_Z 29 / inject_Z 200) * 100) + (1 # 2) /\
    Binary64.round (Binary64.round (inject_Z 29 / inject_Z 200) * 100) + (1 # 2) < inject_Z p + 1.
Proof.
  pose proof (progress_percentage Binary64.round round_monotone round_exact)
    as (Built & _ & _ & _ & Tie & _ & _ & Range).
  split; [apply Range; lia|]. split; [exact Tie|]. apply Built. lia.
Defined.

(** The evaluation of the percentages with the floats of the Standard
    Library: the two sample percentages; a pair, 29 of 200, whose
    percentage is 14 because the float product lies just below 14.5, where
    exact arithmetic gives 15; and the agreement of [Binary64.round] with
    the floats on every page of every book of up to 60 pages. *)
Lemma binary64_percentages :
  Binary64.percent 1 4 = Some 25%Z /\
  Binary64.percent 4 4 = Some 100%Z /\
  Binary64.percent 29 200 = Some 14%Z /\
  Progress.percent Binary64.round 29 200 = 14%Z /\
  Progress.percent Samples.exact 29 200 = 15%Z /\
  forallb (fun t => forallb (fun c => Binary64.agree (Z.of_nat c) (Z.of_nat t)) (seq 1 t))
          (seq 1 60) = true.
Proof. repeat match goal with |- _ /\ _ => split end; vm_compute; reflexivity. Qed.

End ProgressSamples.

(** With a total of 0 no percentage is built, so none that is 0, and the
    stored percentage stays at 100. *)
Lemma zero_total_builds_no_percentage :
  option_map Progress.percentage (Progress.progressOf Samples.exact 3 0) <> Some 0%Z /\
  map (fun b => Progress.percentage (Progress.stored b))
      (Progress.saveOnUnmount Samples.exact (lit "novel.epub") 3 0 Samples.shelf) = [100%Z].
Proof. split; [discriminate | reflexivity]. Qed.

(** ** Facts about the string primitives *)

Section StringFacts.

Lemma firstn_app_exact {A} (a b : list A) :
  firstn (length (a ++ b) - length b) (a ++ b) = a.
Proof.
  rewrite length_app, Nat.add_sub, firstn_app, Nat.sub_diag, firstn_all.
  cbn. apply app_nil_r.
Qed.

Lemma chrMatches_refl (f : flags) (c : ascii) : chrMatches f c c = true.
Proof. unfold chrMatches. destruct (ignoreCase f); apply Ascii.eqb_refl. Qed.

(** A character that is not a letter is matched by itself only, with or
    without the [i] flag. *)
Lemma canonicalize_lt (x : ascii) : canonicalize x = "<"%char -> x = "<"%char.
Proof.
  destruct x as [[|] [|] [|] [|] [|] [|] [|] [|]]; vm_compute; congruence.
Qed.

Lemma canonicalize_amp (x : ascii) : canonicalize x = "&"%char -> x = "&"%char.
Proof.
  destruct x as [[|] [|] [|] [|] [|] [|] [|] [|]]; vm_compute; congruence.
Qed.

Lemma chrMatches_lt (f : flags) (x : ascii) :
  x <> "<"%char -> chrMatches f "<" x = false.
Proof.
  intros N. unfold chrMatches. destruct (ignoreCase f).
  - apply Ascii.eqb_neq. intros E. apply N, canonicalize_lt. symmetry. exact E.
  - apply Ascii.eqb_neq. congruence.
Qed.

Lemma chrMatches_amp (f : flags) (x : ascii) :
  x <> "&"%char -> chrMatches f "&" x = false.
Proof.
  intros N. unfold chrMatches. destruct (ignoreCase f).
  - apply Ascii.eqb_neq. intros E. apply N, canonicalize_amp. symmetry. exact E.
  - apply Ascii.eqb_neq. congruence.
Qed.

(** *** The matcher *)

Lemma run_chars {R} (f : flags) (w : string) (cap : option jstring) (t : jstring)
  (k : cont R) :
  run f (chars w) cap (lit w ++ t) k = k cap t.
Proof.
  revert t. induction w as [|c w IH]; intros t.
  - cbn. destruct t; reflexivity.
  - destruct w as [|c' w].
    + cbn. rewrite chrMatches_refl. reflexivity.
    + change (chars (String c (String c' w))) with (Seq (Chr c) (chars (String c' w))).
      change (lit (String c (String c' w)) ++ t) with (c :: (lit (String c' w) ++ t)).
      cbn [run]. rewrite chrMatches_refl. apply IH.
Qed.

Lemma run_firstChar {R} (f : flags) (r : regex) (c x : ascii) (cap : option jstring)
  (t : jstring) (k : cont R) :
  firstChar r = Some c -> chrMatches f c x = false -> run f r cap (x :: t) k = None.
Proof.
  revert cap k. induction r; intros cap k Hc Hx; try discriminate; cbn in *.
  - injection Hc as ->. rewrite Hx. reflexivity.
  - apply IHr1; assumption.
  - apply IHr; assumption.
Qed.

Lemma run_firstChar_nil {R} (f : flags) (r : regex) (c : ascii) (cap : option jstring)
  (k : cont R) :
  firstChar r = Some c -> run f r cap [] k = None.
Proof.
  revert cap k. induction r; intros cap k Hc; try discriminate; cbn in *.
  - reflexivity.
  - apply IHr1; assumption.
  - apply IHr; assumption.
Qed.

Lemma firstChar_chars (c : ascii) (w : string) : firstChar (chars (String c w)) = Some c.
Proof. destruct w; reflexivity. Qed.

Lemma starGreedy_span {R} (p : ascii -> bool) (k : jstring -> option R) (s t : jstring) :
  Forall (fun c => p c = true) s ->
  match t with [] => True | c :: _ => p c = false end ->
  k t <> None ->
  starGreedy p k (s ++ t) = k t.
Proof.
  intros Hs Ht Hk. induction Hs as [|c s Hc Hs IH]; cbn.
  - destruct t as [|c t]; cbn; [reflexivity|]. rewrite Ht. reflexivity.
  - rewrite Hc, IH. destruct (k t); [reflexivity | contradiction].
Qed.

Lemma starLazy_skip {R} (p : ascii -> bool) (k : jstring -> option R) (s t : jstring) :
  Forall (fun c => p c = true /\ forall u, k (c :: u) = None) s ->
  starLazy p k (s ++ t) = starLazy p k t.
Proof.
  induction 1 as [|c s [Hc Hk] Hs IH]; [reflexivity|].
  cbn [app]. cbn [starLazy]. rewrite Hk, Hc. exact IH.
Qed.

Lemma starLazy_hit {R} (p : ascii -> bool) (k : jstring -> option R) (t : jstring) (r : R) :
  k t = Some r -> starLazy p k t = Some r.
Proof. intros H. destruct t; cbn; rewrite H; reflexivity. Qed.

(** *** Replacement *)

Lemma nowhere_nil (f : flags) (r : regex) :
  matchHere f r [] = None -> nowhere f r [].
Proof.
  intros H u v E. symmetry in E. apply app_eq_nil in E as [_ ->]. exact H.
Qed.

Lemma nowhere_cons (f : flags) (r : regex) (c : ascii) (s : jstring) :
  matchHere f r (c :: s) = None -> nowhere f r s -> nowhere f r (c :: s).
Proof.
  intros H N u v E. destruct u as [|x u]; cbn in E.
  - subst v. exact H.
  - injection E as _ E. exact (N u v E).
Qed.

Lemma nowhere_app (f : flags) (r : regex) (a b : jstring) :
  Forall (fun x => forall t, matchHere f r (x :: t) = None) a ->
  nowhere f r b -> nowhere f r (a ++ b).
Proof.
  intros Ha Hb. induction Ha as [|x a Hx Ha IH]; [exact Hb|].
  cbn. apply nowhere_cons; [apply Hx | exact IH].
Qed.

Lemma nowhere_tail (f : flags) (r : regex) (c : ascii) (s : jstring) :
  nowhere f r (c :: s) -> nowhere f r s.
Proof. intros N u v E. apply (N (c :: u) v). cbn. congruence. Qed.

Lemma replaceFrom_skip (f : flags) (r : regex) (by_ a b : jstring) :
  replaceFrom f r by_ (a ++ b) (length a) = replaceFrom f r by_ b 0.
Proof. induction a as [|x a IH]; [reflexivity | exact IH]. Qed.

Lemma replaceAll_nowhere (f : flags) (r : regex) (by_ s : jstring) :
  nowhere f r s -> replaceAll f r by_ s = s.
Proof.
  unfold replaceAll. induction s as [|c s IH]; intros N; cbn.
  - rewrite (N [] [] eq_refl). reflexivity.
  - rewrite (N [] (c :: s) eq_refl). f_equal. apply IH.
    exact (nowhere_tail _ _ _ _ N).
Qed.

(** Text in which no character can start a match is copied. *)
Lemma replaceAll_copy (f : flags) (r : regex) (by_ a b : jstring) :
  Forall (fun x => forall t, matchHere f r (x :: t) = None) a ->
  replaceAll f r by_ (a ++ b) = a ++ replaceAll f r by_ b.
Proof.
  unfold replaceAll. induction 1 as [|x a Hx Ha IH]; [reflexivity|].
  cbn. rewrite Hx. f_equal. exact IH.
Qed.

(** A match of the non-empty text [w] at the front is replaced, and the
    replacement resumes behind it. *)
Lemma replaceAll_hit (f : flags) (r : regex) (by_ w t : jstring) (m : matched) :
  matchHere f r (w ++ t) = Some m -> whole m = w -> w <> [] ->
  replaceAll f r by_ (w ++ t) = by_ ++ replaceAll f r by_ t.
Proof.
  unfold replaceAll. intros Hm Hw Hne.
  destruct w as [|c w]; [contradiction|].
  cbn [app replaceFrom]. change (c :: w ++ t) with ((c :: w) ++ t).
  rewrite Hm, Hw. cbn [length]. f_equal. apply replaceFrom_skip.
Qed.

Lemma notChar_true c x : x <> c -> notChar c x = true.
Proof. intros N. unfold notChar. apply Bool.negb_true_iff, Ascii.eqb_neq, N. Qed.

Lemma Forall_notChar c s : Forall (fun x => x <> c) s -> Forall (fun x => notChar c x = true) s.
Proof. apply Forall_impl. intros x. apply notChar_true. Qed.

Lemma firstn_app_exact_eq {A} (a b s : list A) :
  s = a ++ b -> firstn (length s - length b) s = a.
Proof. intros ->. apply firstn_app_exact. Qed.

Lemma matchHere_block (tag : string) (attrs body post : jstring) :
  Forall (fun c => c <> ">"%char) attrs ->
  Forall (fun c => c <> "<"%char) body ->
  matchHere gi (blockRe tag)
    (lit ("<" ++ tag) ++ attrs ++ ">"%char :: body ++ lit ("</" ++ tag ++ ">") ++ post)
  = Some {| whole := lit ("<" ++ tag) ++ attrs ++ ">"%char :: body ++ lit ("</" ++ tag ++ ">");
            group1 := [];
            rest := post |}.
Proof.
  intros Ha Hb. unfold matchHere, blockRe. cbn [run].
  rewrite run_chars.
  rewrite starGreedy_span.
  - rewrite chrMatches_refl.
    rewrite starLazy_skip.
    + erewrite starLazy_hit; [reflexivity|].
      rewrite run_chars. do 2 f_equal.
      apply firstn_app_exact_eq.
      rewrite <- !app_assoc. cbn [app]. rewrite <- !app_assoc. reflexivity.
    + eapply Forall_impl; [|exact Hb]. intros c Hc. split; [reflexivity|].
      intros u. apply (run_firstChar gi _ "<"%char); [reflexivity|].
      apply chrMatches_lt, Hc.
  - apply Forall_notChar, Ha.
  - reflexivity.
  - rewrite chrMatches_refl, starLazy_skip.
    + erewrite starLazy_hit; [discriminate|]. rewrite run_chars. reflexivity.
    + eapply Forall_impl; [|exact Hb]. intros c Hc. split; [reflexivity|].
      intros u. apply (run_firstChar gi _ "<"%char); [reflexivity|].
      apply chrMatches_lt, Hc.
Qed.

Lemma matchHere_tag (tag : string) (attrs post : jstring) :
  Forall (fun c => c <> ">"%char) attrs ->
  matchHere gi (tagRe tag) (lit ("<" ++ tag) ++ attrs ++ ">"%char :: post)
  = Some {| whole := lit ("<" ++ tag) ++ attrs ++ [">"%char]; group1 := []; rest := post |}.
Proof.
  intros Ha. unfold matchHere, tagRe. cbn [run].
  rewrite run_chars, starGreedy_span.
  - rewrite chrMatches_refl. do 2 f_equal.
    apply firstn_app_exact_eq. rewrite <- !app_assoc. reflexivity.
  - apply Forall_notChar, Ha.
  - reflexivity.
  - rewrite chrMatches_refl. discriminate.
Qed.

Lemma matchHere_chars (f : flags) (w : string) (t : jstring) :
  matchHere f (chars w) (lit w ++ t) = Some {| whole := lit w; group1 := []; rest := t |}.
Proof.
  unfold matchHere. rewrite run_chars. do 2 f_equal. apply firstn_app_exact.
Qed.

Lemma dead_chars (f : flags) (r : regex) (c : ascii) (s : jstring) :
  firstChar r = Some c ->
  Forall (fun x => chrMatches f c x = false) s ->
  Forall (fun x => forall t, matchHere f r (x :: t) = None) s.
Proof.
  intros Hr. apply Forall_impl. intros x Hx t.
  apply (run_firstChar f r c); assumption.
Qed.

Lemma replaceAll_inert (f : flags) (r : regex) (c : ascii) (by_ s : jstring) :
  firstChar r = Some c ->
  Forall (fun x => chrMatches f c x = false) s ->
  replaceAll f r by_ s = s.
Proof.
  intros Hr Hs. apply replaceAll_nowhere.
  rewrite <- (app_nil_r s). apply nowhere_app.
  - exact (dead_chars f r c s Hr Hs).
  - apply nowhere_nil. apply (run_firstChar_nil f r c). exact Hr.
Qed.

Lemma plain_lt (f : flags) (s : jstring) :
  plainText s -> Forall (fun x => chrMatches f "<" x = false) s.
Proof. apply Forall_impl. intros x [H _]. apply chrMatches_lt, H. Qed.

Lemma plain_amp (f : flags) (s : jstring) :
  plainText s -> Forall (fun x => chrMatches f "&" x = false) s.
Proof. apply Forall_impl. intros x [_ H]. apply chrMatches_amp, H. Qed.

Lemma plain_app a b : plainText a -> plainText b -> plainText (a ++ b).
Proof. intros. apply Forall_app. split; assumption. Qed.

Lemma cleanHtmlContent_stages html : cleanHtmlContent html = trim (decodeEntities (stripTags html)).
Proof. reflexivity. Qed.

Lemma decodeEntities_inert s : Forall (fun x => chrMatches g "&" x = false) s -> decodeEntities s = s.
Proof.
  intros H. unfold decodeEntities.
  rewrite !(replaceAll_inert g _ "&"%char _ s) by (reflexivity || exact H).
  reflexivity.
Qed.

Lemma stripTags_inert s : Forall (fun x => chrMatches gi "<" x = false) s -> stripTags s = s.
Proof.
  intros H. unfold stripTags.
  rewrite !(replaceAll_inert gi _ "<"%char _ s) by (reflexivity || exact H).
  reflexivity.
Qed.

Lemma cleanHtmlContent_plain s : plainText s -> cleanHtmlContent s = trim s.
Proof.
  intros H. rewrite cleanHtmlContent_stages, stripTags_inert, decodeEntities_inert.
  - reflexivity.
  - apply plain_amp, H.
  - apply plain_lt, H.
Qed.


Lemma replaceAll_block (tag : string) (by_ attrs body post : jstring) :
  Forall (fun c => c <> ">"%char) attrs ->
  Forall (fun c => c <> "<"%char) body ->
  replaceAll gi (blockRe tag) by_
    (lit ("<" ++ tag) ++ attrs ++ ">"%char :: body ++ lit ("</" ++ tag ++ ">") ++ post)
  = by_ ++ replaceAll gi (blockRe tag) by_ post.
Proof.
  intros Ha Hb.
  assert (Hm := matchHere_block tag attrs body post Ha Hb).
  set (w := lit ("<" ++ tag) ++ attrs ++ ">"%char :: body ++ lit ("</" ++ tag ++ ">")) in *.
  assert (E : lit ("<" ++ tag) ++ attrs ++ ">"%char :: body ++ lit ("</" ++ tag ++ ">") ++ post
              = w ++ post).
  { unfold w. rewrite <- !app_assoc. cbn [app]. rewrite <- !app_assoc. reflexivity. }
  rewrite E in *.
  apply (replaceAll_hit gi _ by_ w post _ Hm eq_refl).
  unfold w. discriminate.
Qed.

Lemma replaceAll_tag (tag : string) (by_ attrs post : jstring) :
  Forall (fun c => c <> ">"%char) attrs ->
  replaceAll gi (tagRe tag) by_ (lit ("<" ++ tag) ++ attrs ++ ">"%char :: post)
  = by_ ++ replaceAll gi (tagRe tag) by_ post.
Proof.
  intros Ha.
  assert (Hm := matchHere_tag tag attrs post Ha).
  set (w := lit ("<" ++ tag) ++ attrs ++ [">"%char]) in *.
  assert (E : lit ("<" ++ tag) ++ attrs ++ ">"%char :: post = w ++ post).
  { unfold w. rewrite <- !app_assoc. reflexivity. }
  rewrite E in *.
  apply (replaceAll_hit gi _ by_ w post _ Hm eq_refl).
  unfold w. discriminate.
Qed.

Lemma replaceAll_chars (f : flags) (c : ascii) (w : string) (by_ post : jstring) :
  replaceAll f (chars (String c w)) by_ (lit (String c w) ++ post)
  = by_ ++ replaceAll f (chars (String c w)) by_ post.
Proof.
  apply (replaceAll_hit f _ by_ _ post _ (matchHere_chars f (String c w) post) eq_refl).
  discriminate.
Qed.


(** *** What the matcher finds is a match, and a match is found *)

Lemma starGreedy_sound {R} p (k : jstring -> option R) s res :
  starGreedy p k s = Some res ->
  exists a t, s = a ++ t /\ Forall (fun x => p x = true) a /\ k t = Some res.
Proof.
  revert res. induction s as [|c s IH]; intros res H; cbn in H.
  - exists [], []. auto.
  - destruct (p c) eqn:Hc.
    + destruct (starGreedy p k s) as [r|] eqn:E.
      * injection H as <-. destruct (IH r eq_refl) as (a & t & -> & Ha & Hk).
        exists (c :: a), t. auto.
      * exists [], (c :: s). auto.
    + exists [], (c :: s). auto.
Qed.

Lemma starLazy_sound {R} p (k : jstring -> option R) s res :
  starLazy p k s = Some res ->
  exists a t, s = a ++ t /\ Forall (fun x => p x = true) a /\ k t = Some res.
Proof.
  revert res. induction s as [|c s IH]; intros res H; cbn in H.
  - destruct (k []) eqn:E; [|discriminate]. injection H as <-. exists [], []. auto.
  - destruct (k (c :: s)) eqn:E.
    + injection H as <-. exists [], (c :: s). auto.
    + destruct (p c) eqn:Hc; [|discriminate].
      destruct (IH res H) as (a & t & -> & Ha & Hk). exists (c :: a), t. auto.
Qed.

Lemma run_sound {R} f r cap s (k : cont R) res :
  run f r cap s k = Some res ->
  exists a t cap', s = a ++ t /\ Matches f r a t /\ k cap' t = Some res.
Proof.
  revert cap s k res. induction r; intros cap s k res H; cbn in H.
  - destruct s as [|x s]; [discriminate|]. destruct (chrMatches f c x) eqn:E; [|discriminate].
    exists [x], s, cap. repeat split; [constructor; exact E | exact H].
  - destruct s as [|x s]; [discriminate|]. destruct (p x) eqn:E; [|discriminate].
    exists [x], s, cap. repeat split; [constructor; exact E | exact H].
  - apply IHr1 in H as (a & t & cap1 & -> & M1 & H).
    apply IHr2 in H as (b & t' & cap2 & -> & M2 & H).
    exists (a ++ b), t', cap2. rewrite app_assoc. repeat split; [|exact H].
    constructor; assumption.
  - destruct (run f r1 cap s k) eqn:E.
    + injection H as <-. apply IHr1 in E as (a & t & cap1 & -> & M1 & H).
      exists a, t, cap1. repeat split; [apply MatchesAltL; exact M1 | exact H].
    + apply IHr2 in H as (a & t & cap1 & -> & M1 & H).
      exists a, t, cap1. repeat split; [apply MatchesAltR; exact M1 | exact H].
  - apply starGreedy_sound in H as (a & t & -> & Ha & H).
    exists a, t, cap. repeat split; [constructor; exact Ha | exact H].
  - apply starLazy_sound in H as (a & t & -> & Ha & H).
    exists a, t, cap. repeat split; [constructor; exact Ha | exact H].
  - apply IHr in H as (a & t & cap1 & -> & M1 & H).
    eexists a, t, _. repeat split; [constructor; exact M1 | exact H].
  - destruct s; [|discriminate]. exists [], [], cap. repeat split; [constructor | exact H].
Qed.

Lemma starGreedy_complete {R} p (k : jstring -> option R) a t :
  Forall (fun x => p x = true) a -> k t <> None -> starGreedy p k (a ++ t) <> None.
Proof.
  intros Ha Hk. induction Ha as [|c a Hc Ha IH]; cbn.
  - destruct t as [|c t]; [exact Hk|]. cbn. destruct (p c); [|exact Hk].
    destruct (starGreedy p k t); [discriminate | exact Hk].
  - rewrite Hc. destruct (starGreedy p k (a ++ t)); [discriminate | contradiction].
Qed.

Lemma starLazy_complete {R} p (k : jstring -> option R) a t :
  Forall (fun x => p x = true) a -> k t <> None -> starLazy p k (a ++ t) <> None.
Proof.
  intros Ha Hk. induction Ha as [|c a Hc Ha IH]; cbn.
  - destruct t as [|c t]; cbn; destruct (k _); try discriminate; contradiction.
  - destruct (k (c :: a ++ t)); [discriminate|]. rewrite Hc. exact IH.
Qed.

Lemma run_complete {R} f r a t :
  Matches f r a t ->
  forall cap (k : cont R), (forall cap', k cap' t <> None) -> run f r cap (a ++ t) k <> None.
Proof.
  induction 1; intros cap k Hk; cbn.
  - rewrite H. apply Hk.
  - rewrite H. apply Hk.
  - rewrite <- app_assoc. apply IHMatches1. intros cap'. apply IHMatches2. exact Hk.
  - destruct (run f r1 cap (a ++ t) k) eqn:E; [discriminate|].
    exfalso. revert E. apply IHMatches. exact Hk.
  - destruct (run f r1 cap (a ++ t) k); [discriminate|]. apply IHMatches. exact Hk.
  - apply starGreedy_complete; [exact H | apply Hk].
  - apply starLazy_complete; [exact H | apply Hk].
  - apply IHMatches. intros cap'. apply Hk.
  - apply Hk.
Qed.

Lemma matchHere_sound f r s m :
  matchHere f r s = Some m ->
  s = whole m ++ rest m /\ Matches f r (whole m) (rest m).
Proof.
  unfold matchHere. intros H.
  apply run_sound in H as (a & t & cap' & -> & M & H).
  injection H as <-. cbn. rewrite firstn_app_exact. auto.
Qed.

Lemma matchHere_complete f r a t :
  Matches f r a t -> matchHere f r (a ++ t) <> None.
Proof.
  intros M. unfold matchHere. apply run_complete; [exact M|]. discriminate.
Qed.

Lemma search_some f r u v : matchHere f r v <> None -> search f r (u ++ v) <> None.
Proof.
  intros H. induction u as [|c u IH]; cbn.
  - destruct v; cbn; destruct (matchHere f r _); try discriminate; contradiction.
  - destruct (matchHere f r (c :: u ++ v)); [discriminate | exact IH].
Qed.

Lemma search_sound f r s m :
  search f r s = Some m -> exists u, s = u ++ whole m ++ rest m /\ matchHere f r (whole m ++ rest m) = Some m.
Proof.
  induction s as [|c s IH]; cbn.
  - destruct (matchHere f r []) eqn:E; [|discriminate]. intros [= <-].
    destruct (matchHere_sound _ _ _ _ E) as [Hs _]. exists []. rewrite <- Hs. auto.
  - destruct (matchHere f r (c :: s)) eqn:E.
    + intros [= <-]. destruct (matchHere_sound _ _ _ _ E) as [Hs _].
      exists []. rewrite <- Hs. auto.
    + intros H. destruct (IH H) as (u & Hu & Hm). exists (c :: u). cbn. rewrite <- Hu. auto.
Qed.

(** *** The scan for all matches *)



Lemma scan_sound f r s off skip o m :
  In (o, m) (scan f r s off skip) ->
  exists u v, s = u ++ v /\ o = off + length u /\ matchHere f r v = Some m.
Proof.
  revert off skip. induction s as [|c s IH]; intros off skip H.
  - destruct skip; cbn in H; [|contradiction].
    destruct (matchHere f r []) eqn:E; [|contradiction].
    destruct H as [[= <- <-]|[]]. exists [], []. cbn. auto.
  - assert (T : forall off' skip', In (o, m) (scan f r s off' skip') -> off' = S off ->
              exists u v, c :: s = u ++ v /\ o = off + length u /\ matchHere f r v = Some m).
    { intros off' skip' H' ->. apply IH in H' as (u & v & -> & -> & Hm).
      exists (c :: u), v. cbn. repeat split; [lia | exact Hm]. }
    destruct skip as [|n]; cbn in H.
    + destruct (matchHere f r (c :: s)) eqn:E.
      * destruct H as [[= <- <-]|H]; [|eapply T; eauto].
        exists [], (c :: s). cbn. auto.
      * eapply T; eauto.
    + eapply T; eauto.
Qed.


End StringFacts.

(** ** The sanitizer *)

Section SanitizerFacts.

Lemma nowhere_inert (f : flags) (r : regex) (c : ascii) (s : jstring) :
  firstChar r = Some c ->
  Forall (fun x => chrMatches f c x = false) s ->
  nowhere f r s.
Proof.
  intros Hr Hs. rewrite <- (app_nil_r s). apply nowhere_app.
  - exact (dead_chars f r c s Hr Hs).
  - apply nowhere_nil. apply (run_firstChar_nil f r c). exact Hr.
Qed.

(** Proves [nowhere f r s] for a text made of literal characters and of
    segments known to hold no [c]. *)
Ltac dead c :=
  cbn [lit list_ascii_of_string app String.append];
  repeat first
    [ apply nowhere_nil; reflexivity
    | apply nowhere_cons; [reflexivity|]
    | apply nowhere_app; [apply (dead_chars _ _ c); [reflexivity | assumption]|]
    | apply (nowhere_inert _ _ c); [reflexivity | assumption] ].

Lemma no_lt (s : jstring) :
  Forall (fun c => c <> "<"%char) s -> Forall (fun x => chrMatches gi "<" x = false) s.
Proof. apply Forall_impl. intros x. apply chrMatches_lt. Qed.


(** *** Trimming *)

Lemma trimStart_head (s : jstring) : headNotBlank (trimStart s).
Proof.
  induction s as [|c s IH]; cbn; [exact I|].
  destruct (isWhiteSpace c) eqn:E; [exact IH | exact E].
Qed.

Lemma trimStart_fixed (s : jstring) : headNotBlank s -> trimStart s = s.
Proof. destruct s as [|c s]; cbn; [reflexivity|]. intros ->. reflexivity. Qed.

Lemma trimStart_snoc (a : jstring) (c : ascii) :
  isWhiteSpace c = false -> trimStart (a ++ [c]) = trimStart a ++ [c].
Proof.
  intros Hc. induction a as [|x a IH]; cbn.
  - rewrite Hc. reflexivity.
  - destruct (isWhiteSpace x); [exact IH | reflexivity].
Qed.

Lemma trimEnd_head (s : jstring) : headNotBlank s -> headNotBlank (trimEnd s).
Proof.
  unfold trimEnd. destruct s as [|c s]; cbn; [trivial|]. intros Hc.
  rewrite trimStart_snoc by exact Hc. rewrite rev_app_distr. exact Hc.
Qed.

Lemma trim_idempotent (s : jstring) : trim (trim s) = trim s.
Proof.
  unfold trim.
  rewrite (trimStart_fixed (trimEnd (trimStart s)))
    by (apply trimEnd_head, trimStart_head).
  unfold trimEnd. rewrite rev_involutive.
  rewrite (trimStart_fixed (trimStart (rev (trimStart s)))) by apply trimStart_head.
  reflexivity.
Qed.

(** C10. Entities are decoded after the tags are removed: the text
    [&lt;script&gt;alert(1)&lt;/script&gt;] passes the script removal
    untouched and leaves the sanitizer as a literal script block, whereas
    the same block written with literal angle brackets is removed. *)
Theorem encoded_script_survives :
  cleanHtmlContent Samples.encodedScript = lit "<script>alert(1)</script>" /\
  extractContentFromHtml Samples.encodedScript = lit "<script>alert(1)</script>" /\
  includes (lit "<script>") (cleanHtmlContent Samples.encodedScript) = true /\
  stripTags Samples.encodedScript = Samples.encodedScript /\
  cleanHtmlContent (lit "<script>alert(1)</script>") = [].
Proof. repeat split; vm_compute; reflexivity. Qed.

End SanitizerFacts.

(** ** The assembly of chapters *)

Section ChapterFacts.

Lemma chapterLoop_acc zip files i acc :
  chapterLoop zip files i acc = acc ++ chapterLoop zip files i [].
Proof.
  revert i acc. induction files as [|f files IH]; intros i acc; cbn.
  - symmetry. apply app_nil_r.
  - destruct (createChapterFromHtml zip f (i + 1)) as [ch|].
    + rewrite (IH (S i) (acc ++ [ch])), (IH (S i) [ch]), <- app_assoc. reflexivity.
    + apply IH.
Qed.

Lemma chapterLoop_cons zip f files i :
  chapterLoop zip (f :: files) i [] =
  match createChapterFromHtml zip f (S i) with
  | Some ch => ch :: chapterLoop zip files (S i) []
  | None => chapterLoop zip files (S i) []
  end.
Proof.
  cbn. rewrite Nat.add_1_r. destruct (createChapterFromHtml zip f (S i)); [|reflexivity].
  rewrite chapterLoop_acc. reflexivity.
Qed.

Lemma createChapter_id zip path k ch :
  createChapterFromHtml zip path k = Some ch -> id ch = chapterId k.
Proof.
  unfold createChapterFromHtml. destruct (truthy (file zip path)); [|discriminate].
  destruct (0 <? _); [|discriminate]. intros [= <-]. reflexivity.
Qed.

Lemma createChapter_content zip path k ch :
  createChapterFromHtml zip path k = Some ch ->
  exists html, truthy (file zip path) = Some html /\ content ch = extractContentFromHtml html.
Proof.
  unfold createChapterFromHtml. destruct (truthy (file zip path)) as [html|]; [|discriminate].
  destruct (0 <? _); [|discriminate]. intros [= <-]. exists html. auto.
Qed.

(** Whether a file yields a chapter does not depend on its ordinal. *)
Lemma createChapter_isSome zip path k k' :
  isSome (createChapterFromHtml zip path k) = isSome (createChapterFromHtml zip path k').
Proof.
  unfold createChapterFromHtml. destruct (truthy (file zip path)); [|reflexivity].
  destruct (0 <? _); reflexivity.
Qed.

Lemma chapterLoop_ids zip files i :
  map id (chapterLoop zip files i []) =
  map chapterId
    (filter (fun k => isSome (createChapterFromHtml zip (nth (k - 1 - i) files []) k))
            (seq (S i) (length files))).
Proof.
  revert i. induction files as [|f files IH]; intros i; [reflexivity|].
  rewrite chapterLoop_cons. cbn [length seq filter].
  replace (S i - 1 - i) with 0 by lia. change (nth 0 (f :: files) []) with f.
  assert (E : filter (fun k => isSome (createChapterFromHtml zip (nth (k - 1 - i) (f :: files) []) k))
                (seq (S (S i)) (length files))
            = filter (fun k => isSome (createChapterFromHtml zip (nth (k - 1 - S i) files []) k))
                (seq (S (S i)) (length files))).
  { apply filter_ext_in. intros k Hk. apply in_seq in Hk.
    replace (k - 1 - i) with (S (k - 1 - S i)) by lia. reflexivity. }
  rewrite E. destruct (createChapterFromHtml zip f (S i)) as [ch|] eqn:C; cbn.
  - rewrite (createChapter_id _ _ _ _ C), IH. reflexivity.
  - apply IH.
Qed.

Lemma filter_length_all {A} (p : A -> bool) (l : list A) :
  length (filter p l) = length l -> filter p l = l.
Proof.
  induction l as [|x l IH]; cbn; [reflexivity|].
  destruct (p x); cbn; intros H.
  - f_equal. apply IH. lia.
  - pose proof (filter_length_le p l). lia.
Qed.

Lemma StronglySorted_seq (a n : nat) : StronglySorted lt (seq a n).
Proof.
  revert a. induction n as [|n IH]; intros a; cbn; constructor; [apply IH|].
  apply Forall_forall. intros k Hk. apply in_seq in Hk. lia.
Qed.

Lemma StronglySorted_filter {A} (R : A -> A -> Prop) (p : A -> bool) (l : list A) :
  StronglySorted R l -> StronglySorted R (filter p l).
Proof.
  induction 1 as [|x l Hl IH Hx]; cbn; [constructor|].
  destruct (p x); [|exact IH]. constructor; [exact IH|].
  apply Forall_forall. intros y Hy. apply filter_In in Hy as [Hy _].
  rewrite Forall_forall in Hx. apply Hx, Hy.
Qed.

Lemma extract_is_a_loop zip :
  exists files, extractEpubContent (Some zip) = chapterLoop zip files 0 [].
Proof.
  unfold extractEpubContent, extractEpubContentIn.
  destruct (manifestChapters zip []) as [chs h1] eqn:M.
  destruct chs as [|c chs].
  - destruct (extractHtmlFilesDirectly zip h1) as [files h2]. exists files. reflexivity.
  - unfold manifestChapters in M.
    destruct (truthy (file zip (lit "META-INF/container.xml"))) as [containerXml|];
      [|discriminate].
    destruct (search gi rootfileRe containerXml) as [opfMatch|]; [|discriminate].
    destruct (truthy (file zip (group1 opfMatch))) as [opfContent|]; [|discriminate].
    destruct (extractHtmlFilesFromOpf zip opfContent []) as [files h].
    injection M as M _.
    exists files. cbn. symmetry. exact M.
Qed.

(** C3. The id of a chapter is [chapter-k] where [k] is the position, counted
    from 1, of its content file in the list of discovered files: the ids
    increase along the sequence, and they are [chapter-1] .. [chapter-N]
    when no file of the list is dropped.  Every extraction is such a loop
    over a list of files. *)
Theorem chapter_ids_follow_positions (zip : archive) (htmlFiles : list jstring) :
  map id (chapterLoop zip htmlFiles 0 []) = map chapterId (keptOrdinals zip htmlFiles) /\
  StronglySorted lt (keptOrdinals zip htmlFiles) /\
  Forall (fun k => 1 <= k <= length htmlFiles) (keptOrdinals zip htmlFiles) /\
  (length (chapterLoop zip htmlFiles 0 []) = length htmlFiles ->
   contiguousIds (chapterLoop zip htmlFiles 0 [])) /\
  exists files, extractEpubContent (Some zip) = chapterLoop zip files 0 [].
Proof.
  assert (E : map id (chapterLoop zip htmlFiles 0 []) = map chapterId (keptOrdinals zip htmlFiles)).
  { rewrite chapterLoop_ids. unfold keptOrdinals. f_equal. apply filter_ext.
    intros k. rewrite Nat.sub_0_r. reflexivity. }
  split; [exact E|].
  split; [apply StronglySorted_filter, StronglySorted_seq|].
  split; [apply Forall_forall; intros k Hk; apply filter_In in Hk as [Hk _];
          apply in_seq in Hk; lia|].
  split; [|apply extract_is_a_loop].
  intros L. unfold contiguousIds. rewrite E.
  assert (K : keptOrdinals zip htmlFiles = seq 1 (length htmlFiles)).
  { apply filter_length_all.
    change (length (keptOrdinals zip htmlFiles) = length (seq 1 (length htmlFiles))).
    rewrite length_seq.
    transitivity (length (map chapterId (keptOrdinals zip htmlFiles)));
      [symmetry; apply length_map|].
    rewrite <- E, length_map. exact L. }
  rewrite K, L. reflexivity.
Qed.

Lemma chapter_ids_follow_positions_witness :
  contiguousIds (chapterLoop Samples.book [lit "OEBPS/chap1.xhtml"; lit "OEBPS/chap2.xhtml"] 0 []).
Proof.
  refine (proj1 (proj2 (proj2 (proj2 (chapter_ids_follow_positions Samples.book
            [lit "OEBPS/chap1.xhtml"; lit "OEBPS/chap2.xhtml"])))) _).
  reflexivity.
Defined.

(** With a blank second file the ids are [chapter-1] and [chapter-3]. *)
Lemma dropped_file_leaves_gap :
  map id (extractEpubContent (Some Samples.gapArchive)) = [chapterId 1; chapterId 3] /\
  ~ contiguousIds (extractEpubContent (Some Samples.gapArchive)).
Proof. split; [vm_compute; reflexivity | vm_compute; discriminate]. Qed.

End ChapterFacts.

(** ** The direct scan *)

Section DirectScanFacts.

Lemma startsWith_spec p s : startsWith p s = true <-> exists t, s = p ++ t.
Proof.
  revert s. induction p as [|a p IH]; intros s; cbn.
  - split; [exists s; reflexivity | reflexivity].
  - destruct s as [|b s]; [split; [discriminate | intros [t H]; discriminate]|].
    rewrite Bool.andb_true_iff, IH. split.
    + intros [E [t ->]]. apply Ascii.eqb_eq in E as ->. exists t. reflexivity.
    + intros [t [= -> ->]]. split; [apply Ascii.eqb_refl | exists t; reflexivity].
Qed.

Lemma endsWith_spec p s : endsWith p s = true <-> exists u, s = u ++ p.
Proof.
  unfold endsWith. rewrite startsWith_spec. split.
  - intros [t H]. exists (rev t). rewrite <- (rev_involutive s), H, rev_app_distr, rev_involutive.
    reflexivity.
  - intros [u ->]. exists (rev u). apply rev_app_distr.
Qed.

Lemma chrMatches_gi c x : chrMatches gi c x = true <-> canonicalize x = canonicalize c.
Proof. unfold chrMatches. cbn. rewrite Ascii.eqb_eq. split; congruence. Qed.

Lemma upper_app a b : upper (a ++ b) = upper a ++ upper b.
Proof. apply map_app. Qed.

Lemma upper_split s u v : upper s = u ++ v -> exists a b, s = a ++ b /\ upper a = u /\ upper b = v.
Proof.
  unfold upper. revert u. induction s as [|c s IH]; intros u H; cbn in H.
  - symmetry in H. apply app_eq_nil in H as [-> ->]. exists [], []. auto.
  - destruct u as [|x u]; cbn in H.
    + exists [], (c :: s). subst v. auto.
    + injection H as <- H. destruct (IH u H) as (a & b & -> & <- & <-).
      exists (c :: a), b. auto.
Qed.

Lemma search_isSome f r s :
  isSome (search f r s) = true <-> exists u v, s = u ++ v /\ matchHere f r v <> None.
Proof.
  split.
  - destruct (search f r s) as [m|] eqn:E; [|discriminate]. intros _.
    destruct (search_sound _ _ _ _ E) as (u & Hs & Hm).
    exists u, (whole m ++ rest m). split; [exact Hs | rewrite Hm; discriminate].
  - intros (u & v & -> & H). pose proof (search_some f r u v H).
    destruct (search f r (u ++ v)); [reflexivity | contradiction].
Qed.

Ltac invert_matches :=
  repeat match goal with
  | H : Matches _ (Seq _ _) _ _ |- _ => inversion H; subst; clear H
  | H : Matches _ (Alt _ _) _ _ |- _ => inversion H; subst; clear H
  | H : Matches _ (Group _) _ _ |- _ => inversion H; subst; clear H
  | H : Matches _ (Chr _) _ _ |- _ => inversion H; subst; clear H
  | H : Matches _ EndAnchor _ _ |- _ => inversion H; subst; clear H
  end.

Lemma htmlSuffix_matches v t :
  Matches gi htmlSuffixRe v t <-> t = [] /\ (upper v = lit ".HTML" \/ upper v = lit ".XHTML").
Proof.
  split.
  - intros M. unfold htmlSuffixRe in M. cbn [chars] in M. invert_matches;
      repeat match goal with H : chrMatches gi _ _ = true |- _ => apply chrMatches_gi in H end;
      (split; [repeat (destruct b; try discriminate); try reflexivity;
               match goal with H : _ ++ _ = [] |- _ => apply app_eq_nil in H; tauto end|]).
    all: cbn; unfold upper; cbn.
    all: repeat match goal with H : canonicalize _ = _ |- _ => rewrite H; clear H end.
    all: auto.
  - intros [-> H]. unfold htmlSuffixRe. cbn [chars].
    assert (C : forall c x, canonicalize x = canonicalize c -> Matches gi (Chr c) [x] [])
      by (intros; constructor; apply chrMatches_gi; assumption).
    assert (C' : forall c x t, canonicalize x = canonicalize c -> Matches gi (Chr c) [x] t)
      by (intros; constructor; apply chrMatches_gi; assumption).
    destruct H as [H|H].
    + destruct v as [|x0 [|x1 [|x2 [|x3 [|x4 [|? ?]]]]]]; try discriminate.
      injection H as H0 H1 H2 H3 H4.
      apply (MatchesSeq gi (Chr ".") _ [x0] [x1; x2; x3; x4] []); [apply C'; exact H0|].
      apply (MatchesSeq gi (Group _) _ [x1; x2; x3; x4] [] []); [|constructor].
      constructor. apply MatchesAltL.
      apply (MatchesSeq gi (Chr "h") _ [x1] [x2; x3; x4] _); [apply C'; exact H1|].
      apply (MatchesSeq gi (Chr "t") _ [x2] [x3; x4] _); [apply C'; exact H2|].
      apply (MatchesSeq gi (Chr "m") _ [x3] [x4] _); [apply C'; exact H3|].
      apply C'; exact H4.
    + destruct v as [|x0 [|x1 [|x2 [|x3 [|x4 [|x5 [|? ?]]]]]]]; try discriminate.
      injection H as H0 H1 H2 H3 H4 H5.
      apply (MatchesSeq gi (Chr ".") _ [x0] [x1; x2; x3; x4; x5] []); [apply C'; exact H0|].
      apply (MatchesSeq gi (Group _) _ [x1; x2; x3; x4; x5] [] []); [|constructor].
      constructor. apply MatchesAltR.
      apply (MatchesSeq gi (Chr "x") _ [x1] [x2; x3; x4; x5] _); [apply C'; exact H1|].
      apply (MatchesSeq gi (Chr "h") _ [x2] [x3; x4; x5] _); [apply C'; exact H2|].
      apply (MatchesSeq gi (Chr "t") _ [x3] [x4; x5] _); [apply C'; exact H3|].
      apply (MatchesSeq gi (Chr "m") _ [x4] [x5] _); [apply C'; exact H4|].
      apply C'; exact H5.
Qed.

Lemma matchHere_iff f r s :
  matchHere f r s <> None <-> exists a t, s = a ++ t /\ Matches f r a t.
Proof.
  split.
  - destruct (matchHere f r s) as [m|] eqn:E; [|contradiction]. intros _.
    destruct (matchHere_sound _ _ _ _ E) as [Hs M]. exists (whole m), (rest m). auto.
  - intros (a & t & -> & M). apply matchHere_complete, M.
Qed.

Lemma htmlSuffix_search name :
  isSome (search gi htmlSuffixRe name) = hasContentSuffix name.
Proof.
  apply Bool.eq_true_iff_eq. rewrite search_isSome. unfold hasContentSuffix.
  rewrite Bool.orb_true_iff, !endsWith_spec. split.
  - intros (u & v & -> & H). apply matchHere_iff in H as (a & t & -> & M).
    apply htmlSuffix_matches in M as [-> [H|H]]; rewrite app_nil_r, upper_app, H;
      [left | right]; eexists; reflexivity.
  - intros [[u H]|[u H]]; apply upper_split in H as (a & b & -> & _ & H);
      exists a, b; (split; [reflexivity|]); apply matchHere_iff;
      exists b, []; (split; [symmetry; apply app_nil_r|]);
      apply htmlSuffix_matches; auto.
Qed.

Lemma directLoop_files zip names acc h :
  fst (directLoop zip names acc h) =
  acc ++ filter (fun name => hasContentSuffix name && negb (includes (lit "META-INF") name)) names.
Proof.
  revert acc h. induction names as [|n names IH]; intros acc h; cbn [directLoop filter].
  - symmetry. apply app_nil_r.
  - rewrite IH, htmlSuffix_search.
    destruct (hasContentSuffix n && negb (includes (lit "META-INF") n)).
    + rewrite <- app_assoc. reflexivity.
    + reflexivity.
Qed.

Lemma extractHtmlFilesDirectly_files zip h :
  fst (extractHtmlFilesDirectly zip h) = directScan zip.
Proof. unfold extractHtmlFilesDirectly. rewrite directLoop_files. reflexivity. Qed.

Lemma fallback_chapters zip :
  fst (manifestChapters zip []) = [] ->
  extractEpubContent (Some zip) = chapterLoop zip (directScan zip) 0 [].
Proof.
  unfold extractEpubContent, extractEpubContentIn.
  destruct (manifestChapters zip []) as [chs h1]. cbn. intros ->.
  rewrite <- (extractHtmlFilesDirectly_files zip h1).
  destruct (extractHtmlFilesDirectly zip h1). reflexivity.
Qed.

Lemma no_container zip h :
  file zip (lit "META-INF/container.xml") = None -> manifestChapters zip h = ([], h).
Proof. unfold manifestChapters. intros ->. reflexivity. Qed.

Lemma no_content_paths zip h containerXml opfMatch opfContent :
  truthy (file zip (lit "META-INF/container.xml")) = Some containerXml ->
  search gi rootfileRe containerXml = Some opfMatch ->
  truthy (file zip (group1 opfMatch)) = Some opfContent ->
  fst (extractHtmlFilesFromOpf zip opfContent h) = [] ->
  fst (manifestChapters zip h) = [].
Proof.
  unfold manifestChapters. intros -> -> ->.
  destruct (extractHtmlFilesFromOpf zip opfContent h) as [files h1]. cbn. intros ->. reflexivity.
Qed.


Lemma chapterLoop_all zip files i :
  Forall (fun path => createChapterFromHtml zip path 0 <> None) files ->
  length (chapterLoop zip files i []) = length files.
Proof.
  revert i. induction files as [|f files IH]; intros i H; [reflexivity|].
  inversion H as [|? ? Hf Hfiles]; subst.
  rewrite chapterLoop_cons.
  pose proof (createChapter_isSome zip f 0 (S i)) as E.
  destruct (createChapterFromHtml zip f (S i)); cbn.
  - f_equal. apply IH, Hfiles.
  - destruct (createChapterFromHtml zip f 0); [discriminate | contradiction].
Qed.

(** C6. When the archive has no container descriptor, or the manifest
    declares no content path, or more generally no chapter was found through
    the manifest, the chapters are assembled from the direct scan: the
    entries, in the enumeration order of the archive, whose name ends in
    [.html] or [.xhtml] in any case and does not contain the text META-INF
    anywhere.  If each of them yields a chapter there are as many chapters
    as such entries, and no error is reported to the caller. *)
Theorem direct_scan_fallback (zip : archive) :
  file zip (lit "META-INF/container.xml") = None \/
  (exists containerXml opfMatch opfContent,
     truthy (file zip (lit "META-INF/container.xml")) = Some containerXml /\
     search gi rootfileRe containerXml = Some opfMatch /\
     truthy (file zip (group1 opfMatch)) = Some opfContent /\
     fst (extractHtmlFilesFromOpf zip opfContent []) = []) \/
  fst (manifestChapters zip []) = [] ->
  (forall h, fst (extractHtmlFilesDirectly zip h) = directScan zip) /\
  extractEpubContent (Some zip) = chapterLoop zip (directScan zip) 0 [] /\
  (Forall (fun path => createChapterFromHtml zip path 0 <> None) (directScan zip) ->
   length (extractEpubContent (Some zip)) = length (directScan zip)) /\
  error (processEpubContent (Some zip)) = None.
Proof.
  intros Trigger.
  assert (M : fst (manifestChapters zip []) = []).
  { destruct Trigger as [H|[(containerXml & opfMatch & opfContent & Hc & Hr & Ho & Hp)|H]].
    - rewrite (no_container zip [] H). reflexivity.
    - exact (no_content_paths zip [] _ _ _ Hc Hr Ho Hp).
    - exact H. }
  split; [intros h; apply extractHtmlFilesDirectly_files|].
  split; [apply fallback_chapters, M|].
  split; [|reflexivity].
  intros H. rewrite (fallback_chapters zip M). apply chapterLoop_all, H.
Qed.

Lemma direct_scan_fallback_witness :
  length (extractEpubContent (Some Samples.looseArchive)) = 3.
Proof.
  refine (proj1 (proj2 (proj2 (direct_scan_fallback Samples.looseArchive
                                 (or_introl eq_refl)))) _).
  repeat constructor; intros H; vm_compute in H; discriminate H.
Defined.

Lemma loose_archive_chapters :
  map content (extractEpubContent (Some Samples.looseArchive)) =
  [lit "<p>second</p>"; lit "<p>first</p>"; lit "<p>notes</p>"].
Proof. vm_compute. reflexivity. Qed.

(** An entry outside the metadata directory whose name contains META-INF
    is not collected. *)
Lemma meta_named_entry_is_skipped :
  fst (extractHtmlFilesDirectly Samples.metaNamedArchive []) <> directScanBySpec Samples.metaNamedArchive.
Proof. vm_compute. discriminate. Qed.

End DirectScanFacts.

(** ** The manifest *)

Section ManifestFacts.

Lemma Matches_rest f r a t t' : anchorFree r = true -> Matches f r a t -> Matches f r a t'.
Proof.
  intros A M. revert t'. induction M; intros t'; cbn in A;
    try apply andb_prop in A as [A1 A2]; try discriminate.
  - constructor; assumption.
  - constructor; assumption.
  - constructor; auto.
  - apply MatchesAltL; auto.
  - apply MatchesAltR; auto.
  - constructor; assumption.
  - constructor; assumption.
  - constructor; auto.
Qed.

Lemma item_holds_href a t :
  Matches gi itemHtmlRe a t ->
  exists u v w, a = u ++ v ++ w /\ Matches gi hrefHtmlRe v w.
Proof.
  unfold itemHtmlRe. intros M.
  inversion M as [| |? ? a1 b1 ? M1 M2| | | | | |]; subst; clear M.
  inversion M2 as [| |? ? a2 b2 ? M3 M4| | | | | |]; subst; clear M2.
  inversion M4 as [| |? ? a3 b3 ? M5 M6| | | | | |]; subst; clear M4.
  exists (a1 ++ a2), a3, b3. split; [rewrite <- app_assoc; reflexivity|].
  apply (Matches_rest gi hrefHtmlRe a3 (b3 ++ t)); [reflexivity | exact M5].
Qed.

Lemma href_found v m :
  matchHere gi itemHtmlRe v = Some m -> search gi hrefHtmlRe (whole m) <> None.
Proof.
  intros H. apply matchHere_sound in H as [_ M].
  apply item_holds_href in M as (u & a & w & -> & M).
  apply search_some, matchHere_complete, M.
Qed.

(** What group 1 holds once the group has matched. *)
Lemma run_group_sound {R} f r cap s (k : cont R) res :
  run f (Group r) cap s k = Some res ->
  exists a t, s = a ++ t /\ Matches f r a t /\ k (Some a) t = Some res.
Proof.
  cbn [run]. intros H. apply run_sound in H as (a & t & _ & -> & M & H).
  rewrite firstn_app_exact in H. exists a, t. auto.
Qed.

Lemma run_seq_sound {R} f r1 r2 cap s (k : cont R) res :
  run f (Seq r1 r2) cap s k = Some res ->
  exists a t cap', s = a ++ t /\ Matches f r1 a t /\ run f r2 cap' t k = Some res.
Proof. cbn [run]. apply run_sound. Qed.

Lemma run_seq_group_sound {R} f r r2 cap s (k : cont R) res :
  run f (Seq (Group r) r2) cap s k = Some res ->
  exists a t, s = a ++ t /\ Matches f r a t /\ run f r2 (Some a) t k = Some res.
Proof.
  intros H. change (run f (Group r) cap s (fun cap1 s1 => run f r2 cap1 s1 k) = Some res) in H.
  apply run_group_sound in H. exact H.
Qed.

Lemma hrefHtml_capture s m :
  matchHere gi hrefHtmlRe s = Some m -> hasContentSuffix (group1 m) = true.
Proof.
  unfold matchHere, hrefHtmlRe. intros H.
  apply run_seq_sound in H as (a1 & t1 & cap1 & E1 & _ & H).
  apply run_seq_sound in H as (a2 & t2 & cap2 & E2 & _ & H).
  apply run_seq_group_sound in H as (a & t & E & M & H).
  cbn [run] in H. destruct t as [|y t]; [discriminate|].
  destruct (chrMatches gi dq y); [|discriminate].
  injection H as <-. cbn [group1].
  inversion M as [| |? ? a3 b3 ? M1 M2| | | | | |]; subst; clear M.
  inversion M2 as [| |? ? a4 b4 ? M3 M4| | | | | |]; subst; clear M2.
  assert (Suffix : Matches gi htmlSuffixRe (a4 ++ b4) []).
  { unfold htmlSuffixRe.
    apply (MatchesSeq gi (Chr ".") _ a4 b4 []).
    - apply (Matches_rest gi (Chr ".") a4 (b4 ++ y :: t)); [reflexivity | exact M3].
    - rewrite <- (app_nil_r b4). apply (MatchesSeq gi (Group _) EndAnchor b4 [] []); [|constructor].
      constructor. apply (Matches_rest gi _ b4 (y :: t)); [reflexivity | exact M4]. }
  rewrite <- htmlSuffix_search. apply search_isSome.
  exists a3, (a4 ++ b4). split; [reflexivity|].
  rewrite <- (app_nil_r (a4 ++ b4)). apply matchHere_complete. exact Suffix.
Qed.

Lemma hrefOf_suffix v m :
  matchHere gi itemHtmlRe v = Some m -> hasContentSuffix (hrefOf (whole m)) = true.
Proof.
  intros H. pose proof (href_found v m H) as F. unfold hrefOf.
  destruct (search gi hrefHtmlRe (whole m)) as [h|] eqn:E; [|contradiction].
  apply search_sound in E as (u & _ & E). exact (hrefHtml_capture _ _ E).
Qed.

Lemma hrefsOf_all basePath (matches : list jstring) :
  Forall (fun w => search gi hrefHtmlRe w <> None) matches ->
  hrefsOf hrefHtmlRe basePath matches = map (fun w => basePath ++ hrefOf w) matches.
Proof.
  induction 1 as [|w ms Hw Hms IH]; cbn; [reflexivity|].
  unfold hrefOf at 1. destruct (search gi hrefHtmlRe w); [|contradiction].
  rewrite IH. reflexivity.
Qed.

Lemma scan_at f r s o m :
  In (o, m) (scan f r s 0 0) -> o <= length s /\ matchHere f r (skipn o s) = Some m.
Proof.
  intros H. apply scan_sound in H as (u & v & -> & -> & Hm). cbn.
  rewrite length_app, skipn_app, Nat.sub_diag, skipn_all. cbn. split; [lia | exact Hm].
Qed.


Lemma manifest_paths zip opfContent h :
  fst (extractHtmlFilesFromOpf zip opfContent h) =
  map (fun om => basePathOf zip ++ hrefOf (whole (snd om))) (scan gi itemHtmlRe opfContent 0 0).
Proof.
  unfold extractHtmlFilesFromOpf. cbn [fst]. unfold matchAll.
  rewrite hrefsOf_all.
  - rewrite map_map. reflexivity.
  - apply Forall_forall. intros w Hw. apply in_map_iff in Hw as ([o m] & <- & Hin).
    apply scan_at in Hin as [_ Hm]. exact (href_found _ _ Hm).
Qed.



(** *** Independence of the order of the archive *)


Lemma file_Some zip name text : file zip name = Some text -> In (name, text) zip.
Proof.
  induction zip as [|[n t] zip IH]; cbn; [discriminate|].
  destruct (list_eq_dec ascii_dec n name) as [->|]; [intros [= ->]; auto | auto].
Qed.


Section SameFiles.
Variables zip zip' : archive.
Hypothesis same : forall name, file zip' name = file zip name.



End SameFiles.





(** *** The base path *)

Lemma find_permutation {A} (p : A -> bool) (l l' : list A) :
  Permutation l l' ->
  (forall x y, In x l -> In y l -> p x = true -> p y = true -> x = y) ->
  find p l' = find p l.
Proof.
  intros P U.
  destruct (find p l) as [x|] eqn:F.
  - apply find_some in F as [Hx Px].
    destruct (find p l') as [y|] eqn:F'.
    + apply find_some in F' as [Hy Py]. f_equal.
      apply U; [apply (Permutation_in _ (Permutation_sym P)), Hy | assumption..].
    + exfalso. pose proof (find_none _ _ F' x (Permutation_in _ P Hx)) as N. congruence.
  - destruct (find p l') as [y|] eqn:F'; [|reflexivity].
    apply find_some in F' as [Hy Py].
    pose proof (find_none _ _ F y (Permutation_in _ (Permutation_sym P) Hy)) as N. congruence.
Qed.

(** With at most one entry named [*.opf], the base path does not depend on
    the order of the archive. *)
Lemma basePathOf_permutation (zip zip' : archive) :
  Permutation zip zip' ->
  (forall a b, In a (keys zip) -> In b (keys zip) ->
     endsWith (lit ".opf") a = true -> endsWith (lit ".opf") b = true -> a = b) ->
  basePathOf zip' = basePathOf zip.
Proof.
  intros P U. unfold basePathOf.
  rewrite (find_permutation _ (keys zip) (keys zip') (Permutation_map fst P) U).
  reflexivity.
Qed.

Lemma basePathOf_first zip name :
  find (endsWith (lit ".opf")) (keys zip) = Some name -> basePathOf zip = dirname name.
Proof. unfold basePathOf. intros ->. reflexivity. Qed.

Lemma find_first {A} (p : A -> bool) (l : list A) (x : A) :
  find p l = Some x ->
  exists a b, l = a ++ x :: b /\ p x = true /\ Forall (fun y => p y = false) a.
Proof.
  induction l as [|y l IH]; cbn; [discriminate|].
  destruct (p y) eqn:E.
  - intros [= ->]. exists [], l. auto.
  - intros H. destruct (IH H) as (a & b & -> & Hx & Ha). exists (y :: a), b. auto.
Qed.

(** C5. The base path is the directory of the first entry of the archive
    whose name ends in [.opf], wherever the container descriptor points, and
    is empty when there is no such entry: the manifest of the sample book is
    [OEBPS/content.opf], yet its references are resolved against [backup/],
    the directory of an older manifest stored in front of it. *)
Theorem base_path_is_first_opf_entry (zip : archive) (opfContent : jstring) (h : head) :
  (forall name, find (endsWith (lit ".opf")) (keys zip) = Some name ->
     fst (extractHtmlFilesFromOpf zip opfContent h) =
     resolvedBySpec name (matchAll gi itemHtmlRe opfContent) /\
     exists before after,
       keys zip = before ++ name :: after /\
       Forall (fun other => endsWith (lit ".opf") other = false) before) /\
  (find (endsWith (lit ".opf")) (keys zip) = None ->
     fst (extractHtmlFilesFromOpf zip opfContent h) =
     map hrefOf (matchAll gi itemHtmlRe opfContent)) /\
  fst (extractHtmlFilesFromOpf Samples.bookWithBackup Samples.bookManifest []) =
    [lit "backup/chap1.xhtml"; lit "backup/chap2.xhtml"] /\
  resolvedBySpec (lit "OEBPS/content.opf") (matchAll gi itemHtmlRe Samples.bookManifest) =
    [lit "OEBPS/chap1.xhtml"; lit "OEBPS/chap2.xhtml"].
Proof.
  assert (E : fst (extractHtmlFilesFromOpf zip opfContent h) =
              map (fun d => basePathOf zip ++ hrefOf d) (matchAll gi itemHtmlRe opfContent)).
  { rewrite manifest_paths. unfold matchAll. rewrite map_map. reflexivity. }
  split; [|split; [|split; vm_compute; reflexivity]].
  - intros name F. split.
    + rewrite E, (basePathOf_first zip name F). reflexivity.
    + destruct (find_first _ _ _ F) as (a & b & K & _ & Ha). exists a, b. auto.
  - intros F. rewrite E. unfold basePathOf. rewrite F. reflexivity.
Qed.

Lemma base_path_is_first_opf_entry_witness :
  fst (extractHtmlFilesFromOpf Samples.bookWithBackup Samples.bookManifest []) =
  resolvedBySpec (lit "backup/old.opf") (matchAll gi itemHtmlRe Samples.bookManifest).
Proof.
  exact (proj1 (proj1 (base_path_is_first_opf_entry Samples.bookWithBackup Samples.bookManifest [])
                  (lit "backup/old.opf") eq_refl)).
Defined.

End ManifestFacts.

(** ** Chapter titles *)

Section TitleFacts.

Lemma matchHere_element (tag : string) (attrs t post : jstring) :
  Forall (fun c => c <> ">"%char) attrs ->
  Forall (fun c => c <> "<"%char /\ dot c = true) t ->
  matchHere gi (elementRe tag)
    (lit ("<" ++ tag) ++ attrs ++ ">"%char :: t ++ lit ("</" ++ tag ++ ">") ++ post)
  = Some {| whole := lit ("<" ++ tag) ++ attrs ++ ">"%char :: t ++ lit ("</" ++ tag ++ ">");
            group1 := t;
            rest := post |}.
Proof.
  intros Ha Ht. unfold matchHere, elementRe. cbn [run].
  rewrite run_chars.
  assert (Dead : forall R cap c u (k : cont R), c <> "<"%char ->
            run gi (chars ("</" ++ tag ++ ">")) cap (c :: u) k = None).
  { intros R cap c u k Hc. apply (run_firstChar gi _ "<"%char); [reflexivity|].
    apply chrMatches_lt, Hc. }
  rewrite starGreedy_span.
  - rewrite chrMatches_refl.
    rewrite starLazy_skip
      by (eapply Forall_impl; [|exact Ht]; intros c [Hc Hd]; split; [exact Hd|];
          intros u; apply Dead, Hc).
    erewrite starLazy_hit; [reflexivity|].
    rewrite run_chars. f_equal. f_equal.
    + apply firstn_app_exact_eq.
      rewrite <- !app_assoc. cbn [app]. rewrite <- !app_assoc. reflexivity.
    + apply firstn_app_exact.
  - apply Forall_notChar, Ha.
  - reflexivity.
  - rewrite chrMatches_refl.
    rewrite starLazy_skip
      by (eapply Forall_impl; [|exact Ht]; intros c [Hc Hd]; split; [exact Hd|];
          intros u; apply Dead, Hc).
    erewrite starLazy_hit; [discriminate|]. rewrite run_chars. reflexivity.
Qed.

Lemma search_copy (f : flags) (r : regex) (a s : jstring) :
  Forall (fun x => forall u, matchHere f r (x :: u) = None) a ->
  search f r (a ++ s) = search f r s.
Proof.
  induction 1 as [|x a Hx Ha IH]; [reflexivity|].
  cbn. rewrite Hx. exact IH.
Qed.

Lemma dot_not_break (c : ascii) : dot c = true -> c <> CR /\ c <> LF.
Proof. intros H. split; intros ->; discriminate H. Qed.

Lemma split_line (sep : ascii) (t : jstring) :
  Forall (fun c => c <> sep) t -> JS.split sep t = [t].
Proof.
  induction 1 as [|c t Hc Ht IH]; cbn; [reflexivity|].
  rewrite IH. destruct (Ascii.eqb_spec c sep); [contradiction | reflexivity].
Qed.

Lemma cleanTextContent_line (t : jstring) :
  Forall (fun c => c <> "<"%char /\ dot c = true) t ->
  trim t <> [] ->
  cleanTextContent t = substring0 20000 (trim t).
Proof.
  intros Ht Hne. unfold cleanTextContent. f_equal.
  rewrite (replaceAll_inert g anyTagRe "<"%char) by
    first [reflexivity
          | eapply Forall_impl; [|exact Ht]; intros c [Hc _]; apply chrMatches_lt, Hc].
  rewrite !(replaceAll_inert g _ CR _ t) by
    first [reflexivity
          | eapply Forall_impl; [|exact Ht]; intros c [_ Hd];
            apply dot_not_break in Hd as [Hd _]; apply Ascii.eqb_neq; congruence].
  rewrite split_line by
    (eapply Forall_impl; [|exact Ht]; intros c [_ Hd]; apply dot_not_break in Hd; tauto).
  cbn [map filter]. destruct (trim t) as [|c u]; [contradiction | reflexivity].
Qed.

(** The text of a [title] element that follows text without tags is the title. *)
Lemma title_element_wins (pre attrs t post : jstring) :
  Forall (fun c => c <> "<"%char) pre ->
  Forall (fun c => c <> ">"%char) attrs ->
  Forall (fun c => c <> "<"%char /\ dot c = true) t ->
  trim t <> [] ->
  extractTitleFromHtml (pre ++ lit "<title" ++ attrs ++ ">"%char :: t ++ lit "</title>" ++ post)
  = Some (substring0 20000 (trim t)).
Proof.
  intros Hpre Ha Ht Hne. unfold extractTitleFromHtml, titlePatterns. cbn [firstTitle].
  rewrite search_copy.
  2:{ apply (dead_chars gi _ "<"%char); [reflexivity | apply no_lt, Hpre]. }
  assert (M := matchHere_element "title" attrs t post Ha Ht).
  change (lit ("<" ++ "title")) with (lit "<title") in M.
  change (lit ("</" ++ "title" ++ ">")) with (lit "</title>") in M.
  assert (Found : search gi (elementRe "title")
                (lit "<title" ++ attrs ++ ">"%char :: t ++ lit "</title>" ++ post)
              = Some {| whole := lit "<title" ++ attrs ++ ">"%char :: t ++ lit "</title>";
                        group1 := t; rest := post |}).
  { cbn [lit list_ascii_of_string app] in *. cbn [search]. rewrite M. reflexivity. }
  rewrite Found. cbn [group1].
  destruct (trim t) as [|c u] eqn:E; [contradiction|].
  cbn [length Nat.ltb Nat.leb]. rewrite cleanTextContent_line by (try assumption; rewrite E; discriminate).
  rewrite E. reflexivity.
Qed.

Lemma firstTitle_find patterns html :
  firstTitle patterns html =
  option_map cleanTextContent
    (find (fun raw => notEmpty (trim raw))
       (flat_map (fun pattern =>
                    match search gi pattern html with
                    | Some m => [group1 m]
                    | None => []
                    end) patterns)).
Proof.
  induction patterns as [|p patterns IH]; [reflexivity|].
  cbn [firstTitle flat_map].
  destruct (search gi p html) as [m|]; cbn [app find]; [|exact IH].
  unfold notEmpty at 1. destruct (0 <? length (trim (group1 m))); [reflexivity | exact IH].
Qed.

Lemma truthy_notEmpty (o : option jstring) :
  truthy o = match o with
             | Some s => if notEmpty s then Some s else None
             | None => None
             end.
Proof. destruct o as [[|c s]|]; reflexivity. Qed.

Lemma createChapter_title zip path n ch :
  createChapterFromHtml zip path n = Some ch ->
  exists html, truthy (file zip path) = Some html /\ title ch = titleByCode html n.
Proof.
  unfold createChapterFromHtml.
  destruct (truthy (file zip path)) as [html|]; [|discriminate].
  destruct (0 <? _); [|discriminate]. intros [= <-]. exists html. split; [reflexivity|].
  cbn [title]. unfold titleByCode, extractTitleFromHtml.
  rewrite firstTitle_find, truthy_notEmpty. fold (captures html).
  destruct (find _ (captures html)) as [raw|]; cbn [option_map]; [|reflexivity].
  destruct (notEmpty (cleanTextContent raw)); reflexivity.
Qed.

Lemma cleanTextContent_length raw : length (cleanTextContent raw) <= 20000.
Proof. unfold cleanTextContent, substring0. apply firstn_le_length. Qed.

Lemma find_map {A B} (f : A -> B) (p : B -> bool) (l : list A) :
  find p (map f l) = option_map f (find (fun x => p (f x)) l).
Proof.
  induction l as [|x l IH]; cbn; [reflexivity|]. destruct (p (f x)); [reflexivity | exact IH].
Qed.

Lemma find_ext_in {A} (p q : A -> bool) (l : list A) :
  (forall x, In x l -> p x = q x) -> find p l = find q l.
Proof.
  induction l as [|x l IH]; cbn; intros H; [reflexivity|].
  rewrite (H x (or_introl eq_refl)). destruct (q x); [reflexivity|].
  apply IH. intros y Hy. apply H. right. exact Hy.
Qed.

Lemma titles_agree html n :
  (forall raw, In raw (captures html) ->
     notEmpty (trim raw) = notEmpty (cleanTextContent raw)) ->
  titleByCode html n = titleBySpec html n.
Proof.
  intros H. unfold titleByCode, titleBySpec.
  rewrite find_map, (find_ext_in _ (fun raw => notEmpty (cleanTextContent raw)) _ H).
  destruct (find _ (captures html)) as [raw|] eqn:F; cbn [option_map]; [|reflexivity].
  apply find_some in F as [_ ->]. reflexivity.
Qed.

(** A heading that holds only an image stops the search: the chapter is
    titled [Chapter 1] although the next heading has a title. *)
Lemma image_heading_hides_later_headings :
  option_map title (createChapterFromHtml [(lit "ch.xhtml", Samples.imageHeading)] (lit "ch.xhtml") 1)
    = Some (lit "Chapter 1") /\
  titleBySpec Samples.imageHeading 1 = lit "Real title" /\
  titleBySpec Samples.imageHeading 1 <> lit "Chapter 1".
Proof. repeat split; vm_compute; try reflexivity; discriminate. Qed.

End TitleFacts.

(** ** The markup of a page *)

Section PageMarkup.
Import Pdf PdfView.
#[local] Open Scope Z_scope.

Lemma replaceAll_Chr (c : ascii) (by_ s : jstring) :
  replaceAll g (Chr c) by_ s = flat_map (fun x => if Ascii.eqb c x then by_ else [x]) s.
Proof.
  unfold replaceAll. induction s as [|x s IH]; [reflexivity|].
  cbn [replaceFrom flat_map]. unfold matchHere. cbn [run]. unfold chrMatches. cbn [ignoreCase g].
  destruct (Ascii.eqb c x).
  - cbn [whole]. replace (length (x :: s) - length s)%nat with 1%nat by (cbn [length]; lia).
    cbn [firstn length]. rewrite IH. reflexivity.
  - rewrite IH. reflexivity.
Qed.


Lemma escape_chars (s : jstring) :
  escape s =
  flat_map (fun x => if Ascii.eqb ">" x then lit "&gt;" else [x])
    (flat_map (fun x => if Ascii.eqb "<" x then lit "&lt;" else [x]) s).
Proof. unfold escape. rewrite !replaceAll_Chr. reflexivity. Qed.

(** X1. [escape], which the page markup applies to the text of every run,
    replaces each [<] by [&lt;] and each [>] by [&gt;] and keeps every other
    character, an ampersand included, in its place.  So it leaves no angle
    bracket in the text, leaves text without angle brackets as it is, and
    the escaped form of a concatenation is the concatenation of the escaped
    forms. *)
Theorem escape_leaves_no_angle_bracket (s : jstring) :
  escape s =
  flat_map (fun c => if Ascii.eqb c "<" then lit "&lt;"
                     else if Ascii.eqb c ">" then lit "&gt;" else [c]) s /\
  Forall (fun c => c <> "<"%char /\ c <> ">"%char) (escape s) /\
  (Forall (fun c => c <> "<"%char /\ c <> ">"%char) s -> escape s = s) /\
  (forall t, escape (s ++ t) = escape s ++ escape t).
Proof.
  split; [|split; [|split]].
  - rewrite escape_chars. induction s as [|x s IH]; [reflexivity|].
    cbn [flat_map]. rewrite flat_map_app, IH. f_equal.
    rewrite (Ascii.eqb_sym x "<"), (Ascii.eqb_sym x ">").
    destruct (Ascii.eqb_spec "<" x) as [<-|N1]; [reflexivity|].
    cbn [flat_map app]. destruct (Ascii.eqb ">" x); reflexivity.
  - rewrite escape_chars. induction s as [|x s IH]; [constructor|].
    cbn [flat_map]. rewrite flat_map_app. apply Forall_app. split; [|exact IH].
    destruct (Ascii.eqb_spec "<" x) as [<-|N1].
    + vm_compute. repeat constructor; discriminate.
    + cbn [flat_map app]. destruct (Ascii.eqb_spec ">" x) as [<-|N2].
      * vm_compute. repeat constructor; discriminate.
      * constructor; [split; intros ->; [apply N1 | apply N2]; reflexivity | constructor].
  - intros H. rewrite escape_chars. induction H as [|x s [N1 N2] Hs IH]; [reflexivity|].
    cbn [flat_map]. rewrite flat_map_app, IH.
    destruct (Ascii.eqb_spec "<" x) as [<-|_]; [contradiction|].
    cbn [flat_map app]. destruct (Ascii.eqb_spec ">" x) as [<-|_]; [contradiction|]. reflexivity.
  - intros t. rewrite !escape_chars, !flat_map_app. reflexivity.
Qed.

Lemma trimStart_nil (s : jstring) : trimStart s = [] -> Forall (fun c => isWhiteSpace c = true) s.
Proof.
  induction s as [|c s IH]; cbn; [constructor|].
  destruct (isWhiteSpace c) eqn:E; [|discriminate]. intros H. constructor; auto.
Qed.

Lemma trimStart_suffix (s : jstring) :
  exists u, s = u ++ trimStart s /\ Forall (fun c => isWhiteSpace c = true) u.
Proof.
  induction s as [|c s (u & E & F)]; cbn.
  - exists []. auto.
  - destruct (isWhiteSpace c) eqn:W.
    + exists (c :: u). cbn. rewrite <- E. auto.
    + exists []. auto.
Qed.

Lemma trim_nil (s : jstring) : trim s = [] -> Forall (fun c => isWhiteSpace c = true) s.
Proof.
  unfold trim, trimEnd. intros H.
  apply (f_equal (@rev ascii)) in H. rewrite rev_involutive in H. cbn in H.
  apply trimStart_nil in H. apply Forall_rev in H. rewrite rev_involutive in H.
  destruct (trimStart_suffix s) as (u & E & F). rewrite E. apply Forall_app. auto.
Qed.

Lemma nonBlank_spans (line : list TextItem) :
  nonBlank (flat_map span line) = match line with [] => false | _ :: _ => true end.
Proof.
  destruct line as [|item line]; [reflexivity|].
  unfold nonBlank. apply Nat.ltb_lt.
  destruct (trim (flat_map span (item :: line))) eqn:E; [|cbn; lia].
  apply trim_nil in E. cbn [flat_map] in E. inversion E as [|? ? H _]. discriminate H.
Qed.

Lemma insert_permutation {A} (cmp : A -> A -> Z) (x : A) (l : list A) :
  Permutation (x :: l) (insert cmp x l).
Proof.
  induction l as [|y l IH]; cbn; [reflexivity|].
  destruct (cmp x y <? 0); [reflexivity|].
  rewrite perm_swap. constructor. exact IH.
Qed.

Lemma sort_permutation {A} (cmp : A -> A -> Z) (l : list A) : Permutation l (sort cmp l).
Proof.
  unfold sort. rewrite <- (app_nil_r l) at 1. generalize (@nil A) as acc.
  induction l as [|x l IH]; intros acc; cbn; [reflexivity|].
  rewrite <- IH. cbn. rewrite (Permutation_middle l acc x).
  apply Permutation_app_head, insert_permutation.
Qed.


(** What the loop and the final flush append for the line being built. *)
Lemma flush_line (h : jstring) (line : list TextItem) :
  (if nonBlank (flat_map span line) then h ++ pdfLine (flat_map span line) else h)
  = h ++ match line with [] => [] | _ :: _ => pdfLine (flat_map span line) end.
Proof.
  rewrite nonBlank_spans. destruct line; [symmetry; apply app_nil_r | reflexivity].
Qed.

Lemma loop_groups (page : PDFPageProxy) (items : list TextItem) :
  forall (st : lineState) (cur : list TextItem),
    currentLine st = flat_map span cur ->
    lineAnchoredAt page (currentY st) cur ->
    exists more rest,
      cur ++ items = (cur ++ more) ++ concat rest /\
      lineAnchoredAt page (currentY st) (cur ++ more) /\
      brokenFrom page (currentY st) rest /\
      (let st' := fold_left (step page) items st in
       if nonBlank (currentLine st') then html st' ++ pdfLine (currentLine st') else html st')
      = html st ++
        match cur ++ more with [] => [] | _ :: _ => pdfLine (flat_map span (cur ++ more)) end ++
        flat_map (fun line => pdfLine (flat_map span line)) rest.
Proof.
  induction items as [|item items IH]; intros st cur Hline Hanchor.
  - exists [], []. rewrite !app_nil_r. split; [reflexivity|]. split; [exact Hanchor|].
    split; [exact I|].
    cbn [fold_left flat_map]. rewrite Hline. apply flush_line.
  - cbn [fold_left].
    destruct (Z_le_gt_dec (Z.abs (topDownY page item - currentY st)) 10) as [Near|Far].
    + rewrite (step_same_line page st item Near).
      destruct (IH {| html := html st; currentY := currentY st;
                      currentLine := currentLine st ++ pdfText (escape (str item)) |}
                   (cur ++ [item])) as (more & rest & E & A & B & H).
      * cbn [currentLine]. rewrite Hline, flat_map_app. cbn [flat_map]. rewrite app_nil_r.
        reflexivity.
      * apply Forall_app. split; [exact Hanchor|]. constructor; [exact Near | constructor].
      * exists (item :: more), rest. cbn [currentY html] in *.
        rewrite <- !app_assoc in *. cbn [app] in *.
        split; [|split; [|split]]; assumption.
    + rewrite (step_new_line page st item) by lia.
      destruct (IH {| html := if nonBlank (currentLine st)
                              then html st ++ pdfLine (currentLine st) else html st;
                      currentY := topDownY page item;
                      currentLine := pdfText (escape (str item)) |}
                   [item]) as (more & rest & E & A & B & H).
      * cbn. rewrite app_nil_r. reflexivity.
      * constructor; [|constructor]. rewrite Z.sub_diag. cbn. lia.
      * exists [], (([item] ++ more) :: rest). cbn [currentY html] in *.
        rewrite app_nil_r. split; [|split; [|split]].
        -- cbn [concat]. rewrite <- E. reflexivity.
        -- exact Hanchor.
        -- cbn [app brokenFrom]. split; [lia | split; [exact A | exact B]].
        -- rewrite H, Hline, flush_line. cbn [flat_map app].
           rewrite <- !app_assoc. reflexivity.
Qed.

(** The source function is the loop applied to what the sort returns. *)
Lemma convert_markupOf (items : list TextItem) (page : PDFPageProxy) :
  convertTextContentToHtml items page = markupOf page (sortedItems page items).
Proof. reflexivity. Qed.

(** X2. Whatever list of runs the sort returns, the loop behind it makes
    the page wrapper around lines, each line being the spans of its runs:
    the lines hold the runs of the list in its order, every run exactly
    once, and no line is empty.  The runs that lead the list and lie within
    10 units of the initial line position -1 form the first line; every
    other line is opened by a run more than 10 units away from the position
    of the line before it, and collects the runs that follow within 10
    units of that run.  For the runs C, A, B of the line-grouping property
    the markup is spelled out. *)
Theorem page_markup_is_lines_of_sorted_runs (sorted : list TextItem) (page : PDFPageProxy) :
  (exists first rest,
     sorted = first ++ concat rest /\
     lineAnchoredAt page (-1) first /\
     brokenFrom page (-1) rest /\
     markupOf page sorted
     = pageOf (match first with [] => rest | _ :: _ => first :: rest end)) /\
  markupOf (Samples.page 800)
    [Samples.placedC 800; Samples.placedA 800; Samples.placedB 800]
  = lit "<div class=" ++ quoted "pdf-page" ++ lit "><div class=" ++ quoted "pdf-line" ++
    lit "><span class=" ++ quoted "pdf-text" ++ lit ">C</span></div><div class=" ++
    quoted "pdf-line" ++ lit "><span class=" ++ quoted "pdf-text" ++
    lit ">A</span><span class=" ++ quoted "pdf-text" ++ lit ">B</span></div></div>".
Proof.
  split; [|vm_compute; reflexivity].
  destruct (loop_groups page sorted
              {| html := pageOpen; currentY := -1; currentLine := [] |} [])
    as (first & rest & E & A & B & H); [reflexivity | constructor |].
  cbn [app currentY html] in *.
  exists first, rest. split; [exact E|split; [exact A|split; [exact B|]]].
  unfold markupOf. fold pageOpen.
  cbv zeta in H |- *. rewrite H. unfold pageOf.
  destruct first; cbn [flat_map app]; rewrite <- ?app_assoc; reflexivity.
Qed.
(** X3. The comparator treats two runs as being on one line when they are
    less than 10 units apart, the loop when they are at most 10 units
    apart.  Two runs exactly 10 units apart, the upper one far enough from
    the initial line position, therefore share one line in which the lower
    run comes first, whatever their horizontal positions and their order
    on input. *)
Theorem runs_ten_units_apart_share_a_line (page : PDFPageProxy) (a b : TextItem) :
  topDownY page b = topDownY page a + 10 ->
  10 < Z.abs (topDownY page b + 1) ->
  convertTextContentToHtml [a; b] page = pageOf [[b; a]] /\
  convertTextContentToHtml [b; a] page = pageOf [[b; a]].
Proof.
  intros Hy Hfar.
  assert (S1 : sortedItems page [a; b] = [b; a] /\ sortedItems page [b; a] = [b; a]).
  { unfold sortedItems, sort. cbn [fold_left insert]. rewrite !compareItems_topDown.
    replace (topDownY page b - topDownY page a) with 10 by lia.
    replace (topDownY page a - topDownY page b) with (-10) by lia.
    cbn. split; reflexivity. }
  destruct S1 as [Sab Sba].
  assert (R : forall items, sortedItems page items = [b; a] ->
                convertTextContentToHtml items page = pageOf [[b; a]]).
  { intros items E. unfold convertTextContentToHtml. rewrite E. cbn [fold_left].
    rewrite (step_new_line page _ b) by (cbn [currentY]; lia).
    rewrite (step_same_line page _ a) by (cbn [currentY]; lia).
    cbn [html currentLine].
    assert (L : pdfText (escape (str b)) ++ pdfText (escape (str a)) = flat_map span [b; a])
      by (cbn [flat_map]; rewrite app_nil_r; reflexivity).
    cbn [app]. rewrite L, nonBlank_spans. unfold pageOf. fold pageOpen. cbn [flat_map].
    rewrite <- !app_assoc. reflexivity. }
  split; apply R; assumption.
Qed.

Lemma runs_ten_units_apart_share_a_line_witness :
  convertTextContentToHtml [Samples.run 72 700 "left"; Samples.run 300 690 "right"]
    (Samples.page 800)
  = pageOf [[Samples.run 300 690 "right"; Samples.run 72 700 "left"]].
Proof.
  refine (proj1 (runs_ten_units_apart_share_a_line (Samples.page 800)
                   (Samples.run 72 700 "left") (Samples.run 300 690 "right") _ _)).
  - reflexivity.
  - vm_compute. reflexivity.
Defined.

End PageMarkup.

(** ** Navigation and screens *)

Section NavigationFacts.
#[local] Open Scope Z_scope.

Lemma pdf_act_invariant (numPages : Z) (st : PdfNav.state) (a : PdfNav.action) :
  1 <= numPages ->
  PdfNav.pdfDoc st = Some numPages /\ PdfNav.totalPages st = numPages /\
  1 <= PdfNav.currentPage st <= numPages /\
  PdfNav.rendered st = 1 :: PdfNav.notified st /\
  PdfNav.currentPage st = last (PdfNav.rendered st) 1 /\
  Forall (fun p => 1 <= p <= numPages) (PdfNav.rendered st) ->
  let st' := PdfNav.act st a in
  PdfNav.pdfDoc st' = Some numPages /\ PdfNav.totalPages st' = numPages /\
  1 <= PdfNav.currentPage st' <= numPages /\
  PdfNav.rendered st' = 1 :: PdfNav.notified st' /\
  PdfNav.currentPage st' = last (PdfNav.rendered st') 1 /\
  Forall (fun p => 1 <= p <= numPages) (PdfNav.rendered st').
Proof.
  intros Hn (Hd & Ht & Hc & Hr & Hl & Hf).
  assert (S : forall p, 1 <= p <= numPages ->
            let st' := PdfNav.show p st in
            PdfNav.pdfDoc st' = Some numPages /\ PdfNav.totalPages st' = numPages /\
            1 <= PdfNav.currentPage st' <= numPages /\
            PdfNav.rendered st' = 1 :: PdfNav.notified st' /\
            PdfNav.currentPage st' = last (PdfNav.rendered st') 1 /\
            Forall (fun p => 1 <= p <= numPages) (PdfNav.rendered st')).
  { intros p Hp. cbn. repeat split; try assumption; try lia.
    - rewrite Hr. reflexivity.
    - rewrite last_last. reflexivity.
    - apply Forall_app. split; [exact Hf | constructor; [exact Hp | constructor]]. }
  destruct a as [| |[page|]]; cbn [PdfNav.act];
    unfold PdfNav.nextPage, PdfNav.prevPage, PdfNav.pageField, PdfNav.goToPage;
    rewrite ?Hd, ?Ht.
  - destruct (Z.ltb_spec (PdfNav.currentPage st) numPages); [apply S; lia | cbv zeta; auto 10].
  - destruct (Z.ltb_spec 1 (PdfNav.currentPage st)); [apply S; lia | cbv zeta; auto 10].
  - destruct (Z.leb_spec 1 page), (Z.leb_spec page numPages); cbn [andb];
      rewrite ?Hd; first [apply S; lia | cbv zeta; auto 10].
  - cbv zeta. auto 10.
Qed.


(** X4. Once a document of at least one page is loaded, whatever the user
    does with the two buttons and the page field, the current page stays
    between 1 and the number of pages, every page handed to [renderPage] is
    a page of the document, the current page is the last page rendered, and
    the parent has been told of every page rendered after the first. *)
Theorem pdf_navigation_stays_on_the_document (numPages : Z) (actions : list PdfNav.action) :
  1 <= numPages ->
  let st := fold_left PdfNav.act actions (PdfNav.loadPdf numPages PdfNav.initial) in
  1 <= PdfNav.currentPage st <= numPages /\
  PdfNav.totalPages st = numPages /\
  Forall (fun p => 1 <= p <= numPages) (PdfNav.rendered st) /\
  PdfNav.rendered st = 1 :: PdfNav.notified st /\
  PdfNav.currentPage st = last (PdfNav.rendered st) 1.
Proof.
  intros Hn.
  assert (I : forall st,
            PdfNav.pdfDoc st = Some numPages /\ PdfNav.totalPages st = numPages /\
            1 <= PdfNav.currentPage st <= numPages /\
            PdfNav.rendered st = 1 :: PdfNav.notified st /\
            PdfNav.currentPage st = last (PdfNav.rendered st) 1 /\
            Forall (fun p => 1 <= p <= numPages) (PdfNav.rendered st) ->
            let st' := fold_left PdfNav.act actions st in
            PdfNav.pdfDoc st' = Some numPages /\ PdfNav.totalPages st' = numPages /\
            1 <= PdfNav.currentPage st' <= numPages /\
            PdfNav.rendered st' = 1 :: PdfNav.notified st' /\
            PdfNav.currentPage st' = last (PdfNav.rendered st') 1 /\
            Forall (fun p => 1 <= p <= numPages) (PdfNav.rendered st')).
  { induction actions as [|a actions IH]; intros st H; [exact H|].
    cbn [fold_left]. apply IH. apply (pdf_act_invariant numPages st a Hn H). }
  destruct (I (PdfNav.loadPdf numPages PdfNav.initial)) as (_ & Ht & Hc & Hr & Hl & Hf).
  - cbn. repeat split; try lia. repeat constructor; lia.
  - cbv zeta. auto.
Qed.

Lemma pdf_navigation_stays_on_the_document_witness :
  let st := fold_left PdfNav.act
              [PdfNav.Next; PdfNav.Next; PdfNav.Field (Some 9); PdfNav.Previous;
               PdfNav.Field None]
              (PdfNav.loadPdf 3 PdfNav.initial) in
  1 <= PdfNav.currentPage st <= 3 /\
  PdfNav.totalPages st = 3 /\
  Forall (fun p => 1 <= p <= 3) (PdfNav.rendered st) /\
  PdfNav.rendered st = 1 :: PdfNav.notified st /\
  PdfNav.currentPage st = last (PdfNav.rendered st) 1.
Proof.
  apply (pdf_navigation_stays_on_the_document 3
           [PdfNav.Next; PdfNav.Next; PdfNav.Field (Some 9); PdfNav.Previous;
            PdfNav.Field None]).
  lia.
Defined.

(** X5. Before a document is loaded the buttons and the page field do
    nothing: no page is rendered, the parent is told nothing, and the
    state stays as it was mounted. *)
Theorem pdf_navigation_needs_a_document (actions : list PdfNav.action) :
  fold_left PdfNav.act actions PdfNav.initial = PdfNav.initial.
Proof.
  induction actions as [|a actions IH]; [reflexivity|].
  cbn [fold_left]. destruct a as [| |[page|]]; try exact IH.
  cbn [PdfNav.act]. unfold PdfNav.pageField. cbn [PdfNav.totalPages PdfNav.initial].
  destruct ((1 <=? page) && (page <=? 0)); exact IH.
Qed.

Lemma epub_act_invariant (chapters : list Chapter) (st : EpubNav.state) (a : EpubNav.action) :
  0 <= EpubNav.currentChapter st /\
  (EpubNav.currentChapter st < Z.of_nat (length chapters) \/ EpubNav.notified st = []) /\
  EpubNav.currentChapter st + 1 = last (EpubNav.notified st) 1 /\
  Forall (fun p => 1 <= p <= Z.of_nat (length chapters)) (EpubNav.notified st) ->
  let st' := EpubNav.act chapters st a in
  0 <= EpubNav.currentChapter st' /\
  (EpubNav.currentChapter st' < Z.of_nat (length chapters) \/ EpubNav.notified st' = []) /\
  EpubNav.currentChapter st' + 1 = last (EpubNav.notified st') 1 /\
  Forall (fun p => 1 <= p <= Z.of_nat (length chapters)) (EpubNav.notified st').
Proof.
  intros (H0 & Hn & Hl & Hf).
  assert (S : forall c, 0 <= c < Z.of_nat (length chapters) ->
            let st' := EpubNav.show c st in
            0 <= EpubNav.currentChapter st' /\
            (EpubNav.currentChapter st' < Z.of_nat (length chapters) \/ EpubNav.notified st' = []) /\
            EpubNav.currentChapter st' + 1 = last (EpubNav.notified st') 1 /\
            Forall (fun p => 1 <= p <= Z.of_nat (length chapters)) (EpubNav.notified st')).
  { intros c Hc. cbn. repeat split; try lia.
    - rewrite last_last. reflexivity.
    - apply Forall_app. split; [exact Hf | constructor; [lia | constructor]]. }
  destruct a; cbn [EpubNav.act]; unfold EpubNav.nextChapter, EpubNav.prevChapter.
  - destruct (Z.ltb_spec (EpubNav.currentChapter st) (Z.of_nat (length chapters) - 1));
      [apply S; lia | cbv zeta; auto].
  - destruct (Z.ltb_spec 0 (EpubNav.currentChapter st)); [|cbv zeta; auto].
    apply S. destruct Hn as [Hn|Hn]; [lia|]. rewrite Hn in Hl. cbn in Hl. lia.
Qed.

Lemma epub_navigation_invariant (chapters : list Chapter) (actions : list EpubNav.action) :
  let st := fold_left (EpubNav.act chapters) actions EpubNav.initial in
  0 <= EpubNav.currentChapter st /\
  (EpubNav.currentChapter st < Z.of_nat (length chapters) \/ EpubNav.notified st = []) /\
  EpubNav.currentChapter st + 1 = last (EpubNav.notified st) 1 /\
  Forall (fun p => 1 <= p <= Z.of_nat (length chapters)) (EpubNav.notified st).
Proof.
  assert (I : forall st,
            0 <= EpubNav.currentChapter st /\
            (EpubNav.currentChapter st < Z.of_nat (length chapters) \/ EpubNav.notified st = []) /\
            EpubNav.currentChapter st + 1 = last (EpubNav.notified st) 1 /\
            Forall (fun p => 1 <= p <= Z.of_nat (length chapters)) (EpubNav.notified st) ->
            let st' := fold_left (EpubNav.act chapters) actions st in
            0 <= EpubNav.currentChapter st' /\
            (EpubNav.currentChapter st' < Z.of_nat (length chapters) \/ EpubNav.notified st' = []) /\
            EpubNav.currentChapter st' + 1 = last (EpubNav.notified st') 1 /\
            Forall (fun p => 1 <= p <= Z.of_nat (length chapters)) (EpubNav.notified st')).
  { induction actions as [|a actions IH]; intros st H; [exact H|].
    cbn [fold_left]. apply IH. apply (epub_act_invariant chapters st a H). }
  apply I. cbn. repeat split; try lia; auto.
Qed.

(** X6. Whatever the user clicks, the chapter shown stays inside the
    book: its index is at least 0 and, when there are chapters, below
    their number; with no chapter the state does not change at all.  The
    parent is only told page numbers between 1 and the number of chapters,
    and the last one it was told is the index of the chapter shown plus
    one. *)
Theorem epub_navigation_stays_in_the_book (chapters : list Chapter)
  (actions : list EpubNav.action) :
  let st := fold_left (EpubNav.act chapters) actions EpubNav.initial in
  0 <= EpubNav.currentChapter st /\
  (chapters <> [] -> EpubNav.currentChapter st < Z.of_nat (length chapters)) /\
  (chapters = [] -> st = EpubNav.initial) /\
  EpubNav.currentChapter st + 1 = last (EpubNav.notified st) 1 /\
  Forall (fun p => 1 <= p <= Z.of_nat (length chapters)) (EpubNav.notified st).
Proof.
  destruct (epub_navigation_invariant chapters actions) as (H0 & Hn & Hl & Hf).
  cbv zeta. split; [exact H0|]. split; [|split; [|split; [exact Hl | exact Hf]]].
  - intros Hne. destruct Hn as [Hn|Hn]; [exact Hn|].
    rewrite Hn in Hl. cbn in Hl. destruct chapters; [contradiction|]. cbn [length]. lia.
  - intros ->. clear. induction actions as [|a actions IH]; [reflexivity|].
    cbn [fold_left]. destruct a; exact IH.
Qed.


Lemma createChapter_not_blank zip path k ch :
  createChapterFromHtml zip path k = Some ch ->
  title ch <> [] /\ trim (content ch) <> [] /\
  exists html, In (path, html) zip /\ content ch = extractContentFromHtml html.
Proof.
  intros C. destruct (createChapter_content _ _ _ _ C) as (html & Hf & Hc).
  revert C. unfold createChapterFromHtml. rewrite Hf.
  destruct (0 <? length (trim (extractContentFromHtml html)))%nat eqn:B; [|discriminate].
  intros [= <-]. cbn [title content]. split; [|split].
  - destruct (extractTitleFromHtml html) as [[|c t]|]; cbn; discriminate.
  - apply Nat.ltb_lt in B. destruct (trim (extractContentFromHtml html)); [cbn in B; lia|].
    discriminate.
  - exists html. split; [|reflexivity]. apply file_Some.
    destruct (file zip path) as [[|c t]|]; cbn in Hf; congruence.
Qed.

Lemma chapterLoop_not_blank zip files i :
  Forall (fun ch => title ch <> [] /\ trim (content ch) <> [] /\
                    exists path html, In (path, html) zip /\
                                      content ch = extractContentFromHtml html)
         (chapterLoop zip files i []).
Proof.
  revert i. induction files as [|f files IH]; intros i; [constructor|].
  rewrite chapterLoop_cons.
  destruct (createChapterFromHtml zip f (S i)) as [ch|] eqn:C; [|apply IH].
  constructor; [|apply IH].
  destruct (createChapter_not_blank _ _ _ _ C) as (T & B & html & Hin & Hc).
  split; [exact T|]. split; [exact B|]. exists f, html. auto.
Qed.

Lemma extracted_not_blank (loaded : option archive) :
  Forall (fun ch => title ch <> [] /\ trim (content ch) <> []) (extractEpubContent loaded).
Proof.
  destruct loaded as [zip|]; [|constructor].
  destruct (extract_is_a_loop zip) as [files ->].
  eapply Forall_impl; [|apply chapterLoop_not_blank]. cbn. tauto.
Qed.

(** X7. Every chapter that the extraction returns has a title that is not
    empty and a content that is not blank, and its content is the content
    extracted from an entry of the archive. *)
Theorem chapters_have_a_title_and_content (zip : archive) :
  Forall (fun ch => title ch <> [] /\ trim (content ch) <> [] /\
                    exists path html, In (path, html) zip /\
                                      content ch = extractContentFromHtml html)
         (extractEpubContent (Some zip)).
Proof. destruct (extract_is_a_loop zip) as [files ->]. apply chapterLoop_not_blank. Qed.

(** X8. After the extraction, and whatever the user clicks, the component
    shows either the screen for a book without content, exactly when the
    extraction has found no chapter, or the reader with the content of the
    chapter at the current index, which is not blank.  It never shows the
    error screen, and never the placeholder for a chapter without content. *)
Theorem epub_reader_shows_a_chapter_or_no_content (loaded : option archive)
  (actions : list EpubNav.action) :
  match EpubNav.view loaded actions with
  | EpubNav.NoContentScreen => extractEpubContent loaded = []
  | EpubNav.ReaderScreen shown outOf markup =>
      outOf = length (extractEpubContent loaded) /\
      1 <= shown <= Z.of_nat outOf /\
      exists ch, nth_error (extractEpubContent loaded) (Z.to_nat (shown - 1)) = Some ch /\
                 markup = content ch /\ trim markup <> []
  | _ => False
  end.
Proof.
  unfold EpubNav.view, EpubNav.render, processEpubContent.
  cbn [Epub.error Epub.chapters].
  destruct (extractEpubContent loaded) as [|c0 chs] eqn:E; [reflexivity|].
  destruct (epub_navigation_invariant (c0 :: chs) actions) as (H0 & Hn & Hl & Hf).
  set (st := fold_left (EpubNav.act (c0 :: chs)) actions EpubNav.initial) in *.
  assert (Hlt : EpubNav.currentChapter st < Z.of_nat (length (c0 :: chs))).
  { destruct Hn as [Hn|Hn]; [exact Hn|]. rewrite Hn in Hl. cbn in Hl. cbn [length]. lia. }
  split; [reflexivity|]. split; [lia|].
  unfold EpubNav.at_. destruct (Z.ltb_spec (EpubNav.currentChapter st) 0); [lia|].
  replace (EpubNav.currentChapter st + 1 - 1) with (EpubNav.currentChapter st) by lia.
  destruct (nth_error (c0 :: chs) (Z.to_nat (EpubNav.currentChapter st))) as [ch|] eqn:N.
  - exists ch. split; [reflexivity|].
    assert (B : title ch <> [] /\ trim (content ch) <> []).
    { pose proof (extracted_not_blank loaded) as F. rewrite E in F.
      rewrite Forall_forall in F. apply F. eapply nth_error_In, N. }
    destruct B as [_ B]. cbn [option_map].
    destruct (content ch) as [|x t] eqn:C; [exfalso; apply B; reflexivity|].
    cbn [truthy]. split; [reflexivity | exact B].
  - exfalso. apply nth_error_None in N. lia.
Qed.

End NavigationFacts.

(** ** The base path and the content of a chapter *)

Section ContentFacts.

Lemma lastIndexOf_none (c : ascii) (s : jstring) :
  Forall (fun x => x <> c) s -> lastIndexOf c s = None.
Proof.
  induction 1 as [|x s Hx Hs IH]; cbn [lastIndexOf]; [reflexivity|].
  rewrite IH. destruct (Ascii.eqb_spec x c); [contradiction | reflexivity].
Qed.

Lemma lastIndexOf_last (c : ascii) (dir name : jstring) :
  Forall (fun x => x <> c) name -> lastIndexOf c (dir ++ c :: name) = Some (length dir).
Proof.
  intros Hname. induction dir as [|x dir IH]; cbn [app lastIndexOf length].
  - rewrite (lastIndexOf_none c name Hname), Ascii.eqb_refl. reflexivity.
  - rewrite IH. reflexivity.
Qed.

(** X9. The base path of a path is the path up to and including its last
    slash, so that the base path followed by the file name is the path
    again; a path without a slash has the empty base path. *)
Theorem base_path_keeps_the_last_slash (dir name : jstring) :
  Forall (fun c => c <> "/"%char) name ->
  dirname (dir ++ "/"%char :: name) = dir ++ ["/"%char] /\
  dirname name = [] /\
  dirname (dir ++ "/"%char :: name) ++ name = dir ++ "/"%char :: name.
Proof.
  intros Hname. unfold dirname.
  rewrite (lastIndexOf_last "/" dir name Hname), (lastIndexOf_none "/" name Hname).
  assert (E : substring0 (length dir + 1) (dir ++ "/"%char :: name) = dir ++ ["/"%char]).
  { unfold substring0. rewrite firstn_app. replace (length dir + 1 - length dir) with 1 by lia.
    rewrite firstn_all2 by lia. reflexivity. }
  rewrite E, <- app_assoc. auto.
Qed.

Lemma base_path_keeps_the_last_slash_witness :
  dirname (lit "OEBPS/text" ++ "/"%char :: lit "content.opf") = lit "OEBPS/text" ++ ["/"%char] /\
  dirname (lit "content.opf") = [] /\
  dirname (lit "OEBPS/text" ++ "/"%char :: lit "content.opf") ++ lit "content.opf"
  = lit "OEBPS/text" ++ "/"%char :: lit "content.opf".
Proof.
  apply (base_path_keeps_the_last_slash (lit "OEBPS/text") (lit "content.opf")).
  repeat constructor; discriminate.
Defined.

(** A lazy repetition stops at the first place where the rest of the
    pattern matches. *)
Lemma starLazy_first {R} p (k : jstring -> option R) s res :
  starLazy p k s = Some res ->
  exists a t, s = a ++ t /\ Forall (fun x => p x = true) a /\ k t = Some res /\
              forall a' b', a = a' ++ b' -> b' <> [] -> k (b' ++ t) = None.
Proof.
  revert res. induction s as [|c s IH]; intros res H; cbn in H.
  - destruct (k []) eqn:E; [|discriminate]. injection H as <-. exists [], [].
    repeat split; auto. intros a' b' E' Hb. symmetry in E'. apply app_eq_nil in E' as [_ ->].
    contradiction.
  - destruct (k (c :: s)) eqn:E.
    + injection H as <-. exists [], (c :: s). repeat split; auto.
      intros a' b' E' Hb. symmetry in E'. apply app_eq_nil in E' as [_ ->]. contradiction.
    + destruct (p c) eqn:Hc; [|discriminate].
      destruct (IH res H) as (a & t & -> & Ha & Hk & Hmin). exists (c :: a), t.
      repeat split; auto.
      intros a' b' E' Hb. destruct a' as [|x a']; cbn [app] in E'.
      * subst b'. exact E.
      * injection E' as -> E'. exact (Hmin a' b' E' Hb).
Qed.


Lemma groupFree_chars (w : string) : groupFree (chars w) = true.
Proof.
  induction w as [|c w IH]; [reflexivity|]. destruct w; [reflexivity|].
  change (chars (String c (String a w))) with (Seq (Chr c) (chars (String a w))).
  cbn [groupFree]. exact IH.
Qed.

(** A pattern without a group hands the capture on as it got it. *)
Lemma run_groupFree {R} f r cap s (k : cont R) res :
  groupFree r = true ->
  run f r cap s k = Some res ->
  exists a t, s = a ++ t /\ Matches f r a t /\ k cap t = Some res.
Proof.
  revert cap s k res. induction r; intros cap s k res G H; cbn in G, H; try discriminate.
  - destruct s as [|x s]; [discriminate|]. destruct (chrMatches f c x) eqn:E; [|discriminate].
    exists [x], s. repeat split; [constructor; exact E | exact H].
  - destruct s as [|x s]; [discriminate|]. destruct (p x) eqn:E; [|discriminate].
    exists [x], s. repeat split; [constructor; exact E | exact H].
  - apply andb_prop in G as [G1 G2].
    apply (IHr1 _ _ _ _ G1) in H as (a & t & -> & M1 & H).
    apply (IHr2 _ _ _ _ G2) in H as (b & t' & -> & M2 & H).
    exists (a ++ b), t'. rewrite app_assoc. repeat split; [|exact H]. constructor; assumption.
  - apply andb_prop in G as [G1 G2].
    destruct (run f r1 cap s k) eqn:E.
    + injection H as <-. apply (IHr1 _ _ _ _ G1) in E as (a & t & -> & M1 & H).
      exists a, t. repeat split; [apply MatchesAltL; exact M1 | exact H].
    + apply (IHr2 _ _ _ _ G2) in H as (a & t & -> & M1 & H).
      exists a, t. repeat split; [apply MatchesAltR; exact M1 | exact H].
  - apply starGreedy_sound in H as (a & t & -> & Ha & H).
    exists a, t. repeat split; [constructor; exact Ha | exact H].
  - apply starLazy_sound in H as (a & t & -> & Ha & H).
    exists a, t. repeat split; [constructor; exact Ha | exact H].
  - destruct s; [|discriminate]. exists [], []. repeat split; [constructor | exact H].
Qed.

Lemma Matches_chars (w : string) (a t : jstring) :
  Matches gi (chars w) a t -> upper a = upper (lit w).
Proof.
  revert a t. induction w as [|c w IH]; intros a t M.
  - cbn in M. inversion M as [| | | | |? ? ? F| | |]; subst.
    destruct a as [|x a]; [reflexivity|]. inversion F; discriminate.
  - destruct w as [|c' w].
    + cbn in M. inversion M as [? x ? Hx| | | | | | | |]; subst.
      apply chrMatches_gi in Hx. cbn. rewrite Hx. reflexivity.
    + change (chars (String c (String c' w))) with (Seq (Chr c) (chars (String c' w))) in M.
      inversion M as [| |? ? a1 b1 ? M1 M2| | | | | |]; subst.
      inversion M1 as [? x ? Hx| | | | | | | |]; subst.
      apply chrMatches_gi in Hx. rewrite upper_app, (IH _ _ M2). cbn. rewrite Hx. reflexivity.
Qed.

Lemma chars_Matches (c : ascii) (w : string) (a t : jstring) :
  upper a = upper (lit (String c w)) -> Matches gi (chars (String c w)) a t.
Proof.
  revert c a t. induction w as [|c' w IH]; intros c a t E.
  - destruct a as [|x [|? ?]]; try discriminate E. injection E as E.
    cbn. constructor. apply chrMatches_gi, E.
  - destruct a as [|x a]; [discriminate E|]. injection E as Ex E.
    change (chars (String c (String c' w))) with (Seq (Chr c) (chars (String c' w))).
    apply (MatchesSeq gi (Chr c) _ [x] a t).
    + constructor. apply chrMatches_gi, Ex.
    + apply IH. exact E.
Qed.

Lemma canonicalize_gt (x : ascii) : canonicalize x = ">"%char -> x = ">"%char.
Proof.
  destruct x as [[|] [|] [|] [|] [|] [|] [|] [|]]; vm_compute; congruence.
Qed.



End ContentFacts.

(** ** The title sanitizer *)

Section TitleSanitizerFacts.

Lemma replaceFrom_incl (f : flags) (r : regex) (s : jstring) (skip : nat) (x : ascii) :
  In x (replaceFrom f r [] s skip) -> In x s.
Proof.
  revert skip. induction s as [|c s IH]; intros skip; cbn [replaceFrom].
  - destruct skip; [destruct (matchHere f r [])|]; intros [].
  - destruct skip as [|n]; [|intros H; right; exact (IH _ H)].
    destruct (matchHere f r (c :: s)) as [m|].
    + destruct (length (whole m)); cbn [app].
      * intros [->|H]; [left; reflexivity | right; exact (IH _ H)].
      * intros H. right. exact (IH _ H).
    + intros [->|H]; [left; reflexivity | right; exact (IH _ H)].
Qed.

Lemma first_occurrence {A} (dec : forall x y : A, {x = y} + {x <> y}) (x : A) (l : list A) :
  In x l -> exists u t, l = u ++ x :: t /\ ~ In x u.
Proof.
  induction l as [|y l IH]; [intros []|].
  destruct (dec y x) as [->|N].
  - intros _. exists [], l. auto.
  - intros [E|H]; [contradiction|]. destruct (IH H) as (u & t & -> & Hu).
    exists (y :: u), t. split; [reflexivity|]. intros [E|H']; auto.
Qed.

Lemma anyTag_found (s : jstring) :
  In ">"%char s -> matchHere g anyTagRe ("<"%char :: s) <> None.
Proof.
  intros H. destruct (first_occurrence ascii_dec _ _ H) as (u & t & -> & Hu).
  change ("<"%char :: u ++ ">"%char :: t) with (("<"%char :: u ++ [">"%char]) ++ t) || idtac.
  replace ("<"%char :: u ++ ">"%char :: t) with (("<"%char :: u ++ [">"%char]) ++ t)
    by (cbn; rewrite <- app_assoc; reflexivity).
  apply matchHere_complete. unfold anyTagRe.
  apply (MatchesSeq g (Chr "<") _ ["<"%char] (u ++ [">"%char]) t); [constructor; reflexivity|].
  apply (MatchesSeq g (Star _) (Chr ">") u [">"%char] t); [|constructor; reflexivity].
  constructor. apply Forall_forall. intros x Hx. apply notChar_true. intros ->. contradiction.
Qed.

Lemma anyTag_match (s : jstring) (m : matched) :
  matchHere g anyTagRe s = Some m ->
  exists w, whole m = "<"%char :: w /\ s = "<"%char :: w ++ rest m.
Proof.
  intros H. apply matchHere_sound in H as [E M]. unfold anyTagRe in M.
  destruct m as [w g1 r]. cbn [whole rest] in *.
  inversion M as [| |? ? a1 b1 ? M1 M2| | | | | |].
  inversion M1 as [c x t' Hx| | | | | | | |].
  apply Ascii.eqb_eq in Hx. subst x a1 w s.
  exists b1. split; reflexivity.
Qed.

Lemma noTag_after_removal (n : nat) (s : jstring) :
  length s <= n -> noTagIn (replaceAll g anyTagRe [] s).
Proof.
  unfold replaceAll. revert s. induction n as [|n IH]; intros s L.
  - destruct s; [|cbn in L; lia]. cbn. intros [|? ?] c E; discriminate E.
  - destruct s as [|x s]; [cbn; intros [|? ?] c E; discriminate E|].
    cbn [replaceFrom length] in *.
    destruct (matchHere g anyTagRe (x :: s)) as [m|] eqn:Hm.
    + destruct (anyTag_match _ _ Hm) as (w & Hw & Hs). rewrite Hw. cbn [length app].
      injection Hs as -> ->. rewrite replaceFrom_skip. apply IH.
      rewrite length_app in L. lia.
    + intros a c E. destruct a as [|y a]; cbn [app] in E; injection E as -> E.
      * subst c. intros Hin. apply replaceFrom_incl in Hin.
        exact (anyTag_found s Hin Hm).
      * apply (IH s ltac:(lia) a c E).
Qed.


(** Replacements that neither consume nor produce an angle bracket leave the
    angle brackets of the text as they are. *)
Lemma replaceFrom_angles (f : flags) (r : regex) (by_ s : jstring) (skip : nat) :
  (forall v m, matchHere f r v = Some m -> angles (whole m) = []) ->
  angles by_ = [] ->
  angles (replaceFrom f r by_ s skip) = angles (skipn skip s).
Proof.
  intros Hm Hby. revert skip. induction s as [|c s IH]; intros skip.
  - destruct skip; cbn; [|reflexivity]. destruct (matchHere f r []); [exact Hby | reflexivity].
  - destruct skip as [|n]; [|exact (IH n)].
    cbn [replaceFrom skipn].
    assert (Copy : angles (by_ ++ c :: replaceFrom f r by_ s 0) = angles (c :: s)).
    { unfold angles in *. rewrite filter_app, Hby. cbn [app filter]. rewrite (IH 0).
      reflexivity. }
    destruct (matchHere f r (c :: s)) as [m|] eqn:E.
    + pose proof (Hm _ _ E) as Hw. apply matchHere_sound in E as [E _].
      destruct (whole m) as [|x w]; cbn [length]; [exact Copy|].
      cbn [app] in E. injection E as -> ->.
      unfold angles in *. rewrite filter_app, Hby, (IH (length w)). cbn [app].
      rewrite skipn_app, skipn_all, Nat.sub_diag. cbn [app skipn].
      change (x :: w ++ rest m) with ((x :: w) ++ rest m).
      rewrite filter_app, Hw. reflexivity.
    + specialize (IH 0). cbn [skipn] in IH. unfold angles in *. cbn [filter]. rewrite IH.
      reflexivity.
Qed.

Lemma replaceAll_angles (f : flags) (r : regex) (by_ s : jstring) :
  (forall v m, matchHere f r v = Some m -> angles (whole m) = []) ->
  angles by_ = [] ->
  angles (replaceAll f r by_ s) = angles s.
Proof. intros. unfold replaceAll. rewrite replaceFrom_angles; auto. Qed.

Lemma whiteSpace_not_angle (c : ascii) : isWhiteSpace c = true -> isAngle c = false.
Proof. destruct c as [[|] [|] [|] [|] [|] [|] [|] [|]]; vm_compute; congruence. Qed.

Lemma angles_trimStart (s : jstring) : angles (trimStart s) = angles s.
Proof.
  induction s as [|c s IH]; [reflexivity|]. cbn [trimStart].
  destruct (isWhiteSpace c) eqn:W; [|reflexivity].
  unfold angles in *. cbn [filter]. rewrite (whiteSpace_not_angle c W). exact IH.
Qed.

Lemma angles_rev (s : jstring) : angles (rev s) = rev (angles s).
Proof.
  unfold angles. induction s as [|c s IH]; [reflexivity|].
  cbn [rev filter]. rewrite filter_app, IH. cbn [filter].
  destruct (isAngle c); cbn [rev]; [reflexivity | apply app_nil_r].
Qed.

Lemma angles_trim (s : jstring) : angles (trim s) = angles s.
Proof.
  unfold trim, trimEnd.
  rewrite angles_rev, angles_trimStart, angles_rev, rev_involutive. apply angles_trimStart.
Qed.

Lemma angles_split (sep : ascii) (s : jstring) :
  isAngle sep = false -> flat_map angles (JS.split sep s) = angles s.
Proof.
  intros Hsep. induction s as [|c s IH]; [reflexivity|]. cbn [JS.split].
  destruct (Ascii.eqb_spec c sep) as [->|N].
  - cbn [flat_map]. rewrite IH. unfold angles. cbn [filter app]. rewrite Hsep. reflexivity.
  - destruct (JS.split sep s) as [|l ls]; cbn [flat_map] in *; unfold angles in *;
      cbn [filter]; rewrite <- IH; destruct (isAngle c); reflexivity.
Qed.

Lemma angles_lines (sep : jstring) (lines : list jstring) :
  angles sep = [] ->
  angles (join sep (filter (fun line => 0 <? length line) (map trim lines)))
  = flat_map angles lines.
Proof.
  intros Hsep.
  induction lines as [|l lines IH]; [reflexivity|].
  cbn [map filter flat_map]. rewrite <- IH, <- (angles_trim l).
  destruct (trim l) as [|c t]; [reflexivity|].
  change (0 <? length (c :: t)) with true. cbv iota.
  match goal with
  | |- context [filter ?q (map trim lines)] =>
      destruct (filter q (map trim lines)) as [|l' more]
  end; cbn [join].
  - change (angles []) with (@nil ascii). symmetry. apply app_nil_r.
  - unfold angles in *. rewrite !filter_app, Hsep. reflexivity.
Qed.

Lemma filter_middle {A} (p : A -> bool) (s a c : list A) (x : A) :
  filter p s = a ++ x :: c -> exists a' c', s = a' ++ x :: c' /\ filter p c' = c.
Proof.
  revert a. induction s as [|y s IH]; intros a E; cbn [filter] in E.
  - destruct a; discriminate E.
  - destruct (p y).
    + destruct a as [|z a]; cbn [app] in E; injection E as Ey E.
      * subst y. exists [], s. auto.
      * destruct (IH a E) as (a' & c' & -> & Hc). exists (y :: a'), c'. auto.
    + destruct (IH a E) as (a' & c' & -> & Hc). exists (y :: a'), c'. auto.
Qed.

Lemma noTagIn_angles (s t : jstring) :
  noTagIn s -> (exists more, angles s = angles t ++ more) -> noTagIn t.
Proof.
  intros Hs [more E] a c -> Hin.
  unfold angles in E. rewrite filter_app in E. cbn [filter isAngle] in E.
  change (Ascii.eqb "<" "<" || Ascii.eqb "<" ">") with true in E.
  cbn [app] in E. rewrite <- app_assoc in E. cbn [app] in E.
  apply filter_middle in E as (a' & c' & -> & Hc).
  apply (Hs a' c' eq_refl).
  assert (In ">"%char (filter isAngle c')) as H.
  { rewrite Hc. apply in_or_app. left. apply filter_In. split; [exact Hin | reflexivity]. }
  apply filter_In in H. tauto.
Qed.

Lemma crlf_whole (v : jstring) (m : matched) :
  matchHere g (Chr CR ;; Chr LF) v = Some m -> whole m = [CR; LF].
Proof.
  intros H. apply matchHere_sound in H as [_ M].
  inversion M as [| |? ? a1 b1 ? M1 M2| | | | | |].
  inversion M1 as [? x ? Hx| | | | | | | |]. inversion M2 as [? y ? Hy| | | | | | | |].
  apply Ascii.eqb_eq in Hx, Hy. subst. reflexivity.
Qed.

Lemma cr_whole (v : jstring) (m : matched) :
  matchHere g (Chr CR) v = Some m -> whole m = [CR].
Proof.
  intros H. apply matchHere_sound in H as [_ M].
  inversion M as [? x ? Hx| | | | | | | |]. apply Ascii.eqb_eq in Hx. subst. reflexivity.
Qed.

(** The title sanitizer keeps the angle brackets that the removal of tags
    has left, or a prefix of them. *)
Lemma cleanTextContent_angles (text : jstring) :
  exists more,
    angles (replaceAll g anyTagRe [] text) = angles (cleanTextContent text) ++ more.
Proof.
  unfold cleanTextContent, substring0.
  set (t3 := replaceAll g (Chr CR) [LF] _).
  assert (E : angles t3 = angles (replaceAll g anyTagRe [] text)).
  { unfold t3.
    rewrite (replaceAll_angles g (Chr CR)) by
      first [reflexivity | intros v m H; rewrite (cr_whole v m H); reflexivity].
    rewrite (replaceAll_angles g (Chr CR ;; Chr LF)) by
      first [reflexivity | intros v m H; rewrite (crlf_whole v m H); reflexivity].
    reflexivity. }
  rewrite <- E.
  set (joined := join [LF; LF] _).
  assert (J : angles joined = angles t3).
  { unfold joined. rewrite angles_lines by reflexivity. apply angles_split. reflexivity. }
  rewrite <- J. exists (angles (skipn 20000 joined)).
  unfold angles. rewrite <- filter_app, firstn_skipn. reflexivity.
Qed.

Lemma In_trimStart (x : ascii) (s : jstring) : In x (trimStart s) -> In x s.
Proof.
  induction s as [|c s IH]; [intros []|]. cbn [trimStart].
  destruct (isWhiteSpace c); [intros H; right; exact (IH H) | exact (fun H => H)].
Qed.

Lemma In_trim (x : ascii) (s : jstring) : In x (trim s) -> In x s.
Proof.
  unfold trim, trimEnd. intros H. apply in_rev in H. apply In_trimStart in H.
  apply in_rev in H. apply In_trimStart in H. exact H.
Qed.


Lemma In_firstn {A} (n : nat) (x : A) (s : list A) : In x (firstn n s) -> In x s.
Proof. intros H. rewrite <- (firstn_skipn n s). apply in_or_app. left. exact H. Qed.

Lemma In_join (x : ascii) (sep : jstring) (l : list jstring) :
  In x (join sep l) -> In x sep \/ exists y, In y l /\ In x y.
Proof.
  induction l as [|y l IH]; [intros []|]. cbn [join].
  destruct l as [|z l].
  - intros H. right. exists y. split; [left; reflexivity | exact H].
  - intros H. apply in_app_or in H as [H|H]; [right; exists y; split; [left; reflexivity|exact H]|].
    apply in_app_or in H as [H|H]; [left; exact H|].
    destruct (IH H) as [H'|(y' & Hy & Hx)]; [left; exact H'|].
    right. exists y'. split; [right; exact Hy | exact Hx].
Qed.

Lemma In_split (sep x : ascii) (s y : jstring) :
  In y (JS.split sep s) -> In x y -> In x s.
Proof.
  revert y. induction s as [|c s IH]; intros y; cbn [JS.split].
  - intros [<-|[]] [].
  - destruct (Ascii.eqb c sep).
    + intros [<-|H] Hx; [destruct Hx | right; exact (IH y H Hx)].
    + destruct (JS.split sep s) as [|l ls].
      * intros [<-|[]] [->|[]]. left. reflexivity.
      * intros [<-|H] Hx.
        -- destruct Hx as [->|Hx]; [left; reflexivity | right].
           apply (IH l); [left; reflexivity | exact Hx].
        -- right. apply (IH y); [right; exact H | exact Hx].
Qed.

(** Every character of a sanitized title is a line feed or a character of
    the text after its carriage returns have been replaced. *)
Lemma cleanTextContent_chars (text : jstring) (x : ascii) :
  In x (cleanTextContent text) ->
  x = LF \/
  In x (replaceAll g (Chr CR) [LF]
          (replaceAll g (Chr CR ;; Chr LF) [LF] (replaceAll g anyTagRe [] text))).
Proof.
  unfold cleanTextContent, substring0. intros H. apply In_firstn in H.
  apply In_join in H as [[<-|[<-|[]]]|(y & Hy & Hx)]; auto.
  right. apply filter_In in Hy as [Hy _]. apply in_map_iff in Hy as (y0 & <- & Hy0).
  apply In_trim in Hx. exact (In_split _ _ _ _ Hy0 Hx).
Qed.

(** X11. A sanitized title holds no complete tag, that is no [<] that is
    followed anywhere behind it by a [>], and no carriage return. *)
Theorem sanitized_title_holds_no_tag (text : jstring) :
  (forall a b c, cleanTextContent text <> a ++ "<"%char :: b ++ ">"%char :: c) /\
  ~ In CR (cleanTextContent text).
Proof.
  split.
  - intros a b c E.
    assert (N : noTagIn (cleanTextContent text)).
    { apply (noTagIn_angles (replaceAll g anyTagRe [] text)).
      - apply (noTag_after_removal (length text)). apply Nat.le_refl.
      - apply cleanTextContent_angles. }
    apply (N a (b ++ ">"%char :: c) E). apply in_or_app. right. left. reflexivity.
  - intros H. apply cleanTextContent_chars in H as [H|H]; [discriminate H|].
    rewrite replaceAll_Chr in H. apply in_flat_map in H as (y & _ & H).
    destruct (Ascii.eqb_spec CR y) as [E|N].
    + destruct H as [H|[]]. discriminate H.
    + destruct H as [H|[]]. congruence.
Qed.

Lemma element_capture (tag : string) (s : jstring) (m : matched) :
  matchHere gi (elementRe tag) s = Some m -> Forall (fun c => dot c = true) (group1 m).
Proof.
  unfold matchHere, elementRe. intros H.
  apply run_seq_sound in H as (a1 & t1 & cap1 & _ & _ & H).
  apply run_seq_sound in H as (a2 & t2 & cap2 & _ & _ & H).
  apply run_seq_sound in H as (a3 & t3 & cap3 & _ & _ & H).
  apply run_seq_group_sound in H as (a & t & _ & M & H).
  apply run_groupFree in H as (c & t' & _ & _ & H); [|apply groupFree_chars].
  injection H as <-. cbn [group1]. inversion M. assumption.
Qed.

Lemma headNotBlank_firstn (n : nat) (s : jstring) : headNotBlank s -> headNotBlank (firstn n s).
Proof. destruct n, s; cbn; auto. Qed.

(** The sanitized form of a text without line terminators. *)
Lemma cleanTextContent_one_line (raw : jstring) :
  Forall (fun c => dot c = true) raw ->
  Forall (fun c => c <> CR /\ c <> LF) (cleanTextContent raw) /\
  headNotBlank (cleanTextContent raw).
Proof.
  intros Hraw.
  set (t1 := replaceAll g anyTagRe [] raw).
  assert (H1 : Forall (fun c => dot c = true) t1).
  { apply Forall_forall. intros x Hx. apply replaceFrom_incl in Hx.
    rewrite Forall_forall in Hraw. exact (Hraw x Hx). }
  assert (NoCR : Forall (fun x => chrMatches g CR x = false) t1).
  { eapply Forall_impl; [|exact H1]. intros c Hd. apply dot_not_break in Hd as [Hd _].
    apply Ascii.eqb_neq. congruence. }
  assert (E : cleanTextContent raw
              = substring0 20000 (join [LF; LF] (filter (fun line => 0 <? length line) [trim t1]))).
  { unfold cleanTextContent. fold t1.
    rewrite !(replaceAll_inert g _ CR _ t1) by first [reflexivity | exact NoCR].
    rewrite split_line; [reflexivity|].
    eapply Forall_impl; [|exact H1]. intros c Hd. apply dot_not_break in Hd. tauto. }
  rewrite E. cbn [filter]. unfold substring0.
  destruct (trim t1) as [|c u] eqn:T; [cbn [length Nat.ltb Nat.leb join]; rewrite firstn_nil;
    split; [constructor | exact I]|].
  change (0 <? length (c :: u)) with true. cbv iota. cbn [join]. rewrite <- T. split.
  - apply Forall_forall. intros x Hx. apply In_firstn, In_trim in Hx.
    rewrite Forall_forall in H1. apply dot_not_break, H1, Hx.
  - apply headNotBlank_firstn. apply trimEnd_head, trimStart_head.
Qed.

Lemma firstTitle_source (patterns : list regex) (html t : jstring) :
  firstTitle patterns html = Some t ->
  exists pattern m, In pattern patterns /\ search gi pattern html = Some m /\
                    t = cleanTextContent (group1 m).
Proof.
  induction patterns as [|p patterns IH]; [discriminate|]. cbn [firstTitle].
  destruct (search gi p html) as [m|] eqn:E.
  - destruct (0 <? length (trim (group1 m))).
    + intros [= <-]. exists p, m. repeat split; [left; reflexivity | exact E].
    + intros H. destruct (IH H) as (p' & m' & Hin & Hs & Ht). exists p', m'.
      split; [right; exact Hin | auto].
  - intros H. destruct (IH H) as (p' & m' & Hin & Hs & Ht). exists p', m'.
      split; [right; exact Hin | auto].
Qed.

(** X12. A title taken from the document is the sanitized form of the
    text captured by the first title pattern whose capture is not blank; it
    holds no line break and does not start with white space. *)
Theorem document_title_is_one_line (html t : jstring) :
  extractTitleFromHtml html = Some t ->
  Forall (fun c => c <> CR /\ c <> LF) t /\ headNotBlank t /\
  exists raw, In raw (captures html) /\ trim raw <> [] /\ t = cleanTextContent raw.
Proof.
  intros H.
  assert (S := H). unfold extractTitleFromHtml in S.
  apply firstTitle_source in S as (p & m & Hin & Hs & Ht).
  assert (D : Forall (fun c => dot c = true) (group1 m)).
  { apply search_sound in Hs as (u & _ & Hm).
    unfold titlePatterns in Hin.
    destruct Hin as [<-|[<-|[<-|[<-|[]]]]]; exact (element_capture _ _ _ Hm). }
  destruct (cleanTextContent_one_line _ D) as [L B]. rewrite <- Ht in L, B.
  split; [exact L|]. split; [exact B|].
  clear Ht L B D Hs Hin.
  unfold extractTitleFromHtml in H. rewrite firstTitle_find in H. fold (captures html) in H.
  generalize dependent (captures html). intros l H.
  induction l as [|raw l IH]; [discriminate H|].
  cbn [find] in H. unfold notEmpty at 1 in H.
  destruct (trim raw) as [|c u] eqn:T.
  - destruct (IH H) as (raw' & Hin' & Hne & Ht). exists raw'. split; [right; exact Hin' | auto].
  - exists raw. split; [left; reflexivity|]. split; [rewrite T; discriminate|].
    cbn [option_map] in H. injection H as H. symmetry. exact H.
Qed.

Lemma document_title_is_one_line_witness :
  Forall (fun c => c <> CR /\ c <> LF) (lit "Two") /\ headNotBlank (lit "Two") /\
  exists raw, In raw (captures (lit "<head><title> Two </title></head><h1>Second</h1>")) /\
              trim raw <> [] /\ lit "Two" = cleanTextContent raw.
Proof.
  apply (document_title_is_one_line
           (lit "<head><title> Two </title></head><h1>Second</h1>") (lit "Two")).
  vm_compute. reflexivity.
Defined.

End TitleSanitizerFacts.

(** ** Style sheets, and two edges of the sanitizer *)

Section StyleSheetFacts.

Lemma extractCssStyles_app zip cssPath h : extractCssStyles zip cssPath h = h ++ sheetOf zip cssPath.
Proof.
  unfold extractCssStyles, sheetOf. destruct (truthy (file zip cssPath)); [reflexivity|].
  symmetry. apply app_nil_r.
Qed.

Lemma styles_fold zip paths h :
  fold_left (fun h' cssPath => extractCssStyles zip cssPath h') paths h
  = h ++ flat_map (sheetOf zip) paths.
Proof.
  revert h. induction paths as [|p paths IH]; intros h; cbn [fold_left flat_map].
  - symmetry. apply app_nil_r.
  - rewrite IH, extractCssStyles_app, <- app_assoc. reflexivity.
Qed.

Lemma directLoop_styles zip names acc h :
  snd (directLoop zip names acc h)
  = h ++ flat_map (sheetOf zip)
           (filter (fun name => isSome (search gi cssSuffixRe name) &&
                                negb (includes (lit "META-INF") name)) names).
Proof.
  revert acc h. induction names as [|n names IH]; intros acc h; cbn [directLoop filter].
  - symmetry. apply app_nil_r.
  - rewrite IH.
    destruct (isSome (search gi cssSuffixRe n) && negb (includes (lit "META-INF") n)).
    + rewrite extractCssStyles_app, <- app_assoc. reflexivity.
    + reflexivity.
Qed.

Lemma endsWith_app (p u s : jstring) : endsWith p s = true -> endsWith p (u ++ s) = true.
Proof.
  rewrite !endsWith_spec. intros [v ->]. exists (u ++ v). apply app_assoc.
Qed.

Lemma cssSuffix_name (name : jstring) :
  isSome (search gi cssSuffixRe name) = true -> hasStyleSuffix name = true.
Proof.
  intros H. apply search_isSome in H as (u & v & -> & H).
  apply matchHere_iff in H as (a & t & -> & M). unfold cssSuffixRe in M.
  inversion M as [| |? ? a1 b1 ? M1 M2| | | | | |]; subst.
  inversion M2; subst. apply (Matches_chars ".css") in M1.
  unfold hasStyleSuffix. rewrite !app_nil_r, upper_app, M1.
  apply endsWith_spec. exists (upper u). reflexivity.
Qed.

Lemma hrefCss_capture (s : jstring) (m : matched) :
  matchHere gi hrefCssRe s = Some m -> hasStyleSuffix (group1 m) = true.
Proof.
  unfold matchHere, hrefCssRe. intros H.
  apply run_seq_sound in H as (a1 & t1 & cap1 & E1 & _ & H).
  apply run_seq_sound in H as (a2 & t2 & cap2 & E2 & _ & H).
  apply run_seq_group_sound in H as (a & t & E & M & H).
  cbn [run] in H. destruct t as [|y t]; [discriminate|].
  destruct (chrMatches gi dq y); [|discriminate].
  injection H as <-. cbn [group1].
  inversion M as [| |? ? a3 b3 ? M1 M2| | | | | |]; subst.
  apply (Matches_chars ".css") in M2.
  unfold hasStyleSuffix. rewrite upper_app, M2.
  apply endsWith_spec. exists (upper a3). reflexivity.
Qed.

Lemma hrefsOf_styles basePath (matches : list jstring) :
  Forall (fun path => hasStyleSuffix path = true) (hrefsOf hrefCssRe basePath matches).
Proof.
  induction matches as [|w ms IH]; cbn [hrefsOf]; [constructor|].
  destruct (search gi hrefCssRe w) as [hrefMatch|] eqn:E; [|exact IH].
  constructor; [|exact IH].
  apply search_sound in E as (u & _ & E). apply hrefCss_capture in E.
  unfold hasStyleSuffix in *. rewrite upper_app. apply endsWith_app, E.
Qed.

Lemma sheetOf_entries zip paths :
  Forall (fun css => css <> [] /\ exists path, In path paths /\ In (path, css) zip)
         (flat_map (sheetOf zip) paths).
Proof.
  induction paths as [|p paths IH]; [constructor|]. cbn [flat_map].
  apply Forall_app. split.
  - unfold sheetOf. destruct (file zip p) as [[|c css]|] eqn:F; cbn [truthy]; constructor;
      [|constructor]. split; [discriminate|]. exists p. split; [left; reflexivity|].
    apply file_Some, F.
  - eapply Forall_impl; [|exact IH]. intros css (Hne & path & Hin & Hz).
    split; [exact Hne|]. exists path. split; [right; exact Hin | exact Hz].
Qed.

(** X13. The extraction only appends to the styles of the document, and
    every style sheet it appends is the text, which is not empty, of an
    entry of the archive whose name ends in [.css], in any case. *)
Theorem injected_styles_are_style_sheets_of_the_archive (zip : archive) (h : head) :
  exists paths,
    snd (extractEpubContentIn zip h) = h ++ flat_map (sheetOf zip) paths /\
    Forall (fun path => hasStyleSuffix path = true) paths /\
    Forall (fun css => css <> [] /\ exists path, In path paths /\ In (path, css) zip)
           (flat_map (sheetOf zip) paths).
Proof.
  assert (D : forall h1, exists paths,
            snd (extractHtmlFilesDirectly zip h1) = h1 ++ flat_map (sheetOf zip) paths /\
            Forall (fun path => hasStyleSuffix path = true) paths).
  { intros h1. eexists. split; [apply directLoop_styles|].
    apply Forall_forall. intros name Hin. apply filter_In in Hin as [_ Hin].
    apply andb_prop in Hin as [Hin _]. apply cssSuffix_name, Hin. }
  assert (M : exists paths,
            snd (manifestChapters zip h) = h ++ flat_map (sheetOf zip) paths /\
            Forall (fun path => hasStyleSuffix path = true) paths).
  { unfold manifestChapters.
    assert (Z : exists paths : list jstring, h = h ++ flat_map (sheetOf zip) paths /\
                  Forall (fun path => hasStyleSuffix path = true) paths)
      by (exists []; split; [symmetry; apply app_nil_r | constructor]).
    destruct (truthy (file zip (lit "META-INF/container.xml"))) as [containerXml|];
      [|exact Z].
    destruct (search gi rootfileRe containerXml) as [opfMatch|]; [|exact Z].
    destruct (truthy (file zip (group1 opfMatch))) as [opfContent|]; [|exact Z].
    unfold extractHtmlFilesFromOpf. cbn [snd].
    eexists. split; [apply styles_fold | apply hrefsOf_styles]. }
  destruct M as (p1 & E1 & F1).
  unfold extractEpubContentIn.
  destruct (manifestChapters zip h) as [chs h1]. cbn [snd] in E1. subst h1.
  assert (Both : forall paths, Forall (fun path => hasStyleSuffix path = true) paths ->
            exists paths' : list jstring,
              h ++ flat_map (sheetOf zip) paths = h ++ flat_map (sheetOf zip) paths' /\
              Forall (fun path => hasStyleSuffix path = true) paths' /\
              Forall (fun css => css <> [] /\ exists path, In path paths' /\ In (path, css) zip)
                     (flat_map (sheetOf zip) paths')).
  { intros paths F. exists paths. split; [reflexivity|]. split; [exact F|].
    apply sheetOf_entries. }
  destruct chs as [|c chs].
  - destruct (D (h ++ flat_map (sheetOf zip) p1)) as (p2 & E2 & F2).
    destruct (extractHtmlFilesDirectly zip (h ++ flat_map (sheetOf zip) p1)) as [files h2].
    cbn [snd] in *. subst h2. rewrite <- app_assoc, <- flat_map_app.
    apply Both. apply Forall_app. split; assumption.
  - cbn [snd]. apply Both, F1.
Qed.

End StyleSheetFacts.

Section SanitizerEdges.

(** Proves [nowhere f r s] for a text made of literal characters and of
    segments known to hold no [c]. *)
Ltac inert_at c :=
  cbn [lit list_ascii_of_string app String.append];
  repeat first
    [ apply nowhere_nil; reflexivity
    | apply nowhere_cons; [reflexivity|]
    | apply nowhere_app; [apply (dead_chars _ _ c); [reflexivity | assumption]|]
    | apply (nowhere_inert _ _ c); [reflexivity | assumption] ].

Ltac free_of :=
  cbn [lit list_ascii_of_string app String.append];
  repeat first
    [ assumption
    | apply Forall_nil
    | apply Forall_cons; [reflexivity|]
    | apply Forall_app; split ].

Lemma Matches_chars_head (f : flags) (c : ascii) (w : string) (a t : jstring) :
  Matches f (chars (String c w)) a t -> exists x a', a = x :: a' /\ chrMatches f c x = true.
Proof.
  destruct w as [|c' w].
  - cbn. intros M. inversion M; subst. eauto.
  - change (chars (String c (String c' w))) with (Seq (Chr c) (chars (String c' w))).
    intros M. inversion M as [| |? ? a1 b1 ? M1 M2| | | | | |]; subst.
    inversion M1; subst. cbn. eauto.
Qed.

(** A block pattern matches only where a closing tag follows: the text
    behind the first character holds another [<]. *)
Lemma block_needs_closing_tag (tag : string) (s : jstring) :
  matchHere gi (blockRe tag) s <> None ->
  exists x s', s = x :: s' /\ exists y, In y s' /\ chrMatches gi "<" y = true.
Proof.
  intros H. apply matchHere_iff in H as (a & t & -> & M). unfold blockRe in M.
  inversion M as [| |? ? a1 b1 ? M1 M2| | | | | |]; subst.
  inversion M2 as [| |? ? a2 b2 ? M3 M4| | | | | |]; subst.
  inversion M4 as [| |? ? a3 b3 ? M5 M6| | | | | |]; subst.
  inversion M6 as [| |? ? a4 b4 ? M7 M8| | | | | |]; subst.
  apply (Matches_chars_head gi "<" tag) in M1 as (x & a1' & -> & _).
  apply (Matches_chars_head gi "<" ("/" ++ tag ++ ">")) in M8 as (y & b4' & -> & Hy).
  exists x, (a1' ++ (a2 ++ a3 ++ a4 ++ y :: b4') ++ t).
  split; [cbn [app]; rewrite <- app_assoc; reflexivity|].
  exists y. split; [|exact Hy].
  apply in_or_app. right. apply in_or_app. left.
  apply in_or_app. right. apply in_or_app. right. apply in_or_app. right. left. reflexivity.
Qed.

(** X14. A script element that is never closed is not removed: where the
    text behind the opening tag holds no [<], the sanitizer returns the
    document, opening tag and script text included, only trimmed. *)
Theorem unclosed_script_is_kept (pre attrs body : jstring) :
  plainText pre -> plainText attrs -> plainText body ->
  cleanHtmlContent (pre ++ lit "<script" ++ attrs ++ ">"%char :: body)
  = trim (pre ++ lit "<script" ++ attrs ++ ">"%char :: body).
Proof.
  intros Hpre Ha Hb.
  assert (Lpre := plain_lt gi pre Hpre). assert (La := plain_lt gi attrs Ha).
  assert (Lb := plain_lt gi body Hb).
  assert (Apre := plain_amp g pre Hpre). assert (Aa := plain_amp g attrs Ha).
  assert (Ab := plain_amp g body Hb).
  rewrite cleanHtmlContent_stages. f_equal.
  assert (St : stripTags (pre ++ lit "<script" ++ attrs ++ ">"%char :: body)
               = pre ++ lit "<script" ++ attrs ++ ">"%char :: body).
  { unfold stripTags.
    assert (S : replaceAll gi (blockRe "script") []
                  (pre ++ lit "<script" ++ attrs ++ ">"%char :: body)
                = pre ++ lit "<script" ++ attrs ++ ">"%char :: body).
    { apply replaceAll_nowhere. apply nowhere_app.
      - apply (dead_chars gi _ "<"%char); [reflexivity | assumption].
      - cbn [lit list_ascii_of_string app]. apply nowhere_cons.
        + destruct (matchHere gi (blockRe "script") _) eqn:E; [|reflexivity]. exfalso.
          destruct (block_needs_closing_tag "script" _ ltac:(rewrite E; discriminate))
            as (x & s' & Es & y & Hy & Hlt).
          injection Es as <- <-.
          assert (F : Forall (fun x => chrMatches gi "<" x = false)
                        ("s"%char :: "c"%char :: "r"%char :: "i"%char :: "p"%char :: "t"%char
                           :: attrs ++ ">"%char :: body)) by free_of.
          rewrite Forall_forall in F. rewrite (F y Hy) in Hlt. discriminate.
        + inert_at "<"%char. }
    rewrite S.
    rewrite (replaceAll_nowhere gi (blockRe "style")) by inert_at "<"%char.
    rewrite (replaceAll_nowhere gi (tagRe "meta")) by inert_at "<"%char.
    rewrite (replaceAll_nowhere gi (tagRe "link")) by inert_at "<"%char.
    reflexivity. }
  rewrite St. apply decodeEntities_inert. free_of.
Qed.

Lemma unclosed_script_is_kept_witness :
  cleanHtmlContent (lit "Hello " ++ lit "<script" ++ lit " defer" ++ ">"%char :: lit "run()")
  = trim (lit "Hello " ++ lit "<script" ++ lit " defer" ++ ">"%char :: lit "run()").
Proof.
  apply (unclosed_script_is_kept (lit "Hello ") (lit " defer") (lit "run()"));
    repeat constructor; discriminate.
Defined.

(** X15. The entities are decoded one after the other, [&amp;] before
    [&lt;] and [&gt;]: an angle bracket that is escaped twice, [&amp;lt;]
    or [&amp;gt;], leaves the sanitizer as the angle bracket itself. *)
Theorem doubly_escaped_bracket_is_decoded_twice (pre post : jstring) :
  plainText pre -> plainText post ->
  cleanHtmlContent (pre ++ lit "&amp;lt;" ++ post) = trim (pre ++ lit "<" ++ post) /\
  cleanHtmlContent (pre ++ lit "&amp;gt;" ++ post) = trim (pre ++ lit ">" ++ post).
Proof.
  intros Hpre Hpost.
  assert (Lpre := plain_lt gi pre Hpre). assert (Lpost := plain_lt gi post Hpost).
  assert (Apre := plain_amp g pre Hpre). assert (Apost := plain_amp g post Hpost).
  assert (Copy : forall r by_ s, firstChar r = Some "&"%char ->
            replaceAll g r by_ (pre ++ s) = pre ++ replaceAll g r by_ s).
  { intros r by_ s Hr. apply replaceAll_copy. apply (dead_chars g _ "&"%char); assumption. }
  assert (Inert : forall r by_, firstChar r = Some "&"%char -> replaceAll g r by_ post = post).
  { intros r by_ Hr. apply (replaceAll_inert g r "&"%char); assumption. }
  split; rewrite cleanHtmlContent_stages; f_equal; rewrite stripTags_inert by free_of;
    unfold decodeEntities.
  - rewrite (replaceAll_nowhere g (chars "&nbsp;")) by inert_at "&"%char.
    rewrite Copy by reflexivity.
    change (lit "&amp;lt;" ++ post) with (lit "&amp;" ++ lit "lt;" ++ post).
    rewrite replaceAll_chars.
    rewrite (replaceAll_inert g (chars "&amp;") "&"%char _ (lit "lt;" ++ post))
      by (reflexivity || free_of).
    rewrite Copy by reflexivity.
    change (lit "&" ++ lit "lt;" ++ post) with (lit "&lt;" ++ post).
    rewrite replaceAll_chars, Inert by reflexivity.
    rewrite !(replaceAll_inert g _ "&"%char _ (pre ++ lit "<" ++ post))
      by (reflexivity || free_of).
    reflexivity.
  - rewrite (replaceAll_nowhere g (chars "&nbsp;")) by inert_at "&"%char.
    rewrite Copy by reflexivity.
    change (lit "&amp;gt;" ++ post) with (lit "&amp;" ++ lit "gt;" ++ post).
    rewrite replaceAll_chars.
    rewrite (replaceAll_inert g (chars "&amp;") "&"%char _ (lit "gt;" ++ post))
      by (reflexivity || free_of).
    rewrite (replaceAll_nowhere g (chars "&lt;")) by inert_at "&"%char.
    rewrite Copy by reflexivity.
    change (lit "&" ++ lit "gt;" ++ post) with (lit "&gt;" ++ post).
    rewrite replaceAll_chars, Inert by reflexivity.
    rewrite !(replaceAll_inert g _ "&"%char _ (pre ++ lit ">" ++ post))
      by (reflexivity || free_of).
    reflexivity.
Qed.

Lemma doubly_escaped_bracket_is_decoded_twice_witness :
  cleanHtmlContent (lit "1 " ++ lit "&amp;lt;" ++ lit " 2") = trim (lit "1 " ++ lit "<" ++ lit " 2") /\
  cleanHtmlContent (lit "1 " ++ lit "&amp;gt;" ++ lit " 2") = trim (lit "1 " ++ lit ">" ++ lit " 2").
Proof.
  apply (doubly_escaped_bracket_is_decoded_twice (lit "1 ") (lit " 2"));
    repeat constructor; discriminate.
Defined.

End SanitizerEdges.

(** ** File names, extensions and book titles *)

Section FileFacts.
Import Files.

Lemma pop_snoc {A} (l : list A) (x : A) : pop (l ++ [x]) = Some x.
Proof.
  induction l as [|y l IH]; [reflexivity|]. cbn [app pop].
  destruct (l ++ [x]) eqn:E; [destruct l; discriminate E | exact IH].
Qed.

Lemma splitAt_line (p : ascii -> bool) (s : jstring) :
  Forall (fun c => p c = false) s -> splitAt p s = [s].
Proof.
  induction 1 as [|c s Hc Hs IH]; cbn [splitAt]; [reflexivity|]. rewrite Hc, IH. reflexivity.
Qed.

Lemma splitAt_last (p : ascii -> bool) (dir name : jstring) (sep : ascii) :
  p sep = true -> Forall (fun c => p c = false) name ->
  exists first more, splitAt p (dir ++ sep :: name) = (first :: more) ++ [name].
Proof.
  intros Hsep Hname. induction dir as [|c dir (first & more & IH)]; cbn [app splitAt].
  - rewrite Hsep, (splitAt_line p name Hname). exists [], []. reflexivity.
  - rewrite IH. destruct (p c).
    + exists [], (first :: more). reflexivity.
    + exists (c :: first), more. reflexivity.
Qed.

Lemma split_splitAt (sep : ascii) (s : jstring) :
  JS.split sep s = splitAt (fun c => Ascii.eqb c sep) s.
Proof.
  induction s as [|c s IH]; [reflexivity|]. cbn [JS.split splitAt]. rewrite IH. reflexivity.
Qed.

(** X16. The file name shown for a path is what follows its last slash or
    backslash, or the whole path when it has neither; when that is empty
    the name is [Unknown File]. *)
Theorem file_name_is_the_last_segment (dir name : jstring) (sep : ascii) :
  isSeparator sep = true ->
  Forall (fun c => isSeparator c = false) name ->
  getFileName (dir ++ sep :: name)
  = match name with [] => lit "Unknown File" | _ :: _ => name end /\
  getFileName name = match name with [] => lit "Unknown File" | _ :: _ => name end.
Proof.
  intros Hsep Hname. unfold getFileName. split.
  - destruct (splitAt_last isSeparator dir name sep Hsep Hname) as (first & more & ->).
    rewrite pop_snoc. destruct name; reflexivity.
  - rewrite (splitAt_line isSeparator name Hname). destruct name; reflexivity.
Qed.

Lemma file_name_is_the_last_segment_witness :
  getFileName ((lit "C:" ++ backslash :: lit "books") ++ backslash :: lit "emma.epub")
  = lit "emma.epub" /\
  getFileName (lit "emma.epub") = lit "emma.epub".
Proof.
  apply (file_name_is_the_last_segment (lit "C:" ++ backslash :: lit "books")
           (lit "emma.epub") backslash).
  - reflexivity.
  - repeat constructor.
Defined.

Lemma last_occurrence {A} (dec : forall x y : A, {x = y} + {x <> y}) (x : A) (l : list A) :
  In x l -> exists u t, l = u ++ x :: t /\ ~ In x t.
Proof.
  induction l as [|y l IH]; [intros []|]. intros H.
  destruct (in_dec dec x l) as [Hin|Hout].
  - destruct (IH Hin) as (u & t & -> & Ht). exists (y :: u), t. auto.
  - destruct H as [->|H]; [|contradiction]. exists [], l. auto.
Qed.

(** The extension is what follows the last dot of the lower-cased path, or
    the whole of it when there is no dot. *)
Lemma fileExtension_spec (filePath extension : jstring) :
  fileExtension filePath = Some extension <->
  ~ In "."%char extension /\
  (toLowerCase filePath = extension \/
   exists stem, toLowerCase filePath = stem ++ "."%char :: extension).
Proof.
  unfold fileExtension. rewrite split_splitAt.
  set (p := fun c => Ascii.eqb c "."). set (s := toLowerCase filePath).
  assert (Free : forall t, ~ In "."%char t -> Forall (fun c => p c = false) t).
  { intros t Ht. apply Forall_forall. intros c Hc. unfold p. apply Ascii.eqb_neq.
    intros ->. contradiction. }
  assert (Value : exists e, pop (splitAt p s) = Some e /\ ~ In "."%char e /\
                    (s = e \/ exists stem, s = stem ++ "."%char :: e)).
  { destruct (in_dec ascii_dec "."%char s) as [Hin|Hout].
    - destruct (last_occurrence ascii_dec _ _ Hin) as (u & t & E & Ht).
      destruct (splitAt_last p u t "."%char eq_refl (Free t Ht)) as (first & more & Hs).
      exists t. rewrite E, Hs, pop_snoc. eauto.
    - exists s. rewrite (splitAt_line p s (Free s Hout)). auto. }
  destruct Value as (e & Hpop & Hfree & Hshape). rewrite Hpop. split.
  - intros [= <-]. auto.
  - intros [Hx Hs]. f_equal.
    assert (Unique : forall a b u v : jstring,
              ~ In "."%char a -> ~ In "."%char b -> u ++ "."%char :: a = v ++ "."%char :: b ->
              a = b).
    { intros a b u v Ha Hb E.
      apply (f_equal (@rev ascii)) in E. rewrite !rev_app_distr in E. cbn [rev] in E.
      rewrite <- !app_assoc in E. cbn [app] in E.
      assert (R : rev a = rev b).
      { revert E. generalize (rev u) (rev v).
        assert (Ha' : ~ In "."%char (rev a)) by (rewrite <- in_rev; exact Ha).
        assert (Hb' : ~ In "."%char (rev b)) by (rewrite <- in_rev; exact Hb).
        revert Ha' Hb'. generalize (rev a) (rev b). clear.
        induction l as [|x l IH]; intros [|y l'] Ha Hb u v E; cbn [app] in E.
        - reflexivity.
        - injection E as <- _. exfalso. apply Hb. left. reflexivity.
        - injection E as -> _. exfalso. apply Ha. left. reflexivity.
        - injection E as -> E. f_equal. apply (IH l' ltac:(intros H; apply Ha; right; exact H)
                                                 ltac:(intros H; apply Hb; right; exact H) u v E). }
      rewrite <- (rev_involutive a), R. apply rev_involutive. }
    destruct Hshape as [He|[u He]], Hs as [Hs|[v Hs]].
    + congruence.
    + exfalso. apply Hfree. rewrite <- He, Hs. apply in_or_app. right. left. reflexivity.
    + exfalso. apply Hx. rewrite <- Hs, He. apply in_or_app. right. left. reflexivity.
    + apply (Unique e extension u v Hfree Hx). congruence.
Qed.

Lemma asFileType_spec (extension : jstring) (type : fileType) :
  asFileType extension = Some type <->
  extension = match type with epub => lit "epub" | pdf => lit "pdf" end.
Proof.
  unfold asFileType.
  destruct (list_eq_dec ascii_dec extension (lit "epub")) as [->|N1].
  - destruct type; split; intros H; try reflexivity; discriminate H.
  - destruct (list_eq_dec ascii_dec extension (lit "pdf")) as [->|N2].
    + destruct type; split; intros H; try reflexivity; discriminate H.
    + destruct type; split; intros H; try discriminate H; contradiction.
Qed.

Lemma opened_iff (filePath : jstring) (type : fileType) (word : string) :
  lit word = match type with epub => lit "epub" | pdf => lit "pdf" end ->
  onFileOpened filePath = Some (filePath, type) <->
  toLowerCase filePath = lit word \/
  endsWith ("."%char :: lit word) (toLowerCase filePath) = true.
Proof.
  intros Hword. unfold onFileOpened. rewrite endsWith_spec.
  assert (Free : ~ In "."%char (lit word)).
  { rewrite Hword. destruct type; cbn; intuition discriminate. }
  destruct (fileExtension filePath) as [e|] eqn:E.
  - destruct (asFileType e) as [ty|] eqn:T.
    + apply asFileType_spec in T. apply fileExtension_spec in E as [He Hs]. split.
      * intros [= <-]. rewrite Hword, <- T. exact Hs.
      * intros H. do 2 f_equal.
        assert (E' : fileExtension filePath = Some (lit word))
          by (apply fileExtension_spec; split; [exact Free | exact H]).
        assert (E0 : fileExtension filePath = Some e)
          by (apply fileExtension_spec; split; assumption).
        rewrite E0 in E'. injection E' as E'. rewrite T, Hword in E'.
        destruct ty, type; try reflexivity; discriminate E'.
    + split; [discriminate|]. intros H. exfalso.
      assert (E' : fileExtension filePath = Some (lit word))
        by (apply fileExtension_spec; split; [exact Free | exact H]).
      rewrite E in E'. injection E' as ->.
      assert (T' : asFileType (lit word) = Some type) by (apply asFileType_spec, Hword).
      congruence.
  - split; [discriminate|]. intros H. exfalso.
    assert (E' : fileExtension filePath = Some (lit word))
      by (apply fileExtension_spec; split; [exact Free | exact H]).
    congruence.
Qed.

(** X17. The listener for opened files opens the reader for an EPUB
    exactly when the lower-cased path is [epub] or ends in [.epub], and for
    a PDF exactly when it is [pdf] or ends in [.pdf]: a path without a dot
    counts as its own extension.  The import button decides in the same
    way: an empty answer of the dialog is a cancellation, an accepted path
    is selected with the same type, and any other path is refused with the
    message of the source. *)
Theorem opened_files_end_in_epub_or_pdf (filePath : jstring) :
  (onFileOpened filePath = Some (filePath, epub) <->
   toLowerCase filePath = lit "epub" \/
   endsWith (lit ".epub") (toLowerCase filePath) = true) /\
  (onFileOpened filePath = Some (filePath, pdf) <->
   toLowerCase filePath = lit "pdf" \/
   endsWith (lit ".pdf") (toLowerCase filePath) = true) /\
  handleFileImport (Resolved (Some filePath))
  = match filePath, onFileOpened filePath with
    | [], _ => Cancelled
    | _ :: _, Some (path, type) => Selected path type
    | _ :: _, None => Failed (lit "Please select a valid EPUB or PDF file.")
    end.
Proof.
  split; [apply (opened_iff filePath epub "epub"); reflexivity|].
  split; [apply (opened_iff filePath pdf "pdf"); reflexivity|].
  unfold handleFileImport, onFileOpened. destruct filePath as [|c path]; [reflexivity|].
  cbn [truthy]. destruct (fileExtension (c :: path)) as [[|x e]|]; try reflexivity.
  cbn [truthy]. destruct (asFileType (x :: e)); reflexivity.
Qed.


Lemma extension_matches (v t : jstring) :
  Matches gi extensionRe v t <-> t = [] /\ (upper v = lit ".PDF" \/ upper v = lit ".EPUB").
Proof.
  unfold extensionRe. split.
  - intros M.
    inversion M as [| |? ? a1 b1 ? M1 M2| | | | | |]; subst.
    inversion M2 as [| |? ? a2 b2 ? M3 M4| | | | | |]; subst.
    inversion M4; subst. inversion M3 as [| | | | | | |? ? ? M5|]; subst.
    inversion M1 as [? x ? Hx| | | | | | | |]; subst. apply chrMatches_gi in Hx.
    split; [reflexivity|]. rewrite app_nil_r. cbn [app upper map]. rewrite Hx.
    inversion M5 as [| | |? ? ? ? M6|? ? ? ? M6| | | |]; subst.
    + apply (Matches_chars "pdf") in M6. fold (upper a2). rewrite M6. left. reflexivity.
    + apply (Matches_chars "epub") in M6. fold (upper a2). rewrite M6. right. reflexivity.
  - intros [-> H].
    destruct v as [|x v]; [destruct H; discriminate|].
    assert (Hx : canonicalize x = "."%char) by (destruct H as [H|H]; injection H; auto).
    assert (Hv : upper v = lit "PDF" \/ upper v = lit "EPUB")
      by (destruct H as [H|H]; injection H; auto).
    apply (MatchesSeq gi (Chr ".") _ [x] v []);
      [constructor; apply chrMatches_gi; exact Hx|].
    rewrite <- (app_nil_r v). apply (MatchesSeq gi (Group _) EndAnchor v [] []); [|constructor].
    constructor. destruct Hv as [Hv|Hv].
    + apply MatchesAltL. apply (chars_Matches "p" "df"). exact Hv.
    + apply MatchesAltR. apply (chars_Matches "e" "pub"). exact Hv.
Qed.

(** The replacement of the leftmost match. *)
Lemma replaceFirst_spec (f : flags) (r : regex) (by_ s : jstring) :
  (exists u m, s = u ++ whole m ++ rest m /\ matchHere f r (whole m ++ rest m) = Some m /\
               replaceFirst f r by_ s = u ++ by_ ++ rest m) \/
  (nowhere f r s /\ replaceFirst f r by_ s = s).
Proof.
  induction s as [|c s IH]; cbn [replaceFirst].
  - destruct (matchHere f r []) as [m|] eqn:E.
    + left. exists [], m. destruct (matchHere_sound _ _ _ _ E) as [Hs _].
      rewrite <- Hs. auto.
    + right. split; [apply nowhere_nil, E | reflexivity].
  - destruct (matchHere f r (c :: s)) as [m|] eqn:E.
    + left. exists [], m. destruct (matchHere_sound _ _ _ _ E) as [Hs _].
      rewrite <- Hs. auto.
    + destruct IH as [(u & m & Hs & Hm & Hr)|[N Hr]].
      * left. exists (c :: u), m. rewrite Hr. cbn [app]. rewrite <- Hs. auto.
      * right. rewrite Hr. split; [apply nowhere_cons; assumption | reflexivity].
Qed.

Lemma app_inj_length {A} (a b c d : list A) :
  a ++ b = c ++ d -> length b = length d -> a = c /\ b = d.
Proof.
  revert c. induction a as [|x a IH]; intros [|y c] E L; cbn [app] in E.
  - auto.
  - exfalso. apply (f_equal (@length A)) in E. cbn [length] in E. rewrite length_app in E. lia.
  - exfalso. apply (f_equal (@length A)) in E. cbn [length] in E. rewrite length_app in E. lia.
  - injection E as -> E. destruct (IH c E L) as [-> ->]. auto.
Qed.

Lemma upper_length (s : jstring) : length (upper s) = length s.
Proof. apply length_map. Qed.

Lemma replaceFirst_extension :
  (forall stem extension : jstring,
     upper extension = lit ".PDF" \/ upper extension = lit ".EPUB" ->
     replaceFirst gi extensionRe [] (stem ++ extension) = stem) /\
  (forall name : jstring,
     hasBookSuffix name = false -> replaceFirst gi extensionRe [] name = name).
Proof.
  assert (Found : forall s u m,
            s = u ++ whole m ++ rest m ->
            matchHere gi extensionRe (whole m ++ rest m) = Some m ->
            s = u ++ whole m /\ rest m = [] /\
            (upper (whole m) = lit ".PDF" \/ upper (whole m) = lit ".EPUB")).
  { intros s u m Hs Hm. apply matchHere_sound in Hm as [_ M].
    apply extension_matches in M as [Hr Hw]. rewrite Hr, app_nil_r in Hs. auto. }
  split.
  - intros stem extension Hext.
    destruct (replaceFirst_spec gi extensionRe [] (stem ++ extension))
      as [(u & m & Hs & Hm & ->)|[N _]].
    + destruct (Found _ u m Hs Hm) as (Hs' & -> & Hw). cbn [app]. rewrite app_nil_r.
      assert (Lw := upper_length (whole m)). assert (Le := upper_length extension).
      destruct Hext as [He|He], Hw as [Hw|Hw]; rewrite He in Le; rewrite Hw in Lw;
        cbn [length lit list_ascii_of_string] in Le, Lw.
      * destruct (app_inj_length _ _ _ _ Hs') as [-> _]; [lia | reflexivity].
      * exfalso. destruct (whole m) as [|x w]; [discriminate Lw|].
        replace (u ++ x :: w) with ((u ++ [x]) ++ w) in Hs'
          by (rewrite <- app_assoc; reflexivity).
        destruct (app_inj_length _ _ _ _ Hs') as [_ E]; [cbn [length] in Lw; lia|].
        subst w. change (upper (x :: extension)) with (canonicalize x :: upper extension) in Hw.
        rewrite He in Hw. discriminate Hw.
      * exfalso. destruct extension as [|x e]; [discriminate Le|].
        replace (stem ++ x :: e) with ((stem ++ [x]) ++ e) in Hs'
          by (rewrite <- app_assoc; reflexivity).
        destruct (app_inj_length _ _ _ _ Hs') as [_ E]; [cbn [length] in Le; lia|].
        subst e. change (upper (x :: whole m)) with (canonicalize x :: upper (whole m)) in He.
        rewrite Hw in He. discriminate He.
      * destruct (app_inj_length _ _ _ _ Hs') as [-> _]; [lia | reflexivity].
    + exfalso. pose proof (N stem extension eq_refl) as E.
      rewrite <- (app_nil_r extension) in E.
      apply (matchHere_complete gi extensionRe extension []); [|exact E].
      apply extension_matches. auto.
  - intros name Hno.
    destruct (replaceFirst_spec gi extensionRe [] name) as [(u & m & Hs & Hm & _)|[_ E]];
      [|exact E].
    exfalso. destruct (Found _ u m Hs Hm) as (Hs' & _ & Hw).
    unfold hasBookSuffix in Hno. apply Bool.orb_false_iff in Hno as [N1 N2].
    rewrite Hs', upper_app in N1, N2.
    destruct Hw as [Hw|Hw]; rewrite Hw in *.
    + assert (T : endsWith (lit ".PDF") (upper u ++ lit ".PDF") = true)
        by (apply endsWith_spec; exists (upper u); reflexivity).
      congruence.
    + assert (T : endsWith (lit ".EPUB") (upper u ++ lit ".EPUB") = true)
        by (apply endsWith_spec; exists (upper u); reflexivity).
      congruence.
Qed.


Lemma fileNameOf_last (dir name : jstring) (sep : ascii) :
  isSeparator sep = true ->
  Forall (fun c => isSeparator c = false) name ->
  fileNameOf (dir ++ sep :: name)
  = match name with [] => lit "Unknown Book" | _ :: _ => name end.
Proof.
  intros Hsep Hname. unfold fileNameOf.
  destruct (splitAt_last isSeparator dir name sep Hsep Hname) as (first & more & ->).
  rewrite pop_snoc. destruct name; reflexivity.
Qed.

(** X18. The title of a book added to the shelf is the last segment of its
    path without one final [.pdf] or [.epub], in any case; a name without
    such an ending is the title as it is, and a path that ends in a
    separator gives [Unknown Book]. *)
Theorem book_title_drops_the_extension (dir stem extension : jstring) (sep : ascii) :
  isSeparator sep = true ->
  Forall (fun c => isSeparator c = false) (stem ++ extension) ->
  (upper extension = lit ".PDF" \/ upper extension = lit ".EPUB" ->
   titleOf (dir ++ sep :: stem ++ extension) = stem) /\
  (hasBookSuffix (stem ++ extension) = false -> stem ++ extension <> [] ->
   titleOf (dir ++ sep :: stem ++ extension) = stem ++ extension) /\
  titleOf (dir ++ [sep]) = lit "Unknown Book".
Proof.
  intros Hsep Hname. destruct replaceFirst_extension as [Strip Keep].
  unfold titleOf. split; [|split].
  - intros Hext. rewrite (fileNameOf_last dir _ sep Hsep Hname).
    destruct (stem ++ extension) eqn:E; [|rewrite <- E; apply Strip, Hext].
    apply app_eq_nil in E as [_ ->]. destruct Hext; discriminate.
  - intros Hno Hne. rewrite (fileNameOf_last dir _ sep Hsep Hname).
    destruct (stem ++ extension) eqn:E; [contradiction|]. apply Keep. exact Hno.
  - rewrite (fileNameOf_last dir [] sep Hsep (Forall_nil _)). reflexivity.
Qed.

Lemma book_title_drops_the_extension_witness :
  titleOf (lit "/home/ann/books" ++ "/"%char :: lit "Emma.v2" ++ lit ".EPUB") = lit "Emma.v2".
Proof.
  refine (proj1 (book_title_drops_the_extension (lit "/home/ann/books") (lit "Emma.v2")
                   (lit ".EPUB") "/"%char _ _) _).
  - reflexivity.
  - repeat constructor.
  - right. reflexivity.
Defined.

End FileFacts.

(** ** The shelf in storage *)

Section ShelfFacts.
Import Files Shelf.

Lemma sameText_true (a b : jstring) : sameText a b = true <-> a = b.
Proof. unfold sameText. destruct (list_eq_dec ascii_dec a b); split; congruence. Qed.

Lemma sameText_refl (a : jstring) : sameText a a = true.
Proof. apply sameText_true. reflexivity. Qed.

Lemma find_path_none (path : jstring) (books : list Book) :
  find (fun book => sameText (filePath book) path) books = None <->
  ~ In path (map filePath books).
Proof.
  induction books as [|b books IH]; cbn [find map].
  - split; [intros _ [] | reflexivity].
  - destruct (sameText (filePath b) path) eqn:E.
    + apply sameText_true in E. split; [discriminate|]. intros H. exfalso. apply H. left. exact E.
    + rewrite IH. split.
      * intros H [E'|H']; [|exact (H H')]. apply sameText_true in E'. congruence.
      * intros H H'. apply H. right. exact H'.
Qed.

(** X19. A file is put on the shelf once: adding it a second time, at any
    later instant and as any type, changes nothing and asks for no reload;
    a path that is on the shelf is not added; and a shelf whose paths are
    pairwise distinct keeps them distinct, with the path on it. *)
Theorem a_file_is_shelved_once (now later : instant) (path : jstring) (t t' : fileType)
  (saved : storage) :
  let once := fst (addBookToBookshelf now path t saved) in
  addBookToBookshelf later path t' once = (once, false) /\
  (forall books, saved = Books books -> In path (map filePath books) ->
     addBookToBookshelf now path t saved = (saved, false)) /\
  (forall books, saved = Books books -> NoDup (map filePath books) ->
     exists books', once = Books books' /\ NoDup (map filePath books') /\
                    In path (map filePath books')).
Proof.
  cbv zeta. split; [|split].
  - destruct saved as [| |books]; cbn [addBookToBookshelf find fst]; try reflexivity.
    + rewrite sameText_refl. reflexivity.
    + destruct (find (fun book => sameText (filePath book) path) books) as [b|] eqn:F;
        cbn [fst addBookToBookshelf]; [rewrite F; reflexivity|].
      cbn [find filePath]. rewrite sameText_refl. reflexivity.
  - intros books -> Hin. cbn [addBookToBookshelf].
    destruct (find (fun book => sameText (filePath book) path) books) eqn:F; [reflexivity|].
    apply find_path_none in F. contradiction.
  - intros books -> ND. cbn [addBookToBookshelf].
    destruct (find (fun book => sameText (filePath book) path) books) as [b|] eqn:F; cbn [fst].
    + exists books. split; [reflexivity|]. split; [exact ND|].
      apply find_some in F as [Hin E]. apply sameText_true in E. subst path.
      apply in_map. exact Hin.
    + eexists. split; [reflexivity|]. cbn [map filePath]. split; [|left; reflexivity].
      constructor; [apply find_path_none, F | exact ND].
Qed.


Lemma saveProgress_last (now now' : instant) (path : jstring) (p p' : Progress.progress)
  (saved : storage) :
  saveProgressToStorage now' path p' (saveProgressToStorage now path p saved)
  = saveProgressToStorage now' path p' saved.
Proof.
  destruct saved as [| |books]; cbn [saveProgressToStorage]; try reflexivity.
  f_equal. rewrite map_map. apply map_ext. intros b.
  destruct (sameText (filePath b) path) eqn:E; cbn [filePath]; rewrite E; reflexivity.
Qed.

Lemma saveProgress_books (now : instant) (path : jstring) (p : Progress.progress)
  (books : list Book) :
  let books' := map (fun book =>
                       if sameText (filePath book) path then
                         {| id := id book; title := title book; author := author book;
                            filePath := filePath book; type := type book;
                            lastOpened := now;
                            bookmarks := bookmarks book;
                            progress := p;
                            addedDate := addedDate book |}
                       else book) books in
  map frame books' = map frame books /\
  Forall (fun book => filePath book = path -> progress book = p /\ lastOpened book = now) books'.
Proof.
  cbv zeta. split.
  - rewrite map_map. apply map_ext. intros b.
    destruct (sameText (filePath b) path); reflexivity.
  - apply Forall_forall. intros b' Hb'. apply in_map_iff in Hb' as (b & <- & _).
    destruct (sameText (filePath b) path) eqn:E; cbn [filePath progress lastOpened].
    + auto.
    + intros E'. apply sameText_true in E'. congruence.
Qed.

Lemma saveProgress_each (now : instant) (path : jstring) (p : Progress.progress)
  (books : list Book) :
  exists books',
    saveProgressToStorage now path p (Books books) = Books books' /\
    Forall2 (gainsProgress now path p) books books'.
Proof.
  eexists. split; [reflexivity|].
  induction books as [|b books IH]; cbn [map]; constructor; [|exact IH].
  unfold gainsProgress.
  destruct (sameText (filePath b) path); [repeat split | reflexivity].
Qed.

(** X20. Saving the progress touches only the books of the open file, and
    of those only the progress and the date of the last opening: every
    book of another file stays as it is, the date of its last opening
    included; every other field, the number and the order of the books
    stay; nothing is saved when the storage has no shelf or an unreadable
    one, or when the file is not on the shelf; the progress of every book
    is what the first model of the shelf computes; and of two savings in a
    row the later one decides. *)
Theorem progress_is_saved_for_shelved_books_only (now : instant) (path : jstring)
  (p : Progress.progress) (saved : storage) :
  match saved, saveProgressToStorage now path p saved with
  | Books books, Books books' =>
      Forall2 (gainsProgress now path p) books books' /\
      map frame books' = map frame books /\
      map brief books' = Progress.saveProgressToStorage path p (map brief books) /\
      (~ In path (map filePath books) -> books' = books) /\
      Forall (fun book => filePath book = path -> progress book = p /\ lastOpened book = now)
             books'
  | Absent, Absent => True
  | Unreadable, Unreadable => True
  | _, _ => False
  end /\
  (forall later p',
     saveProgressToStorage later path p' (saveProgressToStorage now path p saved)
     = saveProgressToStorage later path p' saved).
Proof.
  split; [|intros later p'; apply saveProgress_last].
  destruct saved as [| |books]; try exact I.
  destruct (saveProgress_each now path p books) as (books' & E & Each).
  rewrite E. cbn [saveProgressToStorage] in E. injection E as E.
  split; [exact Each|]. subst books'. split; [|split; [|split]].
  - rewrite map_map. apply map_ext. intros b.
    destruct (sameText (filePath b) path); reflexivity.
  - unfold Progress.saveProgressToStorage. rewrite !map_map. apply map_ext. intros b.
    unfold sameText. cbn [brief Progress.filePath].
    destruct (list_eq_dec ascii_dec (filePath b) path); reflexivity.
  - intros Hout. rewrite <- (map_id books) at 2. apply map_ext_in. intros b Hb.
    destruct (sameText (filePath b) path) eqn:E; [|reflexivity].
    apply sameText_true in E. exfalso. apply Hout. rewrite <- E. apply in_map, Hb.
  - apply Forall_forall. intros b' Hb'. apply in_map_iff in Hb' as (b & <- & _).
    destruct (sameText (filePath b) path) eqn:E; cbn [filePath progress lastOpened].
    + auto.
    + intros E'. apply sameText_true in E'. congruence.
Qed.

End ShelfFacts.

Section ReaderFacts.
Import Files Shelf.
Import QArith.

Variable fl : Q -> Q.
Hypothesis fl_monotone : forall x y, (x <= y)%Q -> (fl x <= fl y)%Q.
Hypothesis fl_exact : forall x, Progress.representable x -> (fl x == x)%Q.

Lemma percent_1_1 : Progress.percent fl 1 1 = 100%Z.
Proof.
  unfold Progress.percent.
  assert (E1 : (fl (inject_Z 1 / inject_Z 1) == inject_Z 1)%Q)
    by (apply (fl_value fl fl_monotone fl_exact); [reflexivity | apply representable_Z; reflexivity]).
  assert (E2 : (fl (fl (inject_Z 1 / inject_Z 1) * 100) == inject_Z 100)%Q).
  { apply (fl_value fl fl_monotone fl_exact); [rewrite E1; reflexivity
                                               | apply representable_Z; reflexivity]. }
  rewrite (Math_round_eq _ _ E2). reflexivity.
Qed.

(** X21. The first run of the save effect, with the page state the reader
    is mounted with, stores page 1 of 1 at 100 percent and the instant of
    the saving as the date of the last opening for every book of the opened
    file, whatever progress the shelf held for it; it leaves every other
    field of those books, and every other book, as they were. *)
Theorem opening_a_book_resets_its_progress (now : instant) (path : jstring)
  (books : list Book) :
  let first := {| Progress.currentPage := 1; Progress.totalPages := 1;
                  Progress.percentage := 100 |} in
  autoSave fl true now path mounted (Books books)
  = (saveProgressToStorage now path first (Books books), Some first) /\
  exists books',
    fst (autoSave fl true now path mounted (Books books)) = Books books' /\
    Forall2 (gainsProgress now path first) books books' /\
    map frame books' = map frame books /\
    Forall (fun book => filePath book = path -> progress book = first /\ lastOpened book = now)
           books'.
Proof.
  cbv zeta. unfold autoSave. cbn [mounted totalPages currentPage autoSaveEnabled andb Z.ltb Z.compare].
  rewrite percent_1_1. split; [reflexivity|]. cbn [fst].
  pose proof (saveProgress_books now path
                {| Progress.currentPage := 1; Progress.totalPages := 1;
                   Progress.percentage := 100 |} books) as (Hf & Hp).
  destruct (saveProgress_each now path
              {| Progress.currentPage := 1; Progress.totalPages := 1;
                 Progress.percentage := 100 |} books) as (books' & E & Each).
  exists books'. split; [exact E|]. split; [exact Each|].
  cbn [saveProgressToStorage] in E. injection E as <-. split; [exact Hf | exact Hp].
Qed.

End ReaderFacts.

Lemma opening_a_book_resets_its_progress_witness :
  let first := {| Progress.currentPage := 1; Progress.totalPages := 1;
                  Progress.percentage := 100 |} in
  Shelf.autoSave Binary64.round true 7 (lit "novel.epub") Shelf.mounted (Shelf.Books Cases.library)
  = (Shelf.Books
       [ {| Shelf.id := lit "1"; Shelf.title := lit "novel"; Shelf.author := None;
            Shelf.filePath := lit "novel.epub"; Shelf.type := Files.epub;
            Shelf.lastOpened := 7; Shelf.bookmarks := Some [];
            Shelf.progress := first; Shelf.addedDate := 1 |};
         Cases.manual ],
     Some first).
Proof.
  cbv zeta.
  rewrite (proj1 (opening_a_book_resets_its_progress Binary64.round round_monotone round_exact
                    7 (lit "novel.epub") Cases.library)).
  reflexivity.
Defined.

Section BookmarkFacts.
Import Files Shelf.

Lemma addBookmark_books (now : instant) (path : jstring) (bookmark : draft)
  (books : list Book) :
  exists books',
    addBookmarkToStorage now path bookmark (Books books) = Books books' /\
    Forall2 (gainsBookmark path
               {| markId := ofNat now;
                  page := draftPage bookmark;
                  markTitle := draftTitle bookmark;
                  description := draftDescription bookmark;
                  createdAt := now |}) books books'.
Proof.
  eexists. split; [reflexivity|].
  induction books as [|b books IH]; cbn [map]; constructor; [|exact IH].
  unfold gainsBookmark.
  destruct (sameText (filePath b) path); [split; reflexivity | reflexivity].
Qed.

(** X22. Without a title that is not blank the bookmark form does
    nothing.  With one, it stores a bookmark for the current page whose
    title is the trimmed title and whose description is the trimmed
    description, or none when that is empty; the bookmark is put behind the
    bookmarks of every book of the open file, nothing else of the shelf
    changes, and the form is emptied and closed. *)
Theorem a_bookmark_needs_a_title (now : instant) (path : jstring) (currentPage : Z)
  (fm : form) (saved : storage) :
  (trim (bookmarkTitle fm) = [] ->
   handleAddBookmark now path currentPage fm saved = (fm, saved, None)) /\
  (trim (bookmarkTitle fm) <> [] ->
   exists bookmark,
     handleAddBookmark now path currentPage fm saved
     = ({| bookmarkTitle := []; bookmarkDescription := []; showBookmarkModal := false |},
        addBookmarkToStorage now path bookmark saved, Some bookmark) /\
     draftPage bookmark = currentPage /\
     draftTitle bookmark = trim (bookmarkTitle fm) /\
     trim (draftTitle bookmark) = draftTitle bookmark /\
     draftDescription bookmark
     = match trim (bookmarkDescription fm) with
       | [] => None
       | _ :: _ => Some (trim (bookmarkDescription fm))
       end /\
     draftDescription bookmark <> Some [] /\
     match saved with
     | Books books =>
         exists books',
           addBookmarkToStorage now path bookmark saved = Books books' /\
           Forall2 (gainsBookmark path
                      {| markId := ofNat now;
                         page := currentPage;
                         markTitle := trim (bookmarkTitle fm);
                         description := draftDescription bookmark;
                         createdAt := now |}) books books'
     | _ => addBookmarkToStorage now path bookmark saved = saved
     end).
Proof.
  unfold handleAddBookmark. split.
  - intros ->. reflexivity.
  - intros Hne. destruct (trim (bookmarkTitle fm)) as [|c t] eqn:T; [contradiction|].
    eexists. split; [reflexivity|]. cbn [draftPage draftTitle draftDescription].
    split; [reflexivity|]. split; [reflexivity|]. rewrite <- T.
    split; [apply trim_idempotent|].
    split; [destruct (trim (bookmarkDescription fm)); reflexivity|].
    split; [destruct (trim (bookmarkDescription fm)); cbn; discriminate|].
    destruct saved as [| |books]; try reflexivity.
    apply (addBookmark_books now path
             {| draftPage := currentPage; draftTitle := trim (bookmarkTitle fm);
                draftDescription := truthy (Some (trim (bookmarkDescription fm))) |} books).
Qed.

(** X23. After a file has been added to a shelf that can be read, a saved
    progress is found again: the first book of that path on the shelf
    carries the progress and the instant of the saving. *)
Theorem saved_progress_is_found_again (now later : instant) (path : jstring)
  (t : fileType) (p : Progress.progress) (saved : storage) :
  saved <> Unreadable ->
  exists books book,
    saveProgressToStorage later path p (fst (addBookToBookshelf now path t saved))
    = Books books /\
    find (fun b => sameText (filePath b) path) books = Some book /\
    progress book = p /\ lastOpened book = later.
Proof.
  intros Hok.
  assert (F : forall books b,
            find (fun b => sameText (filePath b) path) books = Some b ->
            exists book,
              find (fun b => sameText (filePath b) path)
                (map (fun book =>
                        if sameText (filePath book) path then
                          {| id := id book; title := title book; author := author book;
                             filePath := filePath book; type := type book;
                             lastOpened := later;
                             bookmarks := bookmarks book;
                             progress := p;
                             addedDate := addedDate book |}
                        else book) books) = Some book /\
              progress book = p /\ lastOpened book = later).
  { induction books as [|x books IH]; intros b; cbn [find map]; [discriminate|].
    destruct (sameText (filePath x) path) eqn:E.
    - intros _. cbn [filePath]. rewrite E. eexists. split; [reflexivity|]. auto.
    - rewrite E. apply IH. }
  destruct saved as [| |books]; [| contradiction |]; cbn [addBookToBookshelf find].
  - cbn [fst saveProgressToStorage].
    edestruct F as (book & Hf & Hp & Hl);
      [|eexists; exists book; split; [reflexivity|]; split; [exact Hf | auto]].
    cbn [find filePath]. rewrite sameText_refl. reflexivity.
  - destruct (find (fun book => sameText (filePath book) path) books) as [b|] eqn:E;
      cbn [fst saveProgressToStorage].
    + destruct (F _ _ E) as (book & Hf & Hp & Hl).
      eexists; exists book; split; [reflexivity|]; split; [exact Hf | auto].
    + edestruct F as (book & Hf & Hp & Hl);
        [|eexists; exists book; split; [reflexivity|]; split; [exact Hf | auto]].
      cbn [find filePath]. rewrite sameText_refl. reflexivity.
Qed.

Lemma saved_progress_is_found_again_witness :
  exists books book,
    saveProgressToStorage 9 (lit "/books/emma.epub")
      {| Progress.currentPage := 3; Progress.totalPages := 12; Progress.percentage := 25 |}
      (fst (addBookToBookshelf 5 (lit "/books/emma.epub") epub Absent))
    = Books books /\
    find (fun b => sameText (filePath b) (lit "/books/emma.epub")) books = Some book /\
    progress book
    = {| Progress.currentPage := 3; Progress.totalPages := 12; Progress.percentage := 25 |} /\
    lastOpened book = 9.
Proof.
  apply (saved_progress_is_found_again 5 9 (lit "/books/emma.epub") epub
           {| Progress.currentPage := 3; Progress.totalPages := 12;
              Progress.percentage := 25 |} Absent).
  discriminate.
Defined.

End BookmarkFacts.

(** ** The scroll handler *)

Section ScrollFacts.
Import Scroll.
#[local] Open Scope Z_scope.

Lemma last_cons_default {A} (x : A) (l : list A) (d d' : A) :
  last (x :: l) d = last (x :: l) d'.
Proof.
  revert x. induction l as [|y l IH]; intros x; [reflexivity|].
  change (last (y :: l) d = last (y :: l) d'). apply IH.
Qed.

(** X24. Scrolling in steps of at most 10 units never changes whether the
    navigation bar is visible, however far it goes; the offset that is
    remembered is the last one. *)
Theorem slow_scrolling_keeps_the_navigation_bar (b : bar) (offsets : list Z) :
  slow (lastScrollTop b) offsets ->
  isNavigationVisible (fold_left handleScroll offsets b) = isNavigationVisible b /\
  lastScrollTop (fold_left handleScroll offsets b) = last offsets (lastScrollTop b).
Proof.
  revert b. induction offsets as [|y offsets IH]; intros b H; [split; reflexivity|].
  destruct H as [Hy H]. cbn [fold_left].
  destruct (IH (handleScroll b y) H) as [V L]. rewrite V, L. split.
  - unfold handleScroll. cbn [isNavigationVisible].
    destruct (Z.ltb_spec 10 (y - lastScrollTop b)); [lia|]. cbn [andb].
    destruct (Z.ltb_spec (y - lastScrollTop b) (-10)); [lia | reflexivity].
  - cbn [handleScroll lastScrollTop]. destruct offsets as [|z offsets]; [reflexivity|].
    change (last (z :: offsets) y = last (z :: offsets) (lastScrollTop b)).
    apply last_cons_default.
Qed.

Lemma slow_scrolling_keeps_the_navigation_bar_witness :
  isNavigationVisible (fold_left handleScroll [10; 20; 30; 40; 50; 60; 70; 80; 90; 100; 110; 120]
                         initial) = true /\
  lastScrollTop (fold_left handleScroll [10; 20; 30; 40; 50; 60; 70; 80; 90; 100; 110; 120]
                   initial) = 120.
Proof.
  apply (slow_scrolling_keeps_the_navigation_bar initial
           [10; 20; 30; 40; 50; 60; 70; 80; 90; 100; 110; 120]).
  cbn. lia.
Defined.

End ScrollFacts.

(** ** The manifest: the declared order *)

Section ReadingOrder.








End ReadingOrder.

(** ** Titles: the order of the elements *)

Section TitleOrder.

(** What a match of an element pattern is made of. *)
Lemma element_match (tag : string) (s : jstring) (m : matched) :
  matchHere gi (elementRe tag) s = Some m ->
  exists tagName attrs closing,
    whole m = tagName ++ attrs ++ ">"%char :: group1 m ++ closing /\
    s = whole m ++ rest m /\
    upper tagName = upper (lit ("<" ++ tag)) /\
    Forall (fun c => c <> ">"%char) attrs /\
    upper closing = upper (lit ("</" ++ tag ++ ">")) /\
    Forall (fun c => c <> CR /\ c <> LF) (group1 m) /\
    forall before inside, group1 m = before ++ inside -> inside <> [] ->
                          ~ closesElement tag (inside ++ closing ++ rest m).
Proof.
  unfold matchHere, elementRe. intros H.
  apply run_seq_sound in H as (a1 & t1 & cap1 & E1 & M1 & H).
  apply run_seq_sound in H as (a2 & t2 & cap2 & E2 & M2 & H).
  apply run_seq_sound in H as (a3 & t3 & cap3 & E3 & M3 & H).
  cbn [run] in H.
  apply starLazy_first in H as (a & t & E4 & Fa & H & Hmin).
  rewrite E4, firstn_app_exact in H.
  apply run_groupFree in H as (c & r & E5 & M5 & H); [|apply groupFree_chars].
  injection H as Hm.
  apply Matches_chars in M1. apply Matches_chars in M5.
  inversion M2 as [| | | | |? ? ? F2| | |].
  inversion M3 as [? x ? Hx| | | | | | | |].
  apply chrMatches_gi, canonicalize_gt in Hx.
  subst. cbn [group1 rest whole] in *.
  assert (W : firstn (length (a1 ++ a2 ++ [">"%char] ++ a ++ c ++ r) - length r)
                (a1 ++ a2 ++ [">"%char] ++ a ++ c ++ r)
              = a1 ++ a2 ++ ">"%char :: a ++ c).
  { apply firstn_app_exact_eq. rewrite <- !app_assoc. cbn [app]. rewrite <- !app_assoc.
    reflexivity. }
  exists a1, a2, c. rewrite W. split; [reflexivity|].
  split; [rewrite <- !app_assoc; cbn [app]; rewrite <- !app_assoc; reflexivity|].
  split; [exact M1|]. split.
  { eapply Forall_impl; [|exact F2]. intros y Hy ->. discriminate Hy. }
  split; [exact M5|]. split.
  { eapply Forall_impl; [|exact Fa]. intros y. apply dot_not_break. }
  intros before inside Ea Hne (closing & more & Et & Hu).
  specialize (Hmin before inside Ea Hne). rewrite Et in Hmin.
  revert Hmin. apply run_complete; [|discriminate].
  apply (chars_Matches "<" ("/" ++ tag ++ ">")). exact Hu.
Qed.

Lemma firstElement_shape (tag : string) (html raw : jstring) :
  firstElement tag html = Some raw ->
  exists pre tagName attrs closing post,
    html = pre ++ (tagName ++ attrs ++ [">"%char]) ++ raw ++ closing ++ post /\
    upper tagName = upper (lit ("<" ++ tag)) /\
    Forall (fun c => c <> ">"%char) attrs /\
    upper closing = upper (lit ("</" ++ tag ++ ">")) /\
    Forall (fun c => c <> CR /\ c <> LF) raw /\
    forall before inside, raw = before ++ inside -> inside <> [] ->
                          ~ closesElement tag (inside ++ closing ++ post).
Proof.
  unfold firstElement. destruct (search gi (elementRe tag) html) as [m|] eqn:E; [|discriminate].
  cbn [option_map]. intros [= <-].
  apply search_sound in E as (pre & Hs & Hm).
  apply element_match in Hm as (tagName & attrs & closing & Hw & _ & Ht & Ha & Hc & Hd & Hmin).
  exists pre, tagName, attrs, closing, (rest m).
  split; [|auto 6]. rewrite Hs, Hw, <- !app_assoc. cbn [app]. rewrite <- !app_assoc. reflexivity.
Qed.

Lemma titleByCode_order (html : jstring) (ordinal : nat) :
  titleByCode html ordinal = titleByOrder html ordinal.
Proof.
  unfold titleByCode, titleByOrder, captures, titlePatterns, firstElement.
  cbn [flat_map].
  destruct (search gi (elementRe "title") html) as [m0|]; cbn [option_map app find];
    [destruct (notEmpty (trim (group1 m0))); [reflexivity|]|];
  (destruct (search gi (elementRe "h1") html) as [m1|]; cbn [option_map app find];
    [destruct (notEmpty (trim (group1 m1))); [reflexivity|]|]);
  (destruct (search gi (elementRe "h2") html) as [m2|]; cbn [option_map app find];
    [destruct (notEmpty (trim (group1 m2))); [reflexivity|]|]);
  (destruct (search gi (elementRe "h3") html) as [m3|]; cbn [option_map app find];
    [destruct (notEmpty (trim (group1 m3))); reflexivity | reflexivity]).
Qed.

(** C8. The title of a chapter is decided by the elements [title], [h1],
    [h2] and [h3], asked in this order, whatever their order in the text:
    the first of them whose first element has a text that is not blank
    gives the title, the title-sanitization of that text, or [Chapter k]
    for the chapter's ordinal [k] when the sanitization leaves nothing; if
    none of them has such a text the title is [Chapter k].  The text of an
    element lies between the first opening tag of that name, in any case,
    and the first closing tag behind it, on one line.  Where no such text
    consists of tags only this is the first match that is not empty after
    sanitization.  The sanitized text has at most 20000 characters. *)
Theorem chapter_title_choice (zip : archive) (path : jstring) (ordinal : nat) (ch : Chapter) :
  createChapterFromHtml zip path ordinal = Some ch ->
  exists html,
    truthy (file zip path) = Some html /\
    title ch = titleByOrder html ordinal /\
    chapterWord ordinal = lit "Chapter " ++ ofNat ordinal /\
    (forall tag raw, firstElement tag html = Some raw ->
       exists pre tagName attrs closing post,
         html = pre ++ (tagName ++ attrs ++ [">"%char]) ++ raw ++ closing ++ post /\
         upper tagName = upper (lit ("<" ++ tag)) /\
         Forall (fun c => c <> ">"%char) attrs /\
         upper closing = upper (lit ("</" ++ tag ++ ">")) /\
         Forall (fun c => c <> CR /\ c <> LF) raw /\
         forall before inside, raw = before ++ inside -> inside <> [] ->
                               ~ closesElement tag (inside ++ closing ++ post)) /\
    title ch = titleByCode html ordinal /\
    ((forall raw, In raw (captures html) ->
        notEmpty (trim raw) = notEmpty (cleanTextContent raw)) ->
     title ch = titleBySpec html ordinal) /\
    (forall raw, length (cleanTextContent raw) <= 20000).
Proof.
  intros H. destruct (createChapter_title _ _ _ _ H) as (html & Hf & Ht).
  exists html. split; [exact Hf|].
  split; [rewrite Ht; apply titleByCode_order|].
  split; [reflexivity|].
  split; [intros tag raw; apply firstElement_shape|].
  split; [exact Ht|].
  split; [intros A; rewrite Ht; apply titles_agree, A | apply cleanTextContent_length].
Qed.

Lemma chapter_title_choice_witness :
  exists html,
    truthy (file [(lit "ch.xhtml", Samples.headingsOutOfOrder)] (lit "ch.xhtml")) = Some html /\
    lit "Part" = titleByOrder html 1.
Proof.
  destruct (chapter_title_choice [(lit "ch.xhtml", Samples.headingsOutOfOrder)]
              (lit "ch.xhtml") 1
              {| id := lit "chapter-1"; title := lit "Part";
                 content := Samples.headingsOutOfOrder |})
    as (html & Hf & Ht & _).
  - vm_compute. reflexivity.
  - exists html. split; [exact Hf | exact Ht].
Defined.

End TitleOrder.

(** ** The sanitizer on documents *)

Section SanitizerDocuments.

Import Markup.

(** *** Prefixes *)

Lemma startsWith_app (p a b : jstring) :
  startsWith p a = true -> startsWith p (a ++ b) = true.
Proof.
  rewrite !startsWith_spec. intros [t ->]. exists (t ++ b). symmetry. apply app_assoc.
Qed.





(** *** Literal text under the flag [i] *)




(** *** The lazy repetition, place by place *)


(** *** Replacement, place by place *)



(** *** Where a block or a tag is matched *)




(** *** Where no block and no tag starts *)














(** *** The four removals *)









(** *** The six replacements *)










(** *** Trimming *)








End SanitizerDocuments.
